(** * Record linkage of the frequency index against the exam corpus

    A shallow embedding of [scripts/add_problem_text_to_frequency.py].

    A Python [str] is a sequence of Unicode code points: it is modelled as a
    [list Z].  The regular expressions of the script are kept as syntax trees
    and run by a backtracking matcher with the priorities of Python's [re]
    (leftmost start, ordered alternation, greedy and lazy loops), so that
    each pattern below can be read against its source text. *)

From Stdlib Require Import ZArith QArith List Bool Lia Ascii String.
From stdpp Require Import base option list gmap.
Import ListNotations.

Local Open Scope Z_scope.

(** ** Code points *)

Module Ch.
Definition tab : Z := 0x09.
Definition nl : Z := 0x0A.        (* "\n" *)
Definition space : Z := 0x20.
Definition hash : Z := 0x23.      (* # *)
Definition lparen : Z := 0x28.    (* ( *)
Definition rparen : Z := 0x29.    (* ) *)
Definition star : Z := 0x2A.      (* * *)
Definition hyphen : Z := 0x2D.    (* - *)
Definition dot : Z := 0x2E.       (* . *)
Definition slash : Z := 0x2F.     (* / *)
Definition colon : Z := 0x3A.     (* : *)
Definition pipe : Z := 0x7C.      (* | *)
Definition d0 : Z := 0x30.
Definition d2 : Z := 0x32.
Definition ideo_comma : Z := 0x3001.   (* 、 *)
Definition middle_dot : Z := 0x30FB.   (* ・ *)
Definition fw_lparen : Z := 0xFF08.    (* （ *)
Definition fw_rparen : Z := 0xFF09.    (* ） *)
Definition fw_dot : Z := 0xFF0E.       (* ． *)
Definition fw_colon : Z := 0xFF1A.     (* ： *)
Definition circled1 : Z := 0x2460.     (* ① *)
Definition circled10 : Z := 0x2469.    (* ⑩ *)
Definition mon : Z := 0x554F.          (* 問 *)
Definition dai : Z := 0x984C.          (* 題 *)
Definition bun : Z := 0x6587.          (* 文 *)
Definition sen : Z := 0x9078.          (* 選 *)
Definition taku : Z := 0x629E.         (* 択 *)
Definition shi : Z := 0x80A2.          (* 肢 *)
Definition sei : Z := 0x6B63.          (* 正 *)
Definition kai : Z := 0x89E3.          (* 解 *)
Definition zen : Z := 0x5168.          (* 全 *)
Definition you : Z := 0x8981.          (* 要 *)
Definition mune : Z := 0x65E8.         (* 旨 *)
Definition hon : Z := 0x672C.          (* 本 *)
Definition sai : Z := 0x518D.          (* 再 *)
Definition tamesu : Z := 0x8A66.       (* 試 *)
Definition ken : Z := 0x9A13.          (* 験 *)
Definition setsu : Z := 0x8AAC.        (* 説 *)
End Ch.

(** Code points of an ASCII literal. *)
Definition asc (s : String.string) : list Z :=
  map (fun a => Z.of_N (Ascii.N_of_ascii a)) (String.list_ascii_of_string s).

Definition in_range (lo hi c : Z) : bool := (lo <=? c) && (c <=? hi).

(** [str.isspace], which is also the class [\s] of a [str] pattern
    (CPython's [_PyUnicode_IsWhitespace]). *)
Definition is_space (c : Z) : bool :=
  in_range 0x09 0x0D c || in_range 0x1C 0x20 c || (c =? 0x85) || (c =? 0xA0)
  || (c =? 0x1680) || in_range 0x2000 0x200A c || (c =? 0x2028)
  || (c =? 0x2029) || (c =? 0x202F) || (c =? 0x205F) || (c =? 0x3000).

(** The class [\d] of a [str] pattern is the Unicode category Nd.  Every Nd
    character lies in a block of ten consecutive code points, DIGIT ZERO to
    DIGIT NINE; the table lists the zeros (Unicode 14, as in CPython 3.11). *)
Definition decimal_zeros : list Z :=
  [0x30; 0x660; 0x6F0; 0x7C0; 0x966; 0x9E6; 0xA66; 0xAE6; 0xB66; 0xBE6; 0xC66;
   0xCE6; 0xD66; 0xDE6; 0xE50; 0xED0; 0xF20; 0x1040; 0x1090; 0x17E0; 0x1810;
   0x1946; 0x19D0; 0x1A80; 0x1A90; 0x1B50; 0x1BB0; 0x1C40; 0x1C50; 0xA620;
   0xA8D0; 0xA900; 0xA9D0; 0xA9F0; 0xAA50; 0xABF0; 0xFF10; 0x104A0; 0x10D30;
   0x11066; 0x110F0; 0x11136; 0x111D0; 0x112F0; 0x11450; 0x114D0; 0x11650;
   0x116C0; 0x11730; 0x118E0; 0x11950; 0x11C50; 0x11D50; 0x11DA0; 0x16A60;
   0x16AC0; 0x16B50; 0x1D7CE; 0x1D7D8; 0x1D7E2; 0x1D7EC; 0x1D7F6; 0x1E140;
   0x1E2F0; 0x1E950; 0x1FBF0].

Definition is_digit (c : Z) : bool :=
  existsb (fun z => in_range z (z + 9) c) decimal_zeros.

(** Value of a decimal digit, as [int] reads it. *)
Definition digit_value (c : Z) : Z :=
  match List.find (fun z => in_range z (z + 9) c) decimal_zeros with
  | Some z => c - z
  | None => 0
  end.

(** [int(s)] on a run of decimal digits. *)
Definition int_of_digits (s : list Z) : Z :=
  fold_left (fun acc c => 10 * acc + digit_value c) s 0.

(** [[a-e①②③④⑤⑥⑦⑧⑨⑩]] *)
Definition is_label (c : Z) : bool :=
  in_range 0x61 0x65 c || in_range Ch.circled1 Ch.circled10 c.
(** [[.．、:：]] *)
Definition is_label_sep (c : Z) : bool :=
  (c =? Ch.dot) || (c =? Ch.fw_dot) || (c =? Ch.ideo_comma)
  || (c =? Ch.colon) || (c =? Ch.fw_colon).
(** [[\.．、:：\s]] *)
Definition is_sep_or_space (c : Z) : bool := is_label_sep c || is_space c.
(** [[（(]] *)
Definition is_open (c : Z) : bool := (c =? Ch.fw_lparen) || (c =? Ch.lparen).
(** [[）)]] *)
Definition is_close (c : Z) : bool := (c =? Ch.fw_rparen) || (c =? Ch.rparen).
(** [[・、]] *)
Definition is_delim (c : Z) : bool := (c =? Ch.middle_dot) || (c =? Ch.ideo_comma).
(** [[一-龥]] *)
Definition is_ideograph (c : Z) : bool := in_range 0x4E00 0x9FA5 c.
(** [[a-zA-Z]] *)
Definition is_latin (c : Z) : bool := in_range 0x61 0x7A c || in_range 0x41 0x5A c.
Definition is_nl (c : Z) : bool := c =? Ch.nl.
(** [.] under DOTALL *)
Definition any_char (_ : Z) : bool := true.
Definition not_cls (p : Z -> bool) (c : Z) : bool := negb (p c).

(** ** String operations of [str] *)

Fixpoint str_eqb (a b : list Z) : bool :=
  match a, b with
  | [], [] => true
  | x :: a', y :: b' => (x =? y) && str_eqb a' b'
  | _, _ => false
  end.

(** [s.startswith(p)] *)
Fixpoint startswith (p s : list Z) : bool :=
  match p, s with
  | [], _ => true
  | x :: p', y :: s' => (x =? y) && startswith p' s'
  | _ :: _, [] => false
  end.

(** [p in s] *)
Fixpoint contains (p s : list Z) : bool :=
  startswith p s || match s with [] => false | _ :: s' => contains p s' end.

Fixpoint drop_while (p : Z -> bool) (s : list Z) : list Z :=
  match s with
  | c :: s' => if p c then drop_while p s' else s
  | [] => []
  end.

Definition lstrip (s : list Z) : list Z := drop_while is_space s.
Definition rstrip (s : list Z) : list Z := rev (drop_while is_space (rev s)).
(** [s.strip()] *)
Definition strip (s : list Z) : list Z := rstrip (lstrip s).

(** [s.split(sep)] for a one-character separator. *)
Fixpoint split_on (sep : Z) (s : list Z) : list (list Z) :=
  match s with
  | [] => [[]]
  | c :: s' =>
      if c =? sep then [] :: split_on sep s'
      else match split_on sep s' with
           | l :: ls => (c :: l) :: ls
           | [] => [[c]]
           end
  end.

(** [sep.join(parts)] *)
Fixpoint join (sep : list Z) (parts : list (list Z)) : list Z :=
  match parts with
  | [] => []
  | [p] => p
  | p :: ps => p ++ sep ++ join sep ps
  end.

(** [s.replace(old, new)] for a non-empty [old]: occurrences are replaced
    from left to right without overlap; [skip] counts the characters of an
    occurrence that are still to be passed over. *)
Fixpoint replace_go (old new : list Z) (skip : nat) (s : list Z) : list Z :=
  match s with
  | [] => []
  | c :: s' =>
      match skip with
      | S k => replace_go old new k s'
      | O => if startswith old s
             then new ++ replace_go old new (length old - 1) s'
             else c :: replace_go old new 0 s'
      end
  end.
Definition replace (old new s : list Z) : list Z := replace_go old new 0 s.

(** [s[a:b]] for [0 <= a] and [0 <= b]. *)
Definition slice (s : list Z) (a b : nat) : list Z := firstn (b - a) (skipn a s).

(** ** Regular expressions

    The fragment of [re] syntax that the script uses.  [Cls p] is a character
    class (a literal character is the class of that character); [Rep lo hi g r]
    is [r{lo,hi}], greedy when [g] holds and lazy otherwise ([*] is
    [Rep 0 None true], [+?] is [Rep 1 None false]); [Grp n r] is the capture
    group number [n]; [Ahead r] is [(?=r)]; [Bol m] and [Eol m] are [^] and [$],
    with [m] the MULTILINE flag of the call; [Eos] is [\Z]. *)
Inductive regex : Type :=
| Emp
| Cls (p : Z -> bool)
| Cat (r1 r2 : regex)
| Alt (r1 r2 : regex)
| Rep (lo : nat) (hi : option nat) (greedy : bool) (r : regex)
| Grp (n : nat) (r : regex)
| Ahead (r : regex)
| Bol (multiline : bool)
| Eol (multiline : bool)
| Eos.

Declare Scope re_scope.
Delimit Scope re_scope with re.
Bind Scope re_scope with regex.
Infix "·" := Cat (at level 40, left associativity) : re_scope.
Infix "|||" := Alt (at level 50, left associativity) : re_scope.

Definition Chr (c : Z) : regex := Cls (Z.eqb c).
Definition Star (r : regex) : regex := Rep 0 None true r.
Definition Plus (r : regex) : regex := Rep 1 None true r.
Definition Opt (r : regex) : regex := Rep 0 (Some 1%nat) true r.
Definition PlusLazy (r : regex) : regex := Rep 1 None false r.
Fixpoint Lit (s : list Z) : regex :=
  match s with
  | [] => Emp
  | c :: s' => Cat (Chr c) (Lit s')
  end.

(** The matcher's position in the subject string, as a zipper: [behind] holds
    the characters before the position, nearest first, [rest] those from the
    position on; [caps] holds the text of the groups closed so far. *)
Record mstate : Type := MState {
  behind : list Z;
  rest : list Z;
  caps : list (nat * list Z)
}.

Definition advance (st : mstate) : mstate :=
  match rest st with
  | c :: t => MState (c :: behind st) t (caps st)
  | [] => st
  end.

Definition set_cap (n : nat) (w : list Z) (st : mstate) : mstate :=
  MState (behind st) (rest st) ((n, w) :: caps st).

Fixpoint get_cap (n : nat) (cs : list (nat * list Z)) : option (list Z) :=
  match cs with
  | [] => None
  | (i, w) :: cs' => if Nat.eqb i n then Some w else get_cap n cs'
  end.

Definition at_bol (multiline : bool) (st : mstate) : bool :=
  match behind st with
  | [] => true
  | c :: _ => multiline && is_nl c
  end.

Definition at_eos (st : mstate) : bool :=
  match rest st with [] => true | _ => false end.

Definition at_eol (multiline : bool) (st : mstate) : bool :=
  match rest st with
  | [] => true
  | c :: t => is_nl c && (multiline || match t with [] => true | _ => false end)
  end.

Definition cont : Type := mstate -> option mstate.

Definition or_else (a : option mstate) (b : option mstate) : option mstate :=
  match a with Some _ => a | None => b end.

Section Loop.
(** One pass through the body of a loop, in continuation-passing style. *)
Variable body : cont -> cont.
Variable greedy : bool.

Definition hi_open (hi : option nat) : bool :=
match hi with Some O => false | _ => true end.

Definition progress (st st' : mstate) : bool :=
(length (rest st') <? length (rest st))%nat.

(** [lo] passes are still owed and at most [hi] are allowed.  Once the
owed passes are done, a pass that consumes nothing is cut, which is
how [sre] keeps a loop over an empty match from spinning; every pass
either pays an owed one or shortens [rest], so [fuel] is an upper
bound on their number and its end is never reached early. *)
Fixpoint rep_loop (fuel lo : nat) (hi : option nat) (k : cont) (st : mstate)
: option mstate :=
match fuel with
| O => match lo with O => k st | S _ => None end
| S fuel' =>
let again :=
if hi_open hi then
body (fun st' =>
      if (0 <? lo)%nat || progress st st'
      then rep_loop fuel' (pred lo) (option_map pred hi) k st'
      else None) st
else None in
match lo with
| S _ => again
| O => if greedy then or_else again (k st) else or_else (k st) again
end
end.
End Loop.

Fixpoint rmatch (r : regex) (k : cont) (st : mstate) {struct r} : option mstate :=
  match r with
  | Emp => k st
  | Cls p =>
      match rest st with
      | c :: _ => if p c then k (advance st) else None
      | [] => None
      end
  | Cat r1 r2 => rmatch r1 (rmatch r2 k) st
  | Alt r1 r2 => or_else (rmatch r1 k st) (rmatch r2 k st)
  | Rep lo hi g r1 =>
      rep_loop (rmatch r1) g (lo + length (rest st)) lo hi k st
  | Grp n r1 =>
      rmatch r1
        (fun st' =>
           k (set_cap n (firstn (length (rest st) - length (rest st')) (rest st)) st'))
        st
  | Ahead r1 =>
      match rmatch r1 Some st with
      | Some _ => k st
      | None => None
      end
  | Bol m => if at_bol m st then k st else None
  | Eol m => if at_eol m st then k st else None
  | Eos => if at_eos st then k st else None
  end.

(** A match object: offsets into the searched string, the matched text and
    the groups. *)
Record match_obj : Type := MatchObj {
  m_start : nat;
  m_end : nat;
  m_text : list Z;
  m_caps : list (nat * list Z)
}.

(** [m.group(n)] for [n >= 1]; a group that took no part in the match gives
    the empty string where the script uses it. *)
Definition group (m : match_obj) (n : nat) : list Z :=
  match get_cap n (m_caps m) with Some w => w | None => [] end.

Definition mk_match (st0 st1 : mstate) : match_obj :=
  MatchObj (length (behind st0)) (length (behind st1))
           (firstn (length (rest st0) - length (rest st1)) (rest st0))
           (caps st1).

(** The last step of a match attempt: under [must_advance] an empty match
    is refused (the attempt right after an empty match, in [finditer] and
    [sub]). *)
Definition accept (must_advance : bool) (st0 : mstate) : cont :=
  fun st1 =>
    if must_advance && (length (rest st1) =? length (rest st0))%nat
    then None else Some st1.

(** One attempt at the position [st0]. *)
Definition match_at (r : regex) (must_advance : bool) (st0 : mstate)
  : option match_obj :=
  match rmatch r (accept must_advance st0) st0 with
  | Some st1 => Some (mk_match st0 st1)
  | None => None
  end.

(** [sre]'s search: the attempts run from the starting position rightwards
    and the first that succeeds wins.  The result also gives the position
    reached. *)
Fixpoint scan (r : regex) (must_advance : bool) (lft s : list Z)
  : option (match_obj * mstate) :=
  let st0 := MState lft s [] in
  match rmatch r (accept must_advance st0) st0 with
  | Some st1 => Some (mk_match st0 st1, st1)
  | None =>
      match s with
      | [] => None
      | c :: s' => scan r false (c :: lft) s'
      end
  end.

(** [re.match(r, s)] and [re.search(r, s)] *)
Definition re_match (r : regex) (s : list Z) : option match_obj :=
  match_at r false (MState [] s []).
Definition re_search (r : regex) (s : list Z) : option match_obj :=
  option_map fst (scan r false [] s).

(** [re.finditer(r, s)]: the matches from left to right, without overlap.
    After an empty match the next attempt starts at the same place and must
    advance, so two rounds at least move one character on. *)
Fixpoint finditer_loop (fuel : nat) (r : regex) (adv : bool) (lft s : list Z)
  : list match_obj :=
  match fuel with
  | O => []
  | S fuel' =>
      match scan r adv lft s with
      | None => []
      | Some (m, st1) =>
          m :: finditer_loop fuel' r (m_end m =? m_start m)%nat (behind st1) (rest st1)
      end
  end.
Definition finditer (r : regex) (s : list Z) : list match_obj :=
  finditer_loop (2 * length s + 2) r false [] s.

(** [re.findall(r, s)] for a pattern without groups. *)
Definition findall (r : regex) (s : list Z) : list (list Z) :=
  map m_text (finditer r s).

(** [re.sub(r, repl, s)] with [repl] a function of the match: the text
    between the matches is copied, each match is replaced. *)
Fixpoint sub_loop (fuel : nat) (r : regex) (repl : match_obj -> list Z)
    (adv : bool) (lft s : list Z) : list Z :=
  match fuel with
  | O => s
  | S fuel' =>
      match scan r adv lft s with
      | None => s
      | Some (m, st1) =>
          firstn (m_start m - length lft) s ++ repl m
          ++ sub_loop fuel' r repl (m_end m =? m_start m)%nat (behind st1) (rest st1)
      end
  end.
Definition re_sub (r : regex) (repl : match_obj -> list Z) (s : list Z) : list Z :=
  sub_loop (2 * length s + 2) r repl false [] s.

(** ** The answer normalizer *)

(** "^\s*[a-e①②③④⑤⑥⑦⑧⑨⑩]\s*[\.．、:：\s]*" *)
Definition re_label_prefix : regex :=
  (Bol false · Star (Cls is_space) · Cls is_label · Star (Cls is_space)
   · Star (Cls is_sep_or_space))%re.

(** "[（(]([^）)]* )[）)]" (the space only keeps the comment well-formed) *)
Definition re_parenthetical : regex :=
  (Cls is_open · Grp 1 (Star (Cls (not_cls is_close))) · Cls is_close)%re.

(** "\s+" *)
Definition re_spaces : regex := Plus (Cls is_space).

Definition normalize_answer_for_match (s : list Z) : list Z :=
  let s := re_sub re_label_prefix (fun _ => []) s in
  let s := strip s in
  let s := re_sub re_parenthetical (fun m => group m 1) s in
  re_sub re_spaces (fun _ => []) s.

(** ** The fuzzy matcher *)

(** "[一-龥]{2,}|[a-zA-Z]{2,}" *)
Definition re_token : regex :=
  (Rep 2 None true (Cls is_ideograph) ||| Rep 2 None true (Cls is_latin))%re.

(** [bool(set(xs) & set(ys))] *)
Definition sets_meet (xs ys : list (list Z)) : bool :=
  existsb (fun x => existsb (str_eqb x) ys) xs.

(** [len(r) >= 0.5 * len(c)]: the product is a float, exact for every
    length a string can have, and the comparison of an [int] with a float
    is exact. *)
Definition at_least_half (r c : list Z) : bool :=
  Qle_bool ((1 # 2) * inject_Z (Z.of_nat (length c))) (inject_Z (Z.of_nat (length r))).

Definition nonempty (s : list Z) : bool :=
  match s with [] => false | _ => true end.

Definition answers_match (row_ans cand_ans : list Z) : bool :=
  let r := normalize_answer_for_match row_ans in
  let c := normalize_answer_for_match cand_ans in
  if negb (nonempty r) || negb (nonempty c) then false
  else if str_eqb r c then true
  else if contains r c then at_least_half r c
  else if contains c r then at_least_half c r
  else sets_meet (findall re_token r) (findall re_token c).

(** ** The block extractor *)

Module Txt.
Definition mondaibun : list Z := [Ch.mon; Ch.dai; Ch.bun].           (* 問題文 *)
Definition sentakushi : list Z := [Ch.sen; Ch.taku; Ch.shi].         (* 選択肢 *)
Definition seikai : list Z := [Ch.sei; Ch.kai].                      (* 正解 *)
Definition zenbun : list Z := [Ch.zen; Ch.bun].                      (* 全文 *)
Definition youshi : list Z := [Ch.you; Ch.mune].                     (* 要旨 *)
Definition shiken : list Z := [Ch.tamesu; Ch.ken].                   (* 試験 *)
Definition mondaikaisetsu : list Z := [Ch.mon; Ch.dai; Ch.kai; Ch.setsu].  (* 問題解説 *)
Definition bold : list Z := [Ch.star; Ch.star].                      (* ** *)
Definition rule : list Z := [Ch.nl; Ch.hyphen; Ch.hyphen; Ch.hyphen].
Definition item : list Z := [Ch.hyphen; Ch.space].                   (* "- " *)
Definition choice_sep : list Z := [Ch.space; Ch.slash; Ch.space].    (* " / " *)
(** 図を含む問題一覧.md, README.md, 記号問題頻度順.md *)
Definition figures_md : list Z :=
[0x56F3; 0x3092; 0x542B; 0x3080; Ch.mon; Ch.dai; 0x4E00; 0x89A7] ++ asc ".md".
Definition readme_md : list Z := asc "README.md".
Definition frequency_md : list Z :=
[0x8A18; 0x53F7; Ch.mon; Ch.dai; 0x983B; 0x5EA6; 0x9806] ++ asc ".md".
End Txt.

Definition hashes (lo hi : nat) : regex := Rep lo (Some hi) true (Chr Ch.hash).
Definition spaces0 : regex := Star (Cls is_space).

(** The lookahead that ends a section: "(?=\n#{2,4}\s|\n---|\Z)" *)
Definition re_section_end : regex :=
  Ahead ((Chr Ch.nl · hashes 2 4 · Cls is_space) ||| Lit Txt.rule ||| Eos)%re.

(** "#{3,4}\s*問題文[（(]全文[）)]\s*\n+(.+?)(?=\n#{2,4}\s|\n---|\Z)", and the
    same with 要旨 in place of 全文; DOTALL. *)
Definition re_problem_tagged (tag : list Z) : regex :=
  (hashes 3 4 · spaces0 · Lit Txt.mondaibun · Cls is_open · Lit tag · Cls is_close
   · spaces0 · Plus (Chr Ch.nl) · Grp 1 (PlusLazy (Cls any_char)) · re_section_end)%re.

(** "#{3,4}\s*問題文\s*\n+(.+?)(?=\n#{2,4}\s|\n---|\Z)"; DOTALL. *)
Definition re_problem_plain : regex :=
  (hashes 3 4 · spaces0 · Lit Txt.mondaibun
   · spaces0 · Plus (Chr Ch.nl) · Grp 1 (PlusLazy (Cls any_char)) · re_section_end)%re.

(** One list line of the choices:
    "-\s*\*\*[a-e①②③④⑤⑥⑦⑧⑨⑩][.．、:：]?\*\*[^\n]*\n?" *)
Definition re_choice_line : regex :=
  (Chr Ch.hyphen · spaces0 · Lit Txt.bold · Cls is_label · Opt (Cls is_label_sep)
   · Lit Txt.bold · Star (Cls (not_cls is_nl)) · Opt (Chr Ch.nl))%re.

(** "#{3,4}\s*選択肢\s*\n+((?:<choice line>)+)" *)
Definition re_choices : regex :=
  (hashes 3 4 · spaces0 · Lit Txt.sentakushi · spaces0 · Plus (Chr Ch.nl)
   · Grp 1 (Plus re_choice_line))%re.

(** "#{3,4}\s*正解\s*\n+(.+?)(?=\n#{2,4}\s|\n---|\Z)"; DOTALL. *)
Definition re_answer : regex :=
  (hashes 3 4 · spaces0 · Lit Txt.seikai
   · spaces0 · Plus (Chr Ch.nl) · Grp 1 (PlusLazy (Cls any_char)) · re_section_end)%re.

(** The loop over the three problem patterns: the first that is found wins. *)
Fixpoint first_problem (patterns : list regex) (block : list Z) : list Z :=
  match patterns with
  | [] => []
  | pat :: more =>
      match re_search pat block with
      | Some m => replace [Ch.nl] [Ch.space] (strip (group m 1))
      | None => first_problem more block
      end
  end.

(** The loop over the lines of the choices section. *)
Fixpoint choice_items (lines : list (list Z)) : list (list Z) :=
  match lines with
  | [] => []
  | line :: more =>
      let line := strip line in
      if startswith Txt.item line
      then strip (skipn 2 line) :: choice_items more
      else choice_items more
  end.

Definition extract_choices_lines (block : list Z) : list (list Z) :=
  match re_search re_choices block with
  | Some m => choice_items (split_on Ch.nl (strip (group m 1)))
  | None => []
  end.

Definition extract_answer (block : list Z) : list Z :=
  match re_search re_answer block with
  | Some m =>
      let raw := replace Txt.bold [] (strip (group m 1)) in
      re_sub re_spaces (fun _ => [Ch.space]) (strip raw)
  | None => []
  end.

Definition extract_problem_choices_answer (text : list Z) (start end_ : nat)
  : list Z * list Z * list Z :=
  let block := slice text start end_ in
  let problem :=
    first_problem
      [re_problem_tagged Txt.zenbun; re_problem_tagged Txt.youshi; re_problem_plain]
      block in
  let choices_lines := extract_choices_lines block in
  let answer := extract_answer block in
  let choices :=
    match choices_lines with
    | [] => []
    | _ :: _ => join Txt.choice_sep choices_lines
    end in
  (problem, choices, answer).

(** ** The corpus indexer *)

(** "(\d{4})(本|再)試験" *)
Definition re_exam_name : regex :=
  (Grp 1 (Rep 4 (Some 4%nat) true (Cls is_digit))
   · Grp 2 (Chr Ch.hon ||| Chr Ch.sai) · Lit Txt.shiken)%re.

Definition exam_id_from_filename (name : list Z) : list Z :=
  match re_match re_exam_name name with
  | Some m => group m 1 ++ group m 2 ++ [Ch.tamesu]
  | None => []
  end.

(** [re.split(r, s)] for a pattern without groups: the text between the
    matches. *)
Fixpoint split_at (s : list Z) (pos : nat) (ms : list match_obj) : list (list Z) :=
  match ms with
  | [] => [skipn pos s]
  | m :: ms' => slice s pos (m_start m) :: split_at s (m_end m) ms'
  end.
Definition re_split (r : regex) (s : list Z) : list (list Z) :=
  split_at s 0 (finditer r s).

(** "問(\d+)" *)
Definition re_qnum : regex := (Chr Ch.mon · Grp 1 (Plus (Cls is_digit)))%re.

Fixpoint qnums_of_parts (parts : list (list Z)) : list Z :=
  match parts with
  | [] => []
  | part :: more =>
      match re_search re_qnum part with
      | Some m => int_of_digits (group m 1) :: qnums_of_parts more
      | None => qnums_of_parts more
      end
  end.

Definition parse_question_numbers (heading : list Z) : list Z :=
  qnums_of_parts (re_split (Cls is_delim) heading).

(** A corpus entry [(problem, choices, answer)] and a per-exam entry
    [(qn, problem, choices, answer)]. *)
Definition entry : Type := list Z * list Z * list Z.
Definition exam_entry : Type := Z * list Z * list Z * list Z.

Record lookup : Type := Lookup {
  by_qnum : gmap (list Z * Z) (list entry);
  by_exam : gmap (list Z) (list exam_entry)
}.

(** [d[k].append(x)] on a [defaultdict(list)] *)
Definition dd_append `{Countable K} {V} (k : K) (x : V) (d : gmap K (list V))
  : gmap K (list V) :=
  <[k := default [] (d !! k) ++ [x]]> d.

(** The body of [for qn in q_nums]. *)
Definition index_qnum (exam_id : list Z) (e : entry) (lk : lookup) (qn : Z) : lookup :=
  let '(problem, choices, answer) := e in
  if nonempty problem || nonempty choices then
    Lookup (dd_append (exam_id, qn) (problem, choices, answer) (by_qnum lk))
           (dd_append exam_id (qn, problem, choices, answer) (by_exam lk))
  else lk.

Definition index_block (exam_id : list Z) (q_nums : list Z) (e : entry) (lk : lookup)
  : lookup :=
  fold_left (index_qnum exam_id e) q_nums lk.

(** "^#{2,4}\s+(問\d+(?:[・、]問?\d+)* )\s*(?:[（(][^）)]*[）)])?\s*$"; MULTILINE
    (the space after the star only keeps the comment well-formed). *)
Definition re_heading : regex :=
  (Bol true · hashes 2 4 · Plus (Cls is_space)
   · Grp 1 (Chr Ch.mon · Plus (Cls is_digit)
            · Star (Cls is_delim · Opt (Chr Ch.mon) · Plus (Cls is_digit)))
   · spaces0
   · Opt (Cls is_open · Star (Cls (not_cls is_close)) · Cls is_close)
   · spaces0 · Eol true)%re.

(** "\n^#{2,4}\s+問\d" and "\n^#{2,3}\s+"; MULTILINE. *)
Definition re_next_question : regex :=
  (Chr Ch.nl · Bol true · hashes 2 4 · Plus (Cls is_space) · Chr Ch.mon · Cls is_digit)%re.
Definition re_next_heading : regex :=
  (Chr Ch.nl · Bol true · hashes 2 3 · Plus (Cls is_space))%re.

(** The end of the block that follows the heading match [m]. *)
Definition block_end (text : list Z) (m : match_obj) : nat :=
  let tail := skipn (m_end m) text in
  let next_m :=
    match re_search re_next_question tail with
    | Some n => Some n
    | None => re_search re_next_heading tail
    end in
  match next_m with
  | Some n => (m_end m + m_start n)%nat
  | None => length text
  end.

(** The body of the loop over the headings of one document. *)
Definition index_heading (exam_id text : list Z) (lk : lookup) (m : match_obj) : lookup :=
  let q_nums := parse_question_numbers (group m 1) in
  match q_nums with
  | [] => lk
  | _ :: _ =>
      let e := extract_problem_choices_answer text (m_end m) (block_end text m) in
      index_block exam_id q_nums e lk
  end.

(** A Markdown file of the corpus: [md_path.name] and its text.  The walk of
    the directory and the reading of the files are the environment's. *)
Record md_file : Type := MdFile { md_name : list Z; md_text : list Z }.

(** [md_path.stem] of a name that ends in ".md". *)
Definition md_stem (f : md_file) : list Z :=
  if (3 <? length (md_name f))%nat
  then firstn (length (md_name f) - 3) (md_name f) else md_name f.

Definition excluded (name : list Z) : bool :=
  str_eqb name Txt.figures_md || str_eqb name Txt.readme_md
  || str_eqb name Txt.frequency_md.

(** The body of the loop over the files. *)
Definition index_file (lk : lookup) (f : md_file) : lookup :=
  if excluded (md_name f) then lk
  else if negb (contains Txt.mondaikaisetsu (md_name f)) then lk
  else
    let exam_id := exam_id_from_filename (md_stem f) in
    if negb (nonempty exam_id) then lk
    else fold_left (index_heading exam_id (md_text f)) (finditer re_heading (md_text f)) lk.

(** [build_lookup], on the files of [sorted(exam_dir.rglob("*.md"))]. *)
Definition build_lookup (files : list md_file) : lookup :=
  fold_left index_file files (Lookup ∅ ∅).

(** ** The row resolver and the rewrite of the frequency document *)

Definition format_problem_block (problem choices : list Z) : list Z :=
  let lines :=
    (if nonempty problem
     then [Txt.item ++ Txt.bold ++ Txt.mondaibun ++ Txt.bold ++ [Ch.space] ++ problem]
     else [])
    ++ (if nonempty choices
        then [Txt.item ++ Txt.bold ++ Txt.sentakushi ++ Txt.bold ++ [Ch.space] ++ choices]
        else []) in
  match lines with
  | [] => []
  | _ :: _ => join [Ch.nl] lines
  end.

(** [for p, c, a in candidates: if answers_match(row_ans, a): ...; break] *)
Fixpoint first_match (row_ans : list Z) (candidates : list entry)
  : option (list Z * list Z) :=
  match candidates with
  | [] => None
  | (p, c, a) :: more =>
      if answers_match row_ans a then Some (p, c) else first_match row_ans more
  end.

(** [for _qn, p, c, a in by_exam[exam]: ...] *)
Definition drop_qn (x : exam_entry) : entry :=
  let '(_, p, c, a) := x in (p, c, a).

(** The search of [replace_row] for the row [(exam, q_num, row_ans)]: the
    pair [(prob, choices)] as it stands before [format_problem_block]. *)
Definition resolve (lk : lookup) (exam : list Z) (q_num : Z) (row_ans : list Z)
  : list Z * list Z :=
  let candidates := default [] (by_qnum lk !! (exam, q_num)) in
  let '(prob, choices) := default ([], []) (first_match row_ans candidates) in
  match by_exam lk !! exam with
  | Some entries =>
      if negb (nonempty prob)
      then default (prob, choices) (first_match row_ans (map drop_qn entries))
      else (prob, choices)
  | None => (prob, choices)
  end.

Definition replace_row (lk : lookup) (m : match_obj) : list Z :=
  let full_line := m_text m in
  let exam := strip (group m 1) in
  let q_part := strip (group m 2) in
  let row_ans := strip (group m 3) in
  match re_search re_qnum q_part with
  | None => full_line
  | Some q_num_match =>
      let q_num := int_of_digits (group q_num_match 1) in
      let '(prob, choices) := resolve lk exam q_num row_ans in
      let block := format_problem_block prob choices in
      if nonempty block then full_line ++ [Ch.nl] ++ block else full_line
  end.

(** "\n- \*\*問題文\*\* [^\n]+" and "\n- \*\*選択肢\*\* [^\n]+" *)
Definition re_attached (title : list Z) : regex :=
  (Lit ([Ch.nl] ++ Txt.item ++ Txt.bold ++ title ++ Txt.bold ++ [Ch.space])
   · Plus (Cls (not_cls is_nl)))%re.

(** The pass that removes the lines attached by an earlier run. *)
Definition strip_attached (content : list Z) : list Z :=
  let content := re_sub (re_attached Txt.mondaibun) (fun _ => []) content in
  re_sub (re_attached Txt.sentakushi) (fun _ => []) content.

(** "^\|\s*(202\d(?:本|再)試)\s*\|\s*(問\d+)\s*\|\s*([^|]+)\s*\|$"; MULTILINE. *)
Definition re_row : regex :=
  (Bol true · Chr Ch.pipe · spaces0
   · Grp 1 (Lit (asc "202") · Cls is_digit · (Chr Ch.hon ||| Chr Ch.sai) · Chr Ch.tamesu)
   · spaces0 · Chr Ch.pipe · spaces0
   · Grp 2 (Chr Ch.mon · Plus (Cls is_digit))
   · spaces0 · Chr Ch.pipe · spaces0
   · Grp 3 (Plus (Cls (not_cls (Z.eqb Ch.pipe))))
   · spaces0 · Chr Ch.pipe · Eol true)%re.

(** [main], as a function from the corpus index and the text of the
    frequency document to the text written back. *)
Definition rewrite (lk : lookup) (content : list Z) : list Z :=
  re_sub re_row (replace_row lk) (strip_attached content).

Definition main (files : list md_file) (content : list Z) : list Z :=
  rewrite (build_lookup files) content.

(** ** Sample documents

    Small corpus files and rows on which the theorems below run the code. *)
Module Sample.
(** "2022本試験問題解説.md" and the exam key "2022本試" *)
Definition file_name : list Z :=
asc "2022" ++ [Ch.hon] ++ Txt.shiken ++ Txt.mondaikaisetsu ++ asc ".md".
Definition exam : list Z := asc "2022" ++ [Ch.hon; Ch.tamesu].

Definition h2 (title : list Z) : list Z := asc "## " ++ title ++ [Ch.nl].
Definition h3 (title : list Z) : list Z := asc "### " ++ title ++ [Ch.nl].
Definition line (s : String.string) : list Z := asc s ++ [Ch.nl].
(** "問N" *)
Definition q (n : String.string) : list Z := Ch.mon :: asc n.

(** A heading for three questions, of which only the first spells 問:
<<
## 問35・36・37
### 問題文
Which nerve?
## 問38
>> *)
Definition shared_heading : list Z :=
q "35" ++ [Ch.middle_dot] ++ asc "36" ++ [Ch.middle_dot] ++ asc "37".
Definition shared_text : list Z :=
h2 shared_heading ++ h3 Txt.mondaibun ++ line "Which nerve?" ++ h2 (q "38").
Definition shared_file : md_file := MdFile file_name shared_text.

(** Two questions with the same answer; the second has choices but no
problem text:
<<
## 問1
### 問題文
Which bone?
### 選択肢
- **a.** x
### 正解
**a.** radius
## 問2
### 選択肢
- **a.** y
### 正解
**a.** radius
## 問3
>> *)
Definition twin_text : list Z :=
h2 (q "1") ++ h3 Txt.mondaibun ++ line "Which bone?"
++ h3 Txt.sentakushi ++ line "- **a.** x"
++ h3 Txt.seikai ++ line "**a.** radius"
++ h2 (q "2")
++ h3 Txt.sentakushi ++ line "- **a.** y"
++ h3 Txt.seikai ++ line "**a.** radius"
++ h2 (q "3").
Definition twin_file : md_file := MdFile file_name twin_text.

(** A block with an answer and nothing else:
<<
## 問7
### 正解
**b.** ulna
## 問8
>> *)
Definition answer_only_text : list Z :=
h2 (q "7") ++ h3 Txt.seikai ++ line "**b.** ulna" ++ h2 (q "8").
Definition answer_only_file : md_file := MdFile file_name answer_only_text.

(** A choices section on its own:
<<
### 選択肢
- **a.** radius
- **b.** ulna
>> *)
Definition choices_block : list Z :=
h3 Txt.sentakushi ++ line "- **a.** radius" ++ line "- **b.** ulna".

(** A whole block, as it follows a question heading:
<<

### 問題文
Which bone?

### 選択肢
- **a.** radius
- **b.** ulna

### 正解
**a.** radius
>> *)
Definition block_before : list Z :=
[Ch.nl] ++ h3 Txt.mondaibun ++ line "Which bone?" ++ [Ch.nl].
Definition block_after : list Z :=
[Ch.nl] ++ h3 Txt.seikai ++ line "**a.** radius".
Definition whole_block : list Z := block_before ++ choices_block ++ block_after.

(** A block with a looser choices section: the word 選択肢 in the problem
  text, four hashes without a space after them, a blank line after the
  sub-heading, a line without the space after its hyphen, and a last line
  that ends the block:
<<

### 問題文
Pick from 選択肢

####選択肢

- **a.** radius
-**b.** ulna
- **c** carpal
>> *)
Definition loose_before : list Z :=
[Ch.nl] ++ h3 Txt.mondaibun ++ asc "Pick from " ++ Txt.sentakushi ++ [Ch.nl; Ch.nl].
Definition loose_block : list Z :=
loose_before ++ asc "####" ++ Txt.sentakushi ++ [Ch.nl; Ch.nl]
++ line "- **a.** radius" ++ line "-**b.** ulna" ++ asc "- **c** carpal  ".
End Sample.

Module SampleMatch.
Import Sample.
(** The last question of a document, its block opened by a sub-heading:
<<
## 問9
### 問題文
Which nerve?
>> *)
Definition last_question_text : list Z :=
h2 (q "9") ++ h3 Txt.mondaibun ++ line "Which nerve?".
Definition last_question_heading : match_obj :=
MatchObj 0 5 (asc "## " ++ q "9") [(1%nat, q "9")].
(** The match object of the heading "## 問7" of [answer_only_text]. *)
Definition answer_only_heading : match_obj :=
MatchObj 0 5 (asc "## " ++ q "7") [(1%nat, q "7")].
End SampleMatch.

(** ** Specification predicates *)

(** Every record reachable through [by_qnum] is reachable through [by_exam]
    under the same exam key (and with the question number of its key). *)
Definition exact_in_exam (lk : lookup) : Prop :=
  forall exam qn p c a,
    (p, c, a) ∈ default [] (by_qnum lk !! (exam, qn)) ->
    (qn, p, c, a) ∈ default [] (by_exam lk !! exam).

(** No record of the index has both an empty problem text and empty
    choices. *)
Definition no_bare_record (lk : lookup) : Prop :=
  (forall key p c a,
      (p, c, a) ∈ default [] (by_qnum lk !! key) -> p <> [] \/ c <> [])
  /\ (forall exam qn p c a,
         (qn, p, c, a) ∈ default [] (by_exam lk !! exam) -> p <> [] \/ c <> []).

(** ** What a pattern can match

    [matches r lft w s]: at the position with [lft] behind it and [w ++ s]
    ahead, some run of the matcher through [r] consumes exactly [w].  The
    relation leaves the priorities aside; the matcher picks one of these
    runs. *)
Inductive matches : regex -> list Z -> list Z -> list Z -> Prop :=
| M_emp lft s : matches Emp lft [] s
| M_cls p c lft s : p c = true -> matches (Cls p) lft [c] s
| M_cat r1 r2 lft w1 w2 s :
    matches r1 lft w1 (w2 ++ s) -> matches r2 (rev w1 ++ lft) w2 s ->
    matches (Cat r1 r2) lft (w1 ++ w2) s
| M_alt_l r1 r2 lft w s : matches r1 lft w s -> matches (Alt r1 r2) lft w s
| M_alt_r r1 r2 lft w s : matches r2 lft w s -> matches (Alt r1 r2) lft w s
| M_rep_stop hi g r lft s : matches (Rep 0 hi g r) lft [] s
| M_rep_more lo hi g r lft w1 w2 s :
    hi_open hi = true -> ((0 < lo)%nat \/ w1 <> []) ->
    matches r lft w1 (w2 ++ s) ->
    matches (Rep (pred lo) (option_map pred hi) g r) (rev w1 ++ lft) w2 s ->
    matches (Rep lo hi g r) lft (w1 ++ w2) s
| M_grp n r lft w s : matches r lft w s -> matches (Grp n r) lft w s
| M_ahead r lft w s : matches r lft w s -> matches (Ahead r) lft [] (w ++ s)
| M_bol m lft s : at_bol m (MState lft s []) = true -> matches (Bol m) lft [] s
| M_eol m lft s : at_eol m (MState lft s []) = true -> matches (Eol m) lft [] s
| M_eos lft : matches Eos lft [] [].

(** The position [w] further on. *)
Definition moved (w : list Z) (st : mstate) (cs : list (nat * list Z)) : mstate :=
  MState (rev w ++ behind st) (skipn (length w) (rest st)) cs.

Fixpoint take_while (p : Z -> bool) (s : list Z) : list Z :=
  match s with
  | c :: s' => if p c then c :: take_while p s' else []
  | [] => []
  end.

(** A greedy loop over one character class that has the run [w] before it
    tries the longest stretch first and gives back one character at a time,
    down to [lo] characters. *)
Fixpoint give_back (k : cont) (st : mstate) (w : list Z) (lo : nat) : option mstate :=
  match w with
  | [] => match lo with O => k st | S _ => None end
  | _ :: w' =>
      match lo with
      | O => or_else (give_back k (advance st) w' 0) (k st)
      | S lo' => give_back k (advance st) w' lo'
      end
  end.

(** The end of a run of [p] for a loop bounded by [hi]: the text stops, or
    the next character is not in the class, or the bound is reached. *)
Definition run_ends (p : Z -> bool) (hi : option nat) (w t : list Z) : Prop :=
  t = [] \/ (exists c t', t = c :: t' /\ p c = false) \/ hi = Some (length w).

Definition within (hi : option nat) (n : nat) : Prop :=
  match hi with Some h => (n <= h)%nat | None => True end.

(** An opening bracket with a closing bracket somewhere after it: what
    the parenthetical pattern can find. *)
Fixpoint has_span (s : list Z) : bool :=
  match s with
  | [] => false
  | c :: t => (is_open c && existsb is_close t) || has_span t
  end.

Definition starts_with_label (s : list Z) : bool :=
  match s with c :: _ => is_label c | [] => false end.

Definition not_space (c : Z) : bool := negb (is_space c).

(** ** Lines of the frequency document *)

Definition not_nl : Z -> bool := not_cls is_nl.

(** "- **問題文** " or "- **選択肢** ": what [format_problem_block] puts before
    the text it attaches. *)
Definition marker (title : list Z) : list Z :=
  Txt.item ++ Txt.bold ++ title ++ Txt.bold ++ [Ch.space].

(** A line that consists of the marker and at least one more character. *)
Definition attached_line (title : list Z) (line : list Z) : bool :=
  startswith (marker title) line && (length (marker title) <? length line)%nat.

Definition attached (line : list Z) : bool :=
  attached_line Txt.mondaibun line || attached_line Txt.sentakushi line.

(** The lines that a pass over the attached lines keeps: the first line in
    any case, and of the others those that [drop] does not hold of. *)
Definition keep_lines (drop : list Z -> bool) (lines : list (list Z)) : list (list Z) :=
  match lines with
  | [] => []
  | first :: more => first :: List.filter (fun l => negb (drop l)) more
  end.

(** [l0 ++ "\n" ++ l1 ++ "\n" ++ ...], the text with the lines [l0 :: ls]. *)
Definition unlines (l0 : list Z) (ls : list (list Z)) : list Z :=
  l0 ++ concat (map (cons Ch.nl) ls).

(** [inserted y z]: [z] is [y] with attached lines put in after some of its
    lines. *)
Inductive inserted : list Z -> list Z -> Prop :=
| ins_nil : inserted [] []
| ins_copy c y z : inserted y z -> inserted (c :: y) (c :: z)
| ins_line b y z :
    inserted y z -> at_eol true (MState [] y []) = true ->
    forallb not_nl b = true -> attached b = true ->
    inserted y (Ch.nl :: b ++ z).

(** The same on lists of lines. *)
Inductive lines_inserted : list (list Z) -> list (list Z) -> Prop :=
| li_nil : lines_inserted [] []
| li_copy l ls ls' : lines_inserted ls ls' -> lines_inserted (l :: ls) (l :: ls')
| li_line b ls ls' :
    lines_inserted ls ls' -> attached b = true -> lines_inserted ls (b :: ls').

(** The problem texts and choices of the index hold no line break. *)
Definition one_line (e : entry) : Prop :=
  forallb not_nl e.1.1 = true /\ forallb not_nl e.1.2 = true.

Definition lookup_one_line (lk : lookup) : Prop :=
  (forall key e, e ∈ default [] (by_qnum lk !! key) -> one_line e)
  /\ (forall exam x, x ∈ default [] (by_exam lk !! exam) -> one_line (drop_qn x)).

(** A document that begins with a line of the attached form:
<<
- **問題文** written by hand
| 2022本試 | 問1 | radius |
>> *)
Definition first_line_document : list Z :=
  marker Txt.mondaibun ++ asc "written by hand" ++ [Ch.nl]
  ++ asc "| " ++ Sample.exam ++ asc " | " ++ Sample.q "1" ++ asc " | radius |".

(** A text that is empty or begins a new line. *)
Definition line_start (s : list Z) : Prop := s = [] \/ exists s', s = Ch.nl :: s'.

(** What [replace_row] adds after a row: nothing, or one or two attached
    lines, each after a line break. *)
Inductive extra_lines : list Z -> Prop :=
| extra_none : extra_lines []
| extra_line b e :
    forallb not_nl b = true -> attached b = true -> extra_lines e ->
    extra_lines (Ch.nl :: b ++ e).

(** ** Choice lines

    A list line of a choices section as the line pattern reads it,
    "- **a.** text": the white space after the hyphen, the label glyph, the
    separator after it (none or one), the text after the bold label and the
    line break that ends the line (absent where the block ends). *)
Record choice : Type := Choice {
  c_gap : list Z;
  c_label : Z;
  c_sep : list Z;
  c_text : list Z;
  c_end : list Z
}.

Definition choice_ok (it : choice) : Prop :=
  forallb is_space (c_gap it) = true
  /\ is_label (c_label it) = true
  /\ (c_sep it = [] \/ exists s, c_sep it = [s] /\ is_label_sep s = true)
  /\ forallb not_nl (c_text it) = true.

(** "**a.** text": the line without the hyphen and the white space after
    it. *)
Definition choice_body (it : choice) : list Z :=
  Txt.bold ++ [c_label it] ++ c_sep it ++ Txt.bold ++ c_text it.

Definition choice_line (it : choice) : list Z :=
  [Ch.hyphen] ++ c_gap it ++ choice_body it ++ c_end it.

(** The list lines of a section before the text [t]: each line ends with a
    line break, but for a last line at the very end of the block. *)
Fixpoint lines_ok (items : list choice) (t : list Z) : Prop :=
  match items with
  | [] => True
  | it :: more =>
      choice_ok it
      /\ (c_end it = [Ch.nl] \/ (c_end it = [] /\ more = [] /\ t = []))
      /\ lines_ok more t
  end.

(** The lines that the loop of the extractor keeps: those that begin with
    "- ", the hyphen and one space (U+0020), on one line with the label. *)
Definition kept (it : choice) : bool :=
  match c_gap it with
  | c :: g => (c =? Ch.space) && forallb not_nl g
  | [] => false
  end.

(** The sub-heading of the choices: three or four hashes, white space, the
    word 選択肢 and white space that ends with a line break. *)
Definition choices_heading (n : nat) (ws1 ws2 : list Z) : list Z :=
  repeat Ch.hash n ++ ws1 ++ Txt.sentakushi ++ ws2 ++ [Ch.nl].

(** A choices section: the sub-heading and the list lines. *)
Definition choices_section (n : nat) (ws1 ws2 : list Z) (items : list choice) : list Z :=
  choices_heading n ws1 ws2 ++ concat (map choice_line items).

(** A text that does not go on with another list line: the line pattern
    fits no start of it. *)
Definition no_item_next (s : list Z) : Prop :=
  forall lft w t, s = w ++ t -> ~ matches re_choice_line lft w t.

(** The pattern [r] fits at no place inside [pre], in the text [pre ++ s]. *)
Definition first_fit (r : regex) (pre s : list Z) : Prop :=
  forall pre1 c pre2 w t,
    pre = pre1 ++ c :: pre2 -> (c :: pre2) ++ s = w ++ t ->
    ~ matches r (rev pre1) w t.

(** A text that begins as the choices pattern does: three or four hashes,
    white space and the word 選択肢. *)
Definition heads_choices (x : list Z) : bool :=
  let x1 := drop_while (Z.eqb Ch.hash) x in
  let n := (length x - length x1)%nat in
  (3 <=? n)%nat && (n <=? 4)%nat && startswith Txt.sentakushi (drop_while is_space x1).

(** No place inside [pre] begins so, in the text [pre ++ s]. *)
Definition no_heading_in (pre s : list Z) : bool :=
  forallb (fun i => negb (heads_choices (skipn i (pre ++ s)))) (seq 0 (length pre)).

(** [after w t st st']: [st'] is the position of [st] moved over [w], with
    [t] ahead of it and the groups of [st]. *)
Definition after (w t : list Z) (st st' : mstate) : Prop :=
  rest st' = t /\ caps st' = caps st /\ behind st' = rev w ++ behind st.

(** A run of the matcher that succeeds went through the pattern in one of
    the ways that [matches] allows, and ended in its continuation. *)
Definition sound_at (r : regex) (m : cont -> cont) : Prop :=
  forall k st res,
    m k st = Some res ->
    exists w s cs,
      rest st = w ++ s /\ matches r (behind st) w s
      /\ k (MState (rev w ++ behind st) s cs) = Some res.

(** The parts of [s] between the characters of the class [p]: what
    [re.split] gives for a pattern of one character class. *)
Fixpoint split_where (p : Z -> bool) (s : list Z) : list (list Z) :=
  match s with
  | [] => [[]]
  | c :: s' =>
      if p c then [] :: split_where p s'
      else match split_where p s' with
           | l :: ls => (c :: l) :: ls
           | [] => [[c]]
           end
  end.

(** [x] put before the first part. *)
Definition glue (x : list Z) (parts : list (list Z)) : list (list Z) :=
  match parts with
  | l :: ls => (x ++ l) :: ls
  | [] => [x]
  end.

(** [lk'] holds the lists of [lk] with further entries after them. *)
Definition extends (lk lk' : lookup) : Prop :=
  (forall key, default [] (by_qnum lk !! key) `prefix_of` default [] (by_qnum lk' !! key))
  /\ (forall exam, default [] (by_exam lk !! exam) `prefix_of` default [] (by_exam lk' !! exam)).


(** Every record reachable through [by_exam] is reachable through
    [by_qnum], under the question number it carries. *)
Definition exam_in_exact (lk : lookup) : Prop :=
  forall exam qn p c a,
    (qn, p, c, a) ∈ default [] (by_exam lk !! exam) ->
    (p, c, a) ∈ default [] (by_qnum lk !! (exam, qn)).

(** * Properties *)

(** ** Strings *)

Lemma str_eqb_eq a b : str_eqb a b = true <-> a = b.
Proof.
  revert b; induction a as [|x a IH]; intros [|y b]; simpl; split; try congruence.
  - intros [Hx Hr]%andb_true_iff. apply Z.eqb_eq in Hx. apply IH in Hr. congruence.
  - intros [= -> ->]. rewrite Z.eqb_refl. simpl. by apply IH.
Qed.

Lemma str_eqb_sym a b : str_eqb a b = str_eqb b a.
Proof.
  destruct (str_eqb a b) eqn:E1, (str_eqb b a) eqn:E2; try done.
  - apply str_eqb_eq in E1. subst. assert (str_eqb b b = true) by by apply str_eqb_eq. congruence.
  - apply str_eqb_eq in E2. subst. assert (str_eqb a a = true) by by apply str_eqb_eq. congruence.
Qed.

Lemma startswith_app p s : startswith p s = true <-> exists t, s = p ++ t.
Proof.
  revert s; induction p as [|x p IH]; intros s; simpl.
  - split; eauto.
  - destruct s as [|y s]; [split; [done | intros [t Ht]; done]|].
    rewrite andb_true_iff, Z.eqb_eq, IH. split.
    + intros [-> [t ->]]. eauto.
    + intros [t [= -> ->]]. eauto.
Qed.

Lemma contains_app p s : contains p s = true <-> exists u t, s = u ++ p ++ t.
Proof.
  induction s as [|y s IH]; simpl.
  - rewrite orb_false_r, startswith_app. split.
    + intros [t Ht]. exists [], t. done.
    + intros (u & t & Ht). destruct u; simpl in *; [eauto | done].
  - rewrite orb_true_iff, startswith_app, IH. split.
    + intros [[t Ht] | (u & t & ->)]; [exists [], t; done | exists (y :: u), t; done].
    + intros ([|z u] & t & Ht); simpl in *; [left; eauto | right].
      injection Ht as -> ->. eauto.
Qed.

Lemma contains_length p s : contains p s = true -> (length p <= length s)%nat.
Proof.
  intros (u & t & ->)%contains_app. rewrite !length_app. lia.
Qed.

Lemma contains_same_length p s :
  contains p s = true -> length p = length s -> p = s.
Proof.
  intros (u & t & ->)%contains_app. rewrite !length_app. intros Hl.
  destruct u, t; simpl in *; try lia. by rewrite app_nil_r.
Qed.

Lemma contains_antisym a b : contains a b = true -> contains b a = true -> a = b.
Proof.
  intros H1 H2. apply contains_same_length; [done|].
  apply contains_length in H1, H2. lia.
Qed.

Lemma sets_meet_sym xs ys : sets_meet xs ys = sets_meet ys xs.
Proof.
  apply eq_true_iff_eq. unfold sets_meet. rewrite !existsb_exists. split.
  - intros (x & Hx & (y & Hy & E)%existsb_exists). exists y. split; [done|].
    apply existsb_exists. exists x. by rewrite str_eqb_sym.
  - intros (x & Hx & (y & Hy & E)%existsb_exists). exists y. split; [done|].
    apply existsb_exists. exists x. by rewrite str_eqb_sym.
Qed.

Lemma at_least_half_spec r c :
  at_least_half r c = true <-> (Z.of_nat (length c) <= 2 * Z.of_nat (length r)).
Proof.
  unfold at_least_half. rewrite Qle_bool_iff. unfold Qle. simpl. lia.
Qed.

(** ** The fuzzy matcher *)

(** C8: the fuzzy matcher is symmetric: for all inputs [a] and [b],
    [answers_match a b = answers_match b a].  The empty-normalization case,
    the equality rule, the proportional substring rule and the token rule
    are all covered, since the statement is about the whole function. *)
Theorem answers_match_symmetric a b : answers_match a b = answers_match b a.
Proof.
  unfold answers_match.
  set (r := normalize_answer_for_match a). set (c := normalize_answer_for_match b).
  clearbody r c.
  destruct (nonempty r), (nonempty c); cbn [negb orb]; try done.
  rewrite (str_eqb_sym c r).
  destruct (str_eqb r c) eqn:E; [done|].
  destruct (contains r c) eqn:Hrc, (contains c r) eqn:Hcr; try done.
  - pose proof (contains_antisym _ _ Hrc Hcr) as ->.
    assert (str_eqb c c = true) by by apply str_eqb_eq. congruence.
  - apply sets_meet_sym.
Qed.

Lemma str_eqb_neq a b : a <> b -> str_eqb a b = false.
Proof.
  intros Hne. destruct (str_eqb a b) eqn:E; [|done]. by apply str_eqb_eq in E.
Qed.

Lemma nonempty_length s : nonempty s = true <-> (0 < length s)%nat.
Proof. destruct s; simpl; split; (done || lia). Qed.

(** The substring rule, in terms of the two lengths. *)
Lemma substring_rule_lengths a b :
  let r := normalize_answer_for_match a in
  let c := normalize_answer_for_match b in
  r <> c -> contains r c = true \/ contains c r = true ->
  (answers_match a b = true <->
   (50 * Nat.max (length r) (length c) <= 100 * Nat.min (length r) (length c))%nat).
Proof.
  intros r c Hne Hsub. unfold answers_match. fold r c.
  rewrite (str_eqb_neq _ _ Hne).
  assert (Hlen : contains r c = true -> (length r < length c)%nat).
  { intros H. pose proof (contains_length _ _ H).
    destruct (decide (length r = length c)) as [E|]; [|lia].
    by apply contains_same_length in H. }
  assert (Hlen' : contains c r = true -> (length c < length r)%nat).
  { intros H. pose proof (contains_length _ _ H).
    destruct (decide (length c = length r)) as [E|]; [|lia].
    apply contains_same_length in H; [|done]. by subst. }
  clearbody r c.
  destruct (nonempty r) eqn:Er, (nonempty c) eqn:Ec; cbn [negb orb].
  - destruct (contains r c) eqn:Hrc.
    + rewrite at_least_half_spec. specialize (Hlen eq_refl). lia.
    + destruct Hsub as [|Hcr]; [done|]. specialize (Hlen' Hcr).
      rewrite Hcr, at_least_half_spec. lia.
  - apply nonempty_length in Er. destruct c; [|done]. split; [done|]. simpl. lia.
  - apply nonempty_length in Ec. destruct r; [|done]. split; [done|]. simpl. lia.
  - destruct r, c; done.
Qed.

(** C4: when the two normalized strings differ and one is a substring of the
    other, [answers_match] holds exactly when the shorter one has at least
    50% of the length of the longer one; in particular a string of 10
    characters inside one of 19 matches, and inside one of 21 it does not. *)
Theorem substring_rule a b :
  let r := normalize_answer_for_match a in
  let c := normalize_answer_for_match b in
  let shorter := Nat.min (length r) (length c) in
  let longer := Nat.max (length r) (length c) in
  r <> c -> contains r c = true \/ contains c r = true ->
  (answers_match a b = true <-> (50 * longer <= 100 * shorter)%nat)
  /\ (shorter = 10%nat -> longer = 19%nat -> answers_match a b = true)
  /\ (shorter = 10%nat -> longer = 21%nat -> answers_match a b = false).
Proof.
  intros r c shorter longer Hne Hsub.
  pose proof (substring_rule_lengths a b Hne Hsub) as H. fold r c shorter longer in H.
  split; [done|]. split.
  - intros Hs Hl. apply H. lia.
  - intros Hs Hl. destruct (answers_match a b); [|done].
    assert (50 * longer <= 100 * shorter)%nat by by apply H. lia.
Qed.

(** "xyzuvwxyzu" inside "xyzuvwxyzu123456789": 10 characters of 19. *)
Lemma substring_rule_witness :
  answers_match (asc "xyzuvwxyzu") (asc "xyzuvwxyzu123456789") = true.
Proof.
  apply (substring_rule (asc "xyzuvwxyzu") (asc "xyzuvwxyzu123456789")).
  - vm_compute. discriminate.
  - left. vm_compute. reflexivity.
  - vm_compute. reflexivity.
  - vm_compute. reflexivity.
Defined.

Example substring_rule_21 :
  answers_match (asc "xyzuvwxyzu") (asc "xyzuvwxyzu12345678901") = false.
Proof. vm_compute. reflexivity. Qed.

(** ** The answer normalizer *)

(** C2, as stated, fails: "a. cAMP" normalizes to "cAMP", which normalizes
    to "AMP" (the leading "c" is read as a label the second time). *)
Lemma normalize_not_idempotent :
  normalize_answer_for_match (normalize_answer_for_match (asc "a. cAMP"))
  <> normalize_answer_for_match (asc "a. cAMP").
Proof. vm_compute. discriminate. Qed.

(** Nested brackets are another way: "((x))" gives "(x)", then "x". *)
Example normalize_nested_brackets :
  normalize_answer_for_match (asc "((x))") = asc "(x)"
  /\ normalize_answer_for_match (asc "(x)") = asc "x".
Proof. split; vm_compute; reflexivity. Qed.

(** ** The corpus indexer *)

Lemma fold_left_invariant {A B} (P : A -> Prop) (f : A -> B -> A) l a :
  P a -> (forall a x, P a -> P (f a x)) -> P (fold_left f l a).
Proof. revert a. induction l as [|x l IH]; simpl; intros a Ha Hf; auto. Qed.

Lemma dd_append_lookup `{Countable K} {V} (k k' : K) (x : V) (d : gmap K (list V)) :
  default [] (dd_append k x d !! k')
  = if decide (k = k') then default [] (d !! k) ++ [x] else default [] (d !! k').
Proof.
  unfold dd_append. destruct (decide (k = k')) as [->|Hne].
  - by rewrite lookup_insert_eq.
  - by rewrite lookup_insert_ne.
Qed.

Lemma nonempty_true s : nonempty s = true <-> s <> [].
Proof. destruct s; simpl; split; congruence. Qed.

Lemma index_qnum_bare exam_id answer lk qn :
  index_qnum exam_id ([], [], answer) lk qn = lk.
Proof. reflexivity. Qed.

Lemma index_block_bare exam_id q_nums answer lk :
  index_block exam_id q_nums ([], [], answer) lk = lk.
Proof.
  unfold index_block. induction q_nums as [|qn q_nums IH]; [done|].
  cbn [fold_left]. by rewrite index_qnum_bare.
Qed.

Lemma index_qnum_exact_in_exam exam_id e lk qn :
  exact_in_exam lk -> exact_in_exam (index_qnum exam_id e lk qn).
Proof.
  intros Hinv. destruct e as [[p c] a]. unfold index_qnum.
  destruct (nonempty p || nonempty c); [|done].
  intros exam qn' p' c' a'. simpl. rewrite !dd_append_lookup.
  destruct (decide ((exam_id, qn) = (exam, qn'))) as [[= -> ->]|Hne].
  - rewrite decide_True by done. rewrite !elem_of_app, !list_elem_of_singleton.
    intros [Hin | [= -> -> ->]]; [left; by apply Hinv | by right].
  - intros Hin%Hinv. destruct (decide (exam_id = exam)) as [->|]; [|done].
    apply elem_of_app. by left.
Qed.

Lemma index_qnum_no_bare exam_id e lk qn :
  no_bare_record lk -> no_bare_record (index_qnum exam_id e lk qn).
Proof.
  intros [Hq He]. destruct e as [[p c] a]. unfold index_qnum.
  destruct (nonempty p || nonempty c) eqn:Hpc; [|done].
  assert (Hne : p <> [] \/ c <> []).
  { apply orb_true_iff in Hpc as [?%nonempty_true | ?%nonempty_true]; auto. }
  split; simpl.
  - intros key p' c' a'. rewrite dd_append_lookup.
    destruct (decide ((exam_id, qn) = key)); [|by apply Hq].
    rewrite elem_of_app, list_elem_of_singleton.
    intros [Hin | [= -> -> ->]]; [by eapply Hq | done].
  - intros exam qn' p' c' a'. rewrite dd_append_lookup.
    destruct (decide (exam_id = exam)); [|by apply He].
    rewrite elem_of_app, list_elem_of_singleton.
    intros [Hin | [= -> -> -> ->]]; [by eapply He | done].
Qed.

Section Preserved.
(** A property [P] of the index that each [index_qnum] step keeps, for the
    entries that the extractor can produce (property [Q]), is kept by the
    whole scan. *)
Variable P : lookup -> Prop.
Variable Q : entry -> Prop.
Hypothesis extracted : forall text a b, Q (extract_problem_choices_answer text a b).
Hypothesis step : forall exam_id e lk qn, Q e -> P lk -> P (index_qnum exam_id e lk qn).

Lemma index_block_preserves exam_id q_nums e lk :
  Q e -> P lk -> P (index_block exam_id q_nums e lk).
Proof. intros He H. unfold index_block. apply fold_left_invariant; auto. Qed.

Lemma index_heading_preserves exam_id text lk m :
  P lk -> P (index_heading exam_id text lk m).
Proof.
  intros H. unfold index_heading.
  destruct (parse_question_numbers (group m 1)); [done|].
  by apply index_block_preserves.
Qed.

Lemma index_file_preserves lk f : P lk -> P (index_file lk f).
Proof.
  intros H. unfold index_file.
  destruct (excluded _); [done|]. destruct (negb (contains _ _)); [done|].
  destruct (negb (nonempty _)); [done|].
  apply fold_left_invariant; [done|]. intros. by apply index_heading_preserves.
Qed.

Lemma build_lookup_preserves files : P (Lookup ∅ ∅) -> P (build_lookup files).
Proof.
  intros H. unfold build_lookup. apply fold_left_invariant; [done|].
  intros. by apply index_file_preserves.
Qed.
End Preserved.

Lemma build_lookup_exact_in_exam files : exact_in_exam (build_lookup files).
Proof.
  apply (build_lookup_preserves exact_in_exam (fun _ => True)); [done| |].
  - intros. by apply index_qnum_exact_in_exam.
  - intros exam qn p c a. simpl. rewrite lookup_empty. simpl. by intros ?%elem_of_nil.
Qed.

Lemma build_lookup_no_bare files : no_bare_record (build_lookup files).
Proof.
  apply (build_lookup_preserves no_bare_record (fun _ => True)); [done| |].
  - intros. by apply index_qnum_no_bare.
  - split; intros *; simpl; rewrite lookup_empty; simpl; by intros ?%elem_of_nil.
Qed.

(** C9: after the indexer has run, every record reachable through
    [by_qnum[(exam, qn)]] is reachable through [by_exam[exam]], under the
    same exam key (there with its question number [qn]). *)
Theorem exact_key_records_in_exam files exam qn p c a :
  (p, c, a) ∈ default [] (by_qnum (build_lookup files) !! (exam, qn)) ->
  (qn, p, c, a) ∈ default [] (by_exam (build_lookup files) !! exam).
Proof. apply build_lookup_exact_in_exam. Qed.

Lemma exact_key_records_in_exam_witness :
  (2, [], asc "**a.** y", asc "a. radius")
  ∈ default [] (by_exam (build_lookup [Sample.twin_file]) !! Sample.exam).
Proof.
  apply (exact_key_records_in_exam [Sample.twin_file] Sample.exam 2
           [] (asc "**a.** y") (asc "a. radius")).
  vm_compute. apply list_elem_of_here.
Defined.

(** C6: a block whose extraction has an empty problem text and empty
    choices is discarded, whatever its answer: the step of the indexer for
    its heading leaves both lookups as they were, and no record without
    problem text and choices is ever in [by_qnum] or [by_exam]. *)
Theorem bare_block_discarded files exam_id text lk m answer :
  extract_problem_choices_answer text (m_end m) (block_end text m) = ([], [], answer) ->
  index_heading exam_id text lk m = lk
  /\ no_bare_record (build_lookup files).
Proof.
  intros Hx. split; [|apply build_lookup_no_bare].
  unfold index_heading. rewrite Hx.
  destruct (parse_question_numbers (group m 1)); [done|].
  apply index_block_bare.
Qed.

Example answer_only_headings :
  head (finditer re_heading Sample.answer_only_text) = Some SampleMatch.answer_only_heading.
Proof. vm_compute. reflexivity. Qed.

Lemma bare_block_discarded_witness :
  index_heading Sample.exam Sample.answer_only_text (Lookup ∅ ∅)
    SampleMatch.answer_only_heading = Lookup ∅ ∅
  /\ no_bare_record (build_lookup [Sample.answer_only_file]).
Proof.
  apply (bare_block_discarded [Sample.answer_only_file] Sample.exam
           Sample.answer_only_text (Lookup ∅ ∅) SampleMatch.answer_only_heading
           (asc "b. ulna")).
  vm_compute. reflexivity.
Defined.

(** What a heading step does when the record is kept: one entry for each
    question number that was parsed, in both lookups. *)
Lemma index_block_by_exam exam_id q_nums p c a lk :
  nonempty p || nonempty c = true ->
  default [] (by_exam (index_block exam_id q_nums (p, c, a) lk) !! exam_id)
  = default [] (by_exam lk !! exam_id) ++ map (fun qn => (qn, p, c, a)) q_nums.
Proof.
  intros Hpc. unfold index_block. revert lk.
  induction q_nums as [|qn q_nums IH]; intros lk; cbn [fold_left map].
  - by rewrite app_nil_r.
  - rewrite IH. unfold index_qnum. rewrite Hpc. cbn [by_exam].
    rewrite dd_append_lookup, decide_True by done. by rewrite <- app_assoc.
Qed.

Lemma index_block_by_qnum_mono exam_id q_nums e lk key x :
  x ∈ default [] (by_qnum lk !! key) ->
  x ∈ default [] (by_qnum (index_block exam_id q_nums e lk) !! key).
Proof.
  unfold index_block. revert lk.
  induction q_nums as [|qn q_nums IH]; intros lk Hin; cbn [fold_left]; [done|].
  apply IH. destruct e as [[p c] a]. unfold index_qnum.
  destruct (nonempty p || nonempty c); [|done]. cbn [by_qnum].
  rewrite dd_append_lookup. destruct (decide _) as [<-|]; [|done].
  apply elem_of_app. by left.
Qed.

Lemma index_block_by_qnum exam_id q_nums p c a lk qn :
  nonempty p || nonempty c = true -> qn ∈ q_nums ->
  (p, c, a) ∈ default [] (by_qnum (index_block exam_id q_nums (p, c, a) lk) !! (exam_id, qn)).
Proof.
  intros Hpc. unfold index_block. revert lk.
  induction q_nums as [|qn' q_nums IH]; intros lk Hin; cbn [fold_left].
  - by apply elem_of_nil in Hin.
  - apply elem_of_cons in Hin as [->|Hin]; [|by apply IH].
    apply (index_block_by_qnum_mono exam_id q_nums (p, c, a)).
    unfold index_qnum. rewrite Hpc. cbn [by_qnum].
    rewrite dd_append_lookup, decide_True by done.
    apply elem_of_app. right. by apply list_elem_of_singleton.
Qed.

(** A heading that spells 問 before each number is read in full. *)
Example parse_two_numbers :
  parse_question_numbers (Sample.q "36" ++ [Ch.middle_dot] ++ Sample.q "38") = [36; 38].
Proof. vm_compute. reflexivity. Qed.

(** C7 fails on the code: the heading "## 問35・36・37" is found by the heading
    pattern with all three numbers in its group, but [parse_question_numbers]
    reads only 35, and the record of the block is indexed under 35 alone. *)
Theorem shared_heading_indexed_once :
  let lk := build_lookup [Sample.shared_file] in
  map (fun m => group m 1) (finditer re_heading Sample.shared_text)
  = [Sample.shared_heading; Sample.q "38"]
  /\ parse_question_numbers Sample.shared_heading = [35]
  /\ by_qnum lk !! (Sample.exam, 35) = Some [(asc "Which nerve?", [], [])]
  /\ by_qnum lk !! (Sample.exam, 36) = None
  /\ by_qnum lk !! (Sample.exam, 37) = None
  /\ by_exam lk !! Sample.exam = Some [(35, asc "Which nerve?", [], [])].
Proof. vm_compute. repeat split; reflexivity. Qed.

(** ** The row resolver *)

Lemma first_match_some row_ans candidates p c :
  first_match row_ans candidates = Some (p, c) <->
  exists before a after,
    candidates = before ++ (p, c, a) :: after
    /\ answers_match row_ans a = true
    /\ Forall (fun e => answers_match row_ans e.2 = false) before.
Proof.
  induction candidates as [|[[p' c'] a'] more IH]; cbn [first_match].
  - split; [done|]. intros (before & a & after & E & _). by destruct before.
  - destruct (answers_match row_ans a') eqn:Ha.
    + split.
      * intros [= -> ->]. exists [], a', more. by repeat split.
      * intros ([|e before] & a & after & E & Hm & Hb).
        -- by simplify_eq/=.
        -- simplify_eq/=. apply Forall_cons in Hb as [Hb _]. simpl in Hb. congruence.
    + rewrite IH. split.
      * intros (before & a & after & -> & Hm & Hb).
        exists ((p', c', a') :: before), a, after. repeat split; [done|].
        by apply Forall_cons.
      * intros ([|e before] & a & after & E & Hm & Hb).
        -- simplify_eq/=. congruence.
        -- simplify_eq/=. apply Forall_cons in Hb as [_ Hb].
           by exists before, a, after.
Qed.

Lemma first_match_none row_ans candidates :
  first_match row_ans candidates = None <->
  Forall (fun e => answers_match row_ans e.2 = false) candidates.
Proof.
  induction candidates as [|[[p' c'] a'] more IH]; cbn [first_match].
  - split; [by constructor | done].
  - destruct (answers_match row_ans a') eqn:Ha.
    + split; [done|]. intros [H _]%Forall_cons. simpl in H. congruence.
    + rewrite IH. split; [by constructor | by intros [_ H]%Forall_cons].
Qed.

(** What [resolve] does: the first exact-key candidate that matches wins
    when its problem text is not empty; the per-exam list is scanned when no
    exact-key candidate matches. *)
Lemma resolve_exact lk exam q_num row_ans p c :
  first_match row_ans (default [] (by_qnum lk !! (exam, q_num))) = Some (p, c) ->
  p <> [] ->
  resolve lk exam q_num row_ans = (p, c).
Proof.
  intros Hfm Hp. unfold resolve. rewrite Hfm. simpl.
  destruct p; [done|]. simpl. by destruct (by_exam lk !! exam).
Qed.

Lemma resolve_fallback lk exam q_num row_ans :
  first_match row_ans (default [] (by_qnum lk !! (exam, q_num))) = None ->
  resolve lk exam q_num row_ans
  = default ([], []) (first_match row_ans (map drop_qn (default [] (by_exam lk !! exam)))).
Proof.
  intros Hfm. unfold resolve. rewrite Hfm. simpl.
  by destruct (by_exam lk !! exam).
Qed.

(** C1 fails on the code: for the row (2022本試, 問2, "radius") the exact-key
    list of 問2 holds a candidate that matches, with choices and no problem
    text; [resolve] takes the empty problem text for "nothing found", scans
    the per-exam list all the same and returns the record of 問1. *)
Theorem resolve_overrides_exact_match :
  let lk := build_lookup [Sample.twin_file] in
  first_match (asc "radius") (default [] (by_qnum lk !! (Sample.exam, 2)))
  = Some ([], asc "**a.** y")
  /\ resolve lk Sample.exam 2 (asc "radius") = (asc "Which bone?", asc "**a.** x").
Proof. vm_compute. split; reflexivity. Qed.

(** ** The matcher *)

Lemma or_else_some a b res :
  or_else a b = Some res -> a = Some res \/ (a = None /\ b = Some res).
Proof. destruct a; simpl; intros H; auto. Qed.

Lemma mstate_eta st : MState (behind st) (rest st) (caps st) = st.
Proof. by destruct st. Qed.

Lemma sound_here r (k : cont) st res :
  matches r (behind st) [] (rest st) -> k st = Some res ->
  exists w s cs,
    rest st = w ++ s /\ matches r (behind st) w s
    /\ k (MState (rev w ++ behind st) s cs) = Some res.
Proof.
  intros Hm Hk. exists [], (rest st), (caps st). cbn [rev app].
  by rewrite mstate_eta.
Qed.

Lemma rep_loop_sound r g :
  sound_at r (rmatch r) ->
  forall fuel lo hi, sound_at (Rep lo hi g r) (fun k => rep_loop (rmatch r) g fuel lo hi k).
Proof.
  intros Hbody fuel. induction fuel as [|fuel IH]; intros lo hi k st res; cbn [rep_loop].
  - destruct lo; [|done]. intros Hk. apply sound_here; [constructor | done].
  - set (again := if hi_open hi then _ else None).
    assert (Hagain : again = Some res ->
      exists w s cs, rest st = w ++ s /\ matches (Rep lo hi g r) (behind st) w s
        /\ k (MState (rev w ++ behind st) s cs) = Some res).
    { subst again. destruct (hi_open hi) eqn:Hhi; [|done].
      intros (w1 & s1 & cs1 & Hrest & Hm1 & Hk1)%Hbody. cbv beta in Hk1.
      destruct (_ || _) eqn:Hcond in Hk1; [|done].
      apply IH in Hk1 as (w2 & s2 & cs2 & Hrest2 & Hm2 & Hk2).
      cbn [rest behind] in *. subst s1.
      exists (w1 ++ w2), s2, cs2. rewrite rev_app_distr, <- !app_assoc.
      split; [done|]. split; [|done].
      apply M_rep_more; [done| |done|done].
      apply orb_true_iff in Hcond as [Hlo|Hprog]; [left; by apply Nat.ltb_lt in Hlo|right].
      unfold progress in Hprog. cbn [rest] in Hprog. apply Nat.ltb_lt in Hprog.
      intros ->. rewrite Hrest in Hprog. simpl in Hprog. lia. }
    assert (Hstop : lo = 0%nat -> k st = Some res ->
      exists w s cs, rest st = w ++ s /\ matches (Rep lo hi g r) (behind st) w s
        /\ k (MState (rev w ++ behind st) s cs) = Some res).
    { intros -> Hk. apply sound_here; [constructor | done]. }
    destruct lo; [|done].
    destruct g; intros [H|[_ H]]%or_else_some; auto.
Qed.

Lemma rmatch_sound r : sound_at r (rmatch r).
Proof.
  induction r as [|p|r1 IH1 r2 IH2|r1 IH1 r2 IH2|lo hi g r IH|n r IH|r IH|m|m|];
    intros k st res; cbn [rmatch].
  - intros Hk. apply sound_here; [constructor | done].
  - destruct (rest st) as [|c t] eqn:Hrest; [done|].
    destruct (p c) eqn:Hp; [|done]. unfold advance. rewrite Hrest. intros Hk.
    exists [c], t, (caps st). split; [done|]. split; [by constructor | done].
  - intros (w1 & s1 & cs1 & Hrest & Hm1 & Hk1)%IH1.
    apply IH2 in Hk1 as (w2 & s2 & cs2 & Hrest2 & Hm2 & Hk2).
    cbn [rest behind] in *. subst s1.
    exists (w1 ++ w2), s2, cs2. rewrite rev_app_distr, <- !app_assoc.
    split; [done|]. split; [|done]. by constructor.
  - intros [H|[_ H]]%or_else_some.
    + apply IH1 in H as (w & s & cs & ? & ? & ?). exists w, s, cs.
      split; [done|]. split; [|done]. by apply M_alt_l.
    + apply IH2 in H as (w & s & cs & ? & ? & ?). exists w, s, cs.
      split; [done|]. split; [|done]. by apply M_alt_r.
  - by apply rep_loop_sound.
  - intros (w & s & cs & Hrest & Hm & Hk)%IH.
    exists w, s, ((n, firstn (length (rest st) - length s) (rest st)) :: cs).
    split; [done|]. split; [by constructor|done].
  - destruct (rmatch r Some st) as [st'|] eqn:Hr; [|done].
    apply IH in Hr as (w & s & cs & Hrest & Hm & _). intros Hk.
    apply sound_here; [|done]. rewrite Hrest. by constructor.
  - destruct (at_bol m st) eqn:Hb; [|done]. intros Hk.
    apply sound_here; [|done]. constructor. by destruct st.
  - destruct (at_eol m st) eqn:Hb; [|done]. intros Hk.
    apply sound_here; [|done]. constructor. by destruct st.
  - destruct (at_eos st) eqn:Hb; [|done]. intros Hk.
    apply sound_here; [|done].
    unfold at_eos in Hb. destruct (rest st); [constructor | done].
Qed.

(** Unfolding equations of the matcher. *)
Lemma rmatch_cat r1 r2 k st : rmatch (Cat r1 r2) k st = rmatch r1 (rmatch r2 k) st.
Proof. reflexivity. Qed.

Lemma rmatch_cls_cons p k st c t :
  rest st = c :: t ->
  rmatch (Cls p) k st = if p c then k (advance st) else None.
Proof. intros H. cbn [rmatch]. by rewrite H. Qed.

Lemma rmatch_cls_nil p k st : rest st = [] -> rmatch (Cls p) k st = None.
Proof. intros H. cbn [rmatch]. by rewrite H. Qed.

Lemma rmatch_rep lo hi g r k st :
  rmatch (Rep lo hi g r) k st
  = rep_loop (rmatch r) g (lo + length (rest st)) lo hi k st.
Proof. reflexivity. Qed.

Lemma rmatch_grp n r k st :
  rmatch (Grp n r) k st
  = rmatch r (fun st' =>
      k (set_cap n (firstn (length (rest st) - length (rest st')) (rest st)) st')) st.
Proof. reflexivity. Qed.

Lemma moved_nil st : moved [] st (caps st) = st.
Proof. unfold moved. cbn [rev app length skipn]. apply mstate_eta. Qed.

Lemma moved_cons c w st t cs :
  rest st = c :: t -> moved (c :: w) st cs = moved w (advance st) cs.
Proof.
  intros H. unfold moved, advance. rewrite H. cbn [behind rest rev length skipn].
  by rewrite <- app_assoc.
Qed.

Lemma moved_rest w t st cs : rest st = w ++ t -> rest (moved w st cs) = t.
Proof. intros H. unfold moved. cbn [rest]. rewrite H. by rewrite drop_app_length. Qed.

Lemma advance_rest st c t : rest st = c :: t -> rest (advance st) = t.
Proof. intros H. unfold advance. by rewrite H. Qed.

Lemma advance_caps st : caps (advance st) = caps st.
Proof. unfold advance. by destruct (rest st). Qed.

(** A literal is matched character by character. *)
Lemma rmatch_lit l k st :
  rmatch (Lit l) k st
  = if startswith l (rest st) then k (moved l st (caps st)) else None.
Proof.
  revert st. induction l as [|c l IH]; intros st; cbn [Lit startswith].
  - cbn [rmatch]. by rewrite moved_nil.
  - rewrite rmatch_cat. unfold Chr. destruct (rest st) as [|x t] eqn:Hrest.
    + by rewrite rmatch_cls_nil.
    + rewrite (rmatch_cls_cons _ _ _ _ _ Hrest). rewrite (Z.eqb_sym c x).
      destruct (x =? c) eqn:Hx; [|done]. apply Z.eqb_eq in Hx as ->.
      rewrite IH, (advance_rest _ _ _ Hrest), advance_caps. cbn [andb].
      by rewrite (moved_cons _ _ _ _ _ Hrest).
Qed.

(** A greedy loop over a character class, on a run [w] of the class. *)
Lemma rep_cls_give_back p k w :
  forall st t fuel lo hi,
    rest st = w ++ t -> forallb p w = true -> run_ends p hi w t ->
    within hi (length w) -> (length w <= fuel)%nat ->
    rep_loop (rmatch (Cls p)) true fuel lo hi k st = give_back k st w lo.
Proof.
  induction w as [|c w IH]; intros st t fuel lo hi Hrest Hall Hend Hin Hfuel.
  - cbn [give_back]. destruct fuel as [|fuel]; [done|]. cbn [rep_loop].
    assert (Hnone : (if hi_open hi
                     then rmatch (Cls p)
                            (fun st' => if (0 <? lo)%nat || progress st st'
                                        then rep_loop (rmatch (Cls p)) true fuel
                                               (pred lo) (option_map pred hi) k st'
                                        else None) st
                     else None) = None).
    { destruct Hend as [->|[(x & t' & -> & Hx)| ->]].
      - destruct (hi_open hi); [|done]. by apply rmatch_cls_nil.
      - destruct (hi_open hi); [|done].
        rewrite (rmatch_cls_cons _ _ _ x t') by done. by rewrite Hx.
      - done. }
    rewrite Hnone. by destruct lo.
  - cbn [forallb] in Hall. apply andb_true_iff in Hall as [Hc Hall].
    destruct fuel as [|fuel]; [simpl in Hfuel; lia|]. cbn [rep_loop give_back].
    assert (Hopen : hi_open hi = true).
    { destruct hi as [[|h]|]; try done. simpl in Hin. lia. }
    rewrite Hopen. rewrite (rmatch_cls_cons _ _ _ c (w ++ t)) by done. rewrite Hc.
    assert (Hprog : progress st (advance st) = true).
    { unfold progress. rewrite (advance_rest _ c (w ++ t)) by done. rewrite Hrest.
      apply Nat.ltb_lt. simpl. lia. }
    rewrite Hprog, orb_true_r.
    rewrite (IH (advance st) t fuel (pred lo) (option_map pred hi)).
    + by destruct lo.
    + by apply (advance_rest _ c).
    + done.
    + destruct Hend as [?|[?| ->]]; [by left|by right; left|]. right; right. done.
    + destruct hi as [h|]; [|done]. simpl in *. lia.
    + simpl in Hfuel. lia.
Qed.

(** When the continuation accepts the whole run, the loop takes it. *)
Lemma give_back_all k w : forall st t lo res,
  rest st = w ++ t -> (lo <= length w)%nat ->
  k (moved w st (caps st)) = Some res ->
  give_back k st w lo = Some res.
Proof.
  induction w as [|c w IH]; intros st t lo res Hrest Hlo Hk; cbn [give_back].
  - rewrite moved_nil in Hk. destruct lo; [done|simpl in Hlo; lia].
  - rewrite (moved_cons _ _ _ (w ++ t)) in Hk by done.
    rewrite <- advance_caps in Hk.
    destruct lo as [|lo].
    + rewrite (IH (advance st) t 0%nat res); [done| |lia|done].
      by apply (advance_rest _ c).
    + apply (IH (advance st) t); [by apply (advance_rest _ c)|simpl in Hlo; lia|done].
Qed.


(** ** Searching and substituting *)

Lemma accept_false st0 st1 : accept false st0 st1 = Some st1.
Proof. reflexivity. Qed.

Lemma scan_here r adv lft s st1 :
  rmatch r (accept adv (MState lft s [])) (MState lft s []) = Some st1 ->
  scan r adv lft s = Some (mk_match (MState lft s []) st1, st1).
Proof. intros H. destruct s; cbn [scan]; by rewrite H. Qed.

Lemma scan_next r adv lft c s :
  rmatch r (accept adv (MState lft (c :: s) [])) (MState lft (c :: s) []) = None ->
  scan r adv lft (c :: s) = scan r false (c :: lft) s.
Proof. intros H. cbn [scan]. by rewrite H. Qed.

Lemma scan_end r adv lft :
  rmatch r (accept adv (MState lft [] [])) (MState lft [] []) = None ->
  scan r adv lft [] = None.
Proof. intros H. cbn [scan]. by rewrite H. Qed.

(** A match found from [lft] starts at or after [lft]. *)
Lemma scan_start r s : forall adv lft m st1,
  scan r adv lft s = Some (m, st1) -> (length lft <= m_start m)%nat.
Proof.
  induction s as [|c s IH]; intros adv lft m st1; cbn [scan].
  - destruct (rmatch _ _ _); [|done]. intros [= <- _]. simpl. lia.
  - destruct (rmatch _ _ _).
    + intros [= <- _]. simpl. lia.
    + intros H%IH. simpl in H. lia.
Qed.

(** Without a match the text is left as it is. *)
Lemma sub_loop_no_match fuel r repl adv lft s :
  scan r adv lft s = None -> sub_loop fuel r repl adv lft s = s.
Proof. intros H. destruct fuel; cbn [sub_loop]; [done|]. by rewrite H. Qed.

(** A character at which no match starts is copied. *)
Lemma sub_loop_skip fuel r repl adv lft c s :
  rmatch r (accept adv (MState lft (c :: s) [])) (MState lft (c :: s) []) = None ->
  sub_loop (S fuel) r repl adv lft (c :: s)
  = c :: sub_loop (S fuel) r repl false (c :: lft) s.
Proof.
  intros H. cbn [sub_loop]. rewrite (scan_next _ _ _ _ _ H).
  destruct (scan r false (c :: lft) s) as [[m st1]|] eqn:Hscan; [|done].
  pose proof (scan_start _ _ _ _ _ _ Hscan) as Hge. cbn [length] in Hge.
  replace (m_start m - length lft)%nat with (S (m_start m - S (length lft))) by lia.
  reflexivity.
Qed.

(** A match at the current position is replaced. *)
Lemma sub_loop_hit fuel r repl adv lft s st1 :
  rmatch r (accept adv (MState lft s [])) (MState lft s []) = Some st1 ->
  sub_loop (S fuel) r repl adv lft s
  = repl (mk_match (MState lft s []) st1)
    ++ sub_loop fuel r repl (length (behind st1) =? length lft)%nat
         (behind st1) (rest st1).
Proof.
  intros H. cbn [sub_loop]. rewrite (scan_here _ _ _ _ _ H).
  cbn [mk_match m_start m_end behind]. by rewrite Nat.sub_diag.
Qed.

(** Where the pattern cannot match at all, the search finds nothing. *)
Lemma scan_no_match r s : forall adv lft,
  (forall pre w t, s = pre ++ w ++ t -> ~ matches r (rev pre ++ lft) w t) ->
  scan r adv lft s = None.
Proof.
  induction s as [|c s IH]; intros adv lft Hno.
  - apply scan_end. destruct (rmatch _ _ _) as [res|] eqn:Hr; [|done].
    apply rmatch_sound in Hr as (w & t & cs & Hrest & Hm & _). cbn [rest behind] in *.
    destruct (Hno [] w t); done.
  - rewrite scan_next.
    + apply IH. intros pre w t -> Hm. apply (Hno (c :: pre) w t); [done|].
      cbn [rev]. by rewrite <- app_assoc.
    + destruct (rmatch _ _ _) as [res|] eqn:Hr; [|done].
      apply rmatch_sound in Hr as (w & t & cs & Hrest & Hm & _). cbn [rest behind] in *.
      destruct (Hno [] w t); done.
Qed.

Lemma re_sub_no_match r repl s :
  (forall pre w t, s = pre ++ w ++ t -> ~ matches r (rev pre) w t) ->
  re_sub r repl s = s.
Proof.
  intros Hno. unfold re_sub. apply sub_loop_no_match, scan_no_match.
  intros pre w t E. rewrite app_nil_r. by apply Hno.
Qed.

(** Inversion of [matches], one shape of pattern at a time. *)
Lemma matches_cls_inv p lft w s :
  matches (Cls p) lft w s -> exists c, w = [c] /\ p c = true.
Proof. inversion 1; subst. eauto. Qed.

Lemma matches_cat_inv r1 r2 lft w s :
  matches (Cat r1 r2) lft w s ->
  exists w1 w2, w = w1 ++ w2 /\ matches r1 lft w1 (w2 ++ s)
                /\ matches r2 (rev w1 ++ lft) w2 s.
Proof. inversion 1; subst. eauto. Qed.

Lemma matches_grp_inv n r lft w s : matches (Grp n r) lft w s -> matches r lft w s.
Proof. by inversion 1. Qed.

Lemma matches_bol_inv m lft w s :
  matches (Bol m) lft w s -> w = [] /\ at_bol m (MState lft s []) = true.
Proof. by inversion 1. Qed.

Lemma matches_eol_inv m lft w s :
  matches (Eol m) lft w s -> w = [] /\ at_eol m (MState lft s []) = true.
Proof. by inversion 1. Qed.

(** A loop over a class consumes characters of the class only. *)
Lemma matches_rep_cls p g lo hi lft w s :
  matches (Rep lo hi g (Cls p)) lft w s -> forallb p w = true.
Proof.
  intros H. remember (Rep lo hi g (Cls p)) as r eqn:Er.
  revert lo hi Er. induction H; intros lo' hi' Er; try discriminate; [done|].
  injection Er as -> -> -> ->. rewrite forallb_app.
  rewrite (IHmatches2 _ _ eq_refl), andb_true_r.
  apply matches_cls_inv in H1 as (c & -> & Hc). cbn [forallb]. by rewrite Hc.
Qed.

Lemma matches_rep_min p g lo hi lft w s :
  matches (Rep lo hi g (Cls p)) lft w s -> (lo <= length w)%nat.
Proof.
  intros H. remember (Rep lo hi g (Cls p)) as r eqn:Er.
  revert lo hi Er. induction H; intros lo' hi' Er; try discriminate.
  - injection Er as <- _ _ _. simpl. lia.
  - injection Er as -> -> -> ->. specialize (IHmatches2 _ _ eq_refl).
    apply matches_cls_inv in H1 as (c & -> & Hc). rewrite length_app. simpl. lia.
Qed.

(** ** The answer normalizer, step by step *)

Lemma take_drop_while p s : take_while p s ++ drop_while p s = s.
Proof.
  induction s as [|c s IH]; cbn [take_while drop_while]; [done|].
  destruct (p c); [|done]. cbn [app]. by rewrite IH.
Qed.

Lemma take_while_all p s : forallb p (take_while p s) = true.
Proof.
  induction s as [|c s IH]; cbn [take_while]; [done|].
  destruct (p c) eqn:Hc; [|done]. cbn [forallb]. by rewrite Hc, IH.
Qed.

Lemma drop_while_ends p hi s : run_ends p hi (take_while p s) (drop_while p s).
Proof.
  induction s as [|c s IH]; cbn [take_while drop_while]; [by left|].
  destruct (p c) eqn:Hc.
  - destruct IH as [?|[?|?]]; [by left|by right; left|].
    destruct (drop_while p s) as [|x t] eqn:E; [by left|right; left].
    exists x, t. split; [done|]. clear -E. induction s as [|y s IH]; [done|].
    cbn [drop_while] in E. destruct (p y) eqn:Hy; [auto|]. by injection E as <- <-.
  - right; left. by exists c, s.
Qed.

Lemma drop_while_length p s : (length (drop_while p s) <= length s)%nat.
Proof.
  induction s as [|c s IH]; cbn [drop_while]; [done|].
  destruct (p c); simpl; lia.
Qed.

Lemma filter_all_out (p q : Z -> bool) w :
  forallb p w = true -> (forall c, p c = true -> q c = false) -> List.filter q w = [].
Proof.
  intros Hall Hpq. induction w as [|c w IH]; [done|].
  cbn [forallb] in Hall. apply andb_true_iff in Hall as [Hc Hall].
  cbn [List.filter]. rewrite (Hpq c Hc). by apply IH.
Qed.

Lemma filter_all_in (q : Z -> bool) w : forallb q w = true -> List.filter q w = w.
Proof.
  induction w as [|c w IH]; [done|]. cbn [forallb List.filter].
  intros [Hc Hall]%andb_true_iff. rewrite Hc. by rewrite IH.
Qed.

Lemma forallb_filter (q : Z -> bool) w : forallb q (List.filter q w) = true.
Proof.
  induction w as [|c w IH]; [done|]. cbn [List.filter].
  destruct (q c) eqn:Hc; [|done]. cbn [forallb]. by rewrite Hc.
Qed.

Lemma accept_moved adv st0 w t cs :
  rest st0 = w ++ t -> w <> [] ->
  accept adv st0 (moved w st0 cs) = Some (moved w st0 cs).
Proof.
  intros Hrest Hw. unfold accept. rewrite (moved_rest w t) by done.
  replace (length t =? length (rest st0))%nat with false; [by rewrite andb_false_r|].
  symmetry. apply Nat.eqb_neq. rewrite Hrest, length_app.
  destruct w; [done|]. simpl. lia.
Qed.

(** The pattern "\s+" at a position: it takes the run of white space that
    starts there, if there is one. *)
Lemma spaces_at adv lft s :
  rmatch re_spaces (accept adv (MState lft s [])) (MState lft s [])
  = match take_while is_space s with
    | [] => None
    | w => Some (moved w (MState lft s []) [])
    end.
Proof.
  unfold re_spaces, Plus. rewrite rmatch_rep.
  rewrite (rep_cls_give_back is_space _ (take_while is_space s) _ (drop_while is_space s)).
  - destruct (take_while is_space s) as [|c w] eqn:Hw; [done|].
    assert (Hrest : rest (MState lft s []) = (c :: w) ++ drop_while is_space s).
    { cbn [rest]. by rewrite <- Hw, take_drop_while. }
    apply (give_back_all _ _ _ (drop_while is_space s)); [done|simpl; lia|].
    by apply (accept_moved _ _ _ (drop_while is_space s)).
  - cbn [rest]. by rewrite take_drop_while.
  - apply take_while_all.
  - apply drop_while_ends.
  - done.
  - cbn [rest]. rewrite <- (take_drop_while is_space s) at 2. rewrite length_app. lia.
Qed.

Lemma sub_spaces_loop n : forall s fuel lft,
  (length s <= n)%nat -> (length s < fuel)%nat ->
  sub_loop fuel re_spaces (fun _ => []) false lft s = List.filter not_space s.
Proof.
  induction n as [|n IH]; intros s fuel lft Hn Hfuel.
  - destruct s; [|simpl in Hn; lia]. apply sub_loop_no_match, scan_end.
    by rewrite spaces_at.
  - destruct s as [|c s].
    { apply sub_loop_no_match, scan_end. by rewrite spaces_at. }
    destruct fuel as [|fuel]; [lia|].
    destruct (is_space c) eqn:Hc.
    + pose proof (spaces_at false lft (c :: s)) as Hat.
      cbn [take_while] in Hat. rewrite Hc in Hat.
      set (w := c :: take_while is_space s) in *.
      assert (Hrest : rest (MState lft (c :: s) []) = w ++ drop_while is_space s).
      { cbn [rest]. subst w. cbn [app]. by rewrite take_drop_while. }
      rewrite (sub_loop_hit _ _ _ _ _ _ _ Hat). cbn [app].
      rewrite (moved_rest w (drop_while is_space s)) by done.
      unfold moved at 1 2. cbn [behind].
      replace (length (rev w ++ lft) =? length lft)%nat with false.
      2:{ symmetry. apply Nat.eqb_neq. rewrite length_app, length_rev. subst w. simpl. lia. }
      rewrite IH.
      * cbn [rest] in Hrest. rewrite Hrest, List.filter_app.
        rewrite (filter_all_out is_space not_space w); [done| |].
        -- subst w. cbn [forallb]. by rewrite Hc, take_while_all.
        -- intros x Hx. unfold not_space. by rewrite Hx.
      * pose proof (drop_while_length is_space s). simpl in Hn. lia.
      * pose proof (drop_while_length is_space s). simpl in Hfuel. lia.
    + rewrite sub_loop_skip.
      * rewrite IH; [|simpl in Hn; lia|simpl in Hfuel; lia].
        cbn [List.filter]. unfold not_space at 2. by rewrite Hc.
      * rewrite spaces_at. cbn [take_while]. by rewrite Hc.
Qed.

(** Step (3) of the normalizer removes the white space, all of it. *)
Lemma sub_spaces_filter s :
  re_sub re_spaces (fun _ => []) s = List.filter not_space s.
Proof. unfold re_sub. apply (sub_spaces_loop (length s)); lia. Qed.

Lemma normalize_no_space x :
  forallb not_space (normalize_answer_for_match x) = true.
Proof. unfold normalize_answer_for_match. rewrite sub_spaces_filter. apply forallb_filter. Qed.

Lemma drop_while_none p s :
  forallb (fun c => negb (p c)) s = true -> drop_while p s = s.
Proof.
  destruct s as [|c s]; [done|]. cbn [forallb drop_while].
  intros [Hc _]%andb_true_iff. by destruct (p c).
Qed.

Lemma forallb_rev (q : Z -> bool) s : forallb q (rev s) = forallb q s.
Proof.
  induction s as [|c s IH]; [done|]. cbn [rev forallb].
  rewrite forallb_app, IH. cbn [forallb]. rewrite andb_true_r. apply andb_comm.
Qed.

Lemma strip_no_space y : forallb not_space y = true -> strip y = y.
Proof.
  intros H. unfold strip, lstrip, rstrip.
  rewrite (drop_while_none is_space y) by done.
  rewrite (drop_while_none is_space (rev y)); [apply rev_involutive|].
  by rewrite forallb_rev.
Qed.

(** The label pattern finds nothing in a text without white space that does
    not begin with a label. *)
Lemma label_prefix_no_match y pre w t :
  forallb not_space y = true -> starts_with_label y = false ->
  y = pre ++ w ++ t -> ~ matches re_label_prefix (rev pre) w t.
Proof.
  intros Hns Hlab -> Hm. unfold re_label_prefix in Hm.
  apply matches_cat_inv in Hm as (w1234 & w5 & -> & Hm & _).
  apply matches_cat_inv in Hm as (w123 & w4 & -> & Hm & _).
  apply matches_cat_inv in Hm as (w12 & w3 & -> & Hm & Hlabel).
  apply matches_cat_inv in Hm as (w1 & w2 & -> & Hbol & Hsp).
  apply matches_bol_inv in Hbol as [-> Hbol].
  apply matches_rep_cls in Hsp.
  apply matches_cls_inv in Hlabel as (c & -> & Hc).
  unfold at_bol in Hbol. cbn [behind] in Hbol.
  destruct (rev pre) eqn:Hpre; [|done].
  apply (f_equal (@rev Z)) in Hpre. rewrite rev_involutive in Hpre. subst pre.
  cbn [app rev] in *.
  destruct w2 as [|x w2].
  - cbn [app] in *. unfold starts_with_label in Hlab. congruence.
  - cbn [app forallb] in *. apply andb_true_iff in Hsp as [Hx _].
    apply andb_true_iff in Hns as [Hnx _]. unfold not_space in Hnx.
    rewrite Hx in Hnx. done.
Qed.

Lemma has_span_here o inner cl t :
  is_open o = true -> is_close cl = true -> has_span (o :: inner ++ cl :: t) = true.
Proof.
  intros Ho Hc. cbn [has_span]. rewrite Ho. cbn [andb].
  rewrite existsb_app. cbn [existsb]. rewrite Hc. by rewrite orb_true_r.
Qed.

Lemma has_span_app pre s : has_span s = true -> has_span (pre ++ s) = true.
Proof.
  intros H. induction pre as [|c pre IH]; [done|]. cbn [app has_span].
  rewrite IH. apply orb_true_r.
Qed.

(** The parenthetical pattern needs an opening bracket with a closing one
    after it. *)
Lemma parenthetical_no_match y pre w t :
  has_span y = false -> y = pre ++ w ++ t -> ~ matches re_parenthetical (rev pre) w t.
Proof.
  intros Hspan -> Hm. unfold re_parenthetical in Hm.
  apply matches_cat_inv in Hm as (w12 & w3 & -> & Hm & Hclose).
  apply matches_cat_inv in Hm as (w1 & w2 & -> & Hopen & _).
  apply matches_cls_inv in Hopen as (o & -> & Ho).
  apply matches_cls_inv in Hclose as (cl & -> & Hcl).
  rewrite has_span_app in Hspan; [done|].
  rewrite <- !app_assoc. cbn [app]. by apply has_span_here.
Qed.

(** C2, amended: normalizing a second time changes nothing whenever the
    first result does not begin with a label glyph and holds no opening
    bracket with a closing bracket after it. *)
Theorem normalize_idempotent_unless_relabelled x :
  let y := normalize_answer_for_match x in
  starts_with_label y = false -> has_span y = false ->
  normalize_answer_for_match y = y.
Proof.
  intros y Hlab Hspan.
  assert (Hns : forallb not_space y = true) by apply normalize_no_space.
  clearbody y. unfold normalize_answer_for_match.
  rewrite (re_sub_no_match re_label_prefix).
  2:{ intros pre w t E. by apply (label_prefix_no_match y). }
  rewrite (strip_no_space y Hns).
  rewrite (re_sub_no_match re_parenthetical).
  2:{ intros pre w t E. by apply (parenthetical_no_match y). }
  rewrite sub_spaces_filter. by apply filter_all_in.
Qed.

(** "④（左大脳半球の下前頭回）" (here with Latin text) is stable after one pass. *)
Lemma normalize_idempotent_unless_relabelled_witness :
  normalize_answer_for_match (normalize_answer_for_match (asc "d. (left) gyrus"))
  = normalize_answer_for_match (asc "d. (left) gyrus").
Proof.
  apply (normalize_idempotent_unless_relabelled (asc "d. (left) gyrus")).
  - vm_compute. reflexivity.
  - vm_compute. reflexivity.
Defined.

(** ** The pass over the attached lines *)

Arguments marker : simpl never.

Lemma re_attached_eq title :
  re_attached title = Cat (Lit (Ch.nl :: marker title)) (Plus (Cls not_nl)).
Proof. reflexivity. Qed.

Lemma moved_moved l w st t cs cs' :
  rest st = l ++ t -> moved w (moved l st cs) cs' = moved (l ++ w) st cs'.
Proof.
  intros Hrest. unfold moved. cbn [behind rest]. f_equal.
  - by rewrite rev_app_distr, <- app_assoc.
  - rewrite drop_drop, length_app. f_equal; lia.
Qed.

Lemma nonempty_match_flag (w lft : list Z) :
  w <> [] -> (length (rev w ++ lft) =? length lft)%nat = false.
Proof.
  intros Hw. apply Nat.eqb_neq. rewrite length_app, length_rev.
  destruct w; [done|]. simpl. lia.
Qed.

(** The pattern at a position: the line break, the marker and the rest of
    the line, which must not be empty. *)
Lemma attached_at title adv lft s :
  rmatch (re_attached title) (accept adv (MState lft s [])) (MState lft s [])
  = if startswith (Ch.nl :: marker title) s
    then match take_while not_nl (skipn (length (Ch.nl :: marker title)) s) with
         | [] => None
         | w => Some (moved ((Ch.nl :: marker title) ++ w) (MState lft s []) [])
         end
    else None.
Proof.
  rewrite re_attached_eq, rmatch_cat, rmatch_lit. cbn [rest caps].
  destruct (startswith (Ch.nl :: marker title) s) eqn:Hpre; [|done].
  apply startswith_app in Hpre as [t ->].
  set (l := Ch.nl :: marker title). set (st0 := MState lft (l ++ t) []).
  rewrite drop_app_length.
  unfold Plus. rewrite rmatch_rep.
  assert (Hrest : rest (moved l st0 []) = take_while not_nl t ++ drop_while not_nl t).
  { rewrite (moved_rest l t) by done. by rewrite take_drop_while. }
  rewrite (rep_cls_give_back not_nl _ (take_while not_nl t) _ (drop_while not_nl t));
    [|done|apply take_while_all|apply drop_while_ends|done|].
  2:{ rewrite Hrest, length_app. lia. }
  destruct (take_while not_nl t) as [|c w] eqn:Hw; [done|].
  apply (give_back_all _ _ _ (drop_while not_nl t)); [done|simpl; lia|].
  cbn [caps moved]. rewrite (moved_moved l (c :: w) st0 t) by done.
  apply (accept_moved _ _ _ (drop_while not_nl t)).
  - subst st0. cbn [rest]. rewrite <- app_assoc. f_equal.
    by rewrite <- Hw, take_drop_while.
  - by destruct l.
Qed.

Lemma attached_at_other title adv lft c s :
  c <> Ch.nl ->
  rmatch (re_attached title) (accept adv (MState lft (c :: s) [])) (MState lft (c :: s) [])
  = None.
Proof.
  intros Hc. rewrite attached_at. cbn [startswith].
  destruct (Ch.nl =? c) eqn:E; [|done]. apply Z.eqb_eq in E. congruence.
Qed.

Lemma not_nl_spec c : not_nl c = true <-> c <> Ch.nl.
Proof.
  unfold not_nl, not_cls, is_nl. rewrite negb_true_iff. apply Z.eqb_neq.
Qed.

(** The search passes over a stretch without line breaks. *)
Lemma sub_attached_skip title repl fuel l : forall lft rest_,
  forallb not_nl l = true ->
  sub_loop (S fuel) (re_attached title) repl false lft (l ++ rest_)
  = l ++ sub_loop (S fuel) (re_attached title) repl false (rev l ++ lft) rest_.
Proof.
  induction l as [|c l IH]; intros lft rest_ Hl; [done|].
  cbn [forallb] in Hl. apply andb_true_iff in Hl as [Hc Hl].
  cbn [app]. rewrite sub_loop_skip.
  - rewrite IH by done. cbn [rev]. by rewrite <- app_assoc.
  - apply attached_at_other. by apply not_nl_spec.
Qed.


Lemma take_while_line l rest_ :
  forallb not_nl l = true -> line_start rest_ ->
  take_while not_nl (l ++ rest_) = l.
Proof.
  intros Hl Hr. induction l as [|c l IH]; cbn [app take_while].
  - destruct Hr as [->|[s' ->]]; [done|]. cbn [take_while].
    by replace (not_nl Ch.nl) with false by reflexivity.
  - cbn [forallb] in Hl. apply andb_true_iff in Hl as [Hc Hl].
    rewrite Hc. by rewrite IH.
Qed.

Lemma attached_line_split title l :
  attached_line title l = true <->
  exists body, l = marker title ++ body /\ body <> [].
Proof.
  unfold attached_line. rewrite andb_true_iff, startswith_app, Nat.ltb_lt. split.
  - intros [[body ->] Hlen]. exists body. split; [done|].
    intros ->. rewrite app_nil_r in Hlen. lia.
  - intros (body & -> & Hne). split; [by exists body|].
    rewrite length_app. destruct body; [done|]. simpl. lia.
Qed.

Lemma marker_one_line_mondaibun : forallb not_nl (marker Txt.mondaibun) = true.
Proof. reflexivity. Qed.

Lemma marker_one_line_sentakushi : forallb not_nl (marker Txt.sentakushi) = true.
Proof. reflexivity. Qed.

Lemma forallb_not_nl_no_nl l u t : forallb not_nl l = true -> l <> u ++ Ch.nl :: t.
Proof.
  intros Hl ->. rewrite forallb_app in Hl. apply andb_true_iff in Hl as [_ Hl].
  cbn [forallb] in Hl. by replace (not_nl Ch.nl) with false in Hl by reflexivity.
Qed.

Section OneTitle.
Variable title : list Z.
Hypothesis title_one_line : forallb not_nl (marker title) = true.

(** At a line break: the line that follows is removed when it is an
    attached line and copied otherwise. *)
Lemma sub_attached_line fuel l lft rest_ :
  forallb not_nl l = true -> line_start rest_ ->
  sub_loop (S (S fuel)) (re_attached title) (fun _ => []) false lft (Ch.nl :: l ++ rest_)
  = if attached_line title l
    then sub_loop (S fuel) (re_attached title) (fun _ => []) false
           (rev (Ch.nl :: l) ++ lft) rest_
    else Ch.nl :: l
         ++ sub_loop (S (S fuel)) (re_attached title) (fun _ => []) false
              (rev (Ch.nl :: l) ++ lft) rest_.
Proof.
  intros Hl Hr.
  pose proof (attached_at title false lft (Ch.nl :: l ++ rest_)) as Hat.
  destruct (attached_line title l) eqn:Hatt.
  - apply attached_line_split in Hatt as (body & -> & Hbody).
    assert (Hb : forallb not_nl body = true).
    { rewrite forallb_app in Hl. by apply andb_true_iff in Hl as [_ ?]. }
    replace (startswith (Ch.nl :: marker title) (Ch.nl :: (marker title ++ body) ++ rest_))
      with true in Hat.
    2:{ symmetry. apply startswith_app. exists (body ++ rest_).
        cbn [app]. by rewrite <- app_assoc. }
    replace (skipn (length (Ch.nl :: marker title)) (Ch.nl :: (marker title ++ body) ++ rest_))
      with (body ++ rest_) in Hat.
    2:{ cbn [length skipn]. by rewrite <- app_assoc, drop_app_length. }
    rewrite (take_while_line body rest_) in Hat by done.
    destruct body as [|b body]; [done|].
    rewrite (sub_loop_hit _ _ _ _ _ _ _ Hat). cbn [app].
    set (w := (Ch.nl :: marker title) ++ b :: body).
    assert (Hrest : rest (MState lft (Ch.nl :: (marker title ++ b :: body) ++ rest_) [])
                    = w ++ rest_).
    { cbn [rest]. subst w. cbn [app]. by rewrite <- !app_assoc. }
    rewrite (moved_rest w rest_) by done.
    unfold moved at 1 2. cbn [behind]. by rewrite nonempty_match_flag.
  - assert (Hnone : rmatch (re_attached title)
                      (accept false (MState lft (Ch.nl :: l ++ rest_) []))
                      (MState lft (Ch.nl :: l ++ rest_) []) = None).
    { rewrite Hat. destruct (startswith _ _) eqn:Hpre; [|done].
      apply startswith_app in Hpre as [t Ht'].
      assert (Ht : l ++ rest_ = marker title ++ t).
      { change (Ch.nl :: l ++ rest_ = Ch.nl :: (marker title ++ t)) in Ht'. congruence. }
      clear Ht'. rewrite Ht. cbn [length skipn]. rewrite drop_app_length.
      destruct (take_while not_nl t) as [|c w] eqn:Hw; [done|]. exfalso.
      assert (Hstart : forall r', line_start r' -> take_while not_nl r' = []).
      { intros r' [->|[s' ->]]; [done|]. cbn [take_while].
        by replace (not_nl Ch.nl) with false by reflexivity. }
      apply app_eq_app in Ht as [u [[-> ->]|[Hm ->]]].
      - (* the marker is in [l]: the line is the marker and nothing else *)
        destruct u as [|x u].
        + cbn [app] in Hw. rewrite (Hstart _ Hr) in Hw. done.
        + assert (attached_line title (marker title ++ x :: u) = true); [|congruence].
          apply attached_line_split. by exists (x :: u).
      - (* the line ends inside the marker *)
        destruct u as [|x u].
        + cbn [app] in Hr. rewrite (Hstart _ Hr) in Hw. done.
        + destruct Hr as [Hr|[s' Hr]]; [done|]. cbn [app] in Hr.
          injection Hr as -> _. by apply forallb_not_nl_no_nl in Hm. }
    rewrite (sub_loop_skip _ _ _ _ _ _ _ Hnone).
    rewrite sub_attached_skip by done. cbn [rev app]. by rewrite <- !app_assoc.
Qed.

Lemma line_start_lines ls : line_start (concat (map (cons Ch.nl) ls)).
Proof. destruct ls as [|l ls]; [by left|right]. by eexists. Qed.

Lemma sub_attached_lines ls : forall fuel lft,
  Forall (fun l => forallb not_nl l = true) ls -> (length ls < fuel)%nat ->
  sub_loop fuel (re_attached title) (fun _ => []) false lft (concat (map (cons Ch.nl) ls))
  = concat (map (cons Ch.nl) (List.filter (fun l => negb (attached_line title l)) ls)).
Proof.
  induction ls as [|l ls IH]; intros fuel lft Hls Hfuel.
  - apply sub_loop_no_match, scan_end. by rewrite attached_at.
  - apply Forall_cons in Hls as [Hl Hls].
    destruct fuel as [|[|fuel]]; [simpl in Hfuel; lia..|].
    cbn [map concat List.filter]. cbn [app].
    rewrite sub_attached_line; [|done|apply line_start_lines].
    destruct (attached_line title l); cbn [negb].
    + apply IH; [done|simpl in Hfuel; lia].
    + cbn [map concat app]. do 2 f_equal.
      apply IH; [done|simpl in Hfuel; lia].
Qed.

Lemma length_lines ls : (length ls <= length (concat (map (cons Ch.nl) ls)))%nat.
Proof.
  induction ls as [|l ls IH]; [done|]. cbn [map concat length app].
  rewrite length_app. lia.
Qed.

(** One pass, on the lines of the text. *)
Lemma sub_attached_unlines l0 ls :
  forallb not_nl l0 = true -> Forall (fun l => forallb not_nl l = true) ls ->
  re_sub (re_attached title) (fun _ => []) (unlines l0 ls)
  = unlines l0 (List.filter (fun l => negb (attached_line title l)) ls).
Proof.
  intros Hl0 Hls. unfold re_sub, unlines.
  replace (2 * length (l0 ++ concat (map (cons Ch.nl) ls)) + 2)%nat
    with (S (S (2 * length (l0 ++ concat (map (cons Ch.nl) ls))))) by lia.
  rewrite sub_attached_skip by done. f_equal.
  apply sub_attached_lines; [done|].
  pose proof (length_lines ls). rewrite length_app. lia.
Qed.
End OneTitle.

(** Lines and text. *)
Lemma join_unlines l0 ls : join [Ch.nl] (l0 :: ls) = unlines l0 ls.
Proof.
  unfold unlines. revert l0. induction ls as [|l ls IH]; intros l0.
  - cbn [join map concat]. by rewrite app_nil_r.
  - change (join [Ch.nl] (l0 :: l :: ls)) with (l0 ++ [Ch.nl] ++ join [Ch.nl] (l :: ls)).
    rewrite IH. reflexivity.
Qed.

Lemma split_on_lines s :
  exists l0 ls,
    split_on Ch.nl s = l0 :: ls /\ s = unlines l0 ls
    /\ forallb not_nl l0 = true /\ Forall (fun l => forallb not_nl l = true) ls.
Proof.
  induction s as [|c s (l0 & ls & Hsplit & Hs & Hl0 & Hls)].
  - exists [], []. by repeat split.
  - cbn [split_on]. destruct (c =? Ch.nl) eqn:Hc.
    + apply Z.eqb_eq in Hc as ->. exists [], (l0 :: ls). rewrite Hsplit.
      split; [done|]. split; [by rewrite Hs|]. split; [done|]. by apply Forall_cons.
    + rewrite Hsplit. exists (c :: l0), ls. split; [done|].
      split; [by rewrite Hs|]. split; [|done].
      cbn [forallb]. rewrite Hl0, andb_true_r.
      unfold not_nl, not_cls, is_nl. by rewrite Hc.
Qed.

Lemma split_on_one_line l : forallb not_nl l = true -> split_on Ch.nl l = [l].
Proof.
  induction l as [|c l IH]; [done|]. cbn [forallb split_on].
  intros [Hc Hl]%andb_true_iff. apply not_nl_spec, Z.eqb_neq in Hc. rewrite Hc.
  by rewrite IH.
Qed.

Lemma split_on_app_nl l t :
  forallb not_nl l = true -> split_on Ch.nl (l ++ Ch.nl :: t) = l :: split_on Ch.nl t.
Proof.
  induction l as [|c l IH]; cbn [forallb app split_on].
  - intros _. by replace (Ch.nl =? Ch.nl) with true by reflexivity.
  - intros [Hc Hl]%andb_true_iff. apply not_nl_spec, Z.eqb_neq in Hc. rewrite Hc.
    by rewrite IH.
Qed.

Lemma unlines_cons l0 l ls : unlines l0 (l :: ls) = l0 ++ Ch.nl :: unlines l ls.
Proof. reflexivity. Qed.

Lemma split_on_unlines l0 ls :
  forallb not_nl l0 = true -> Forall (fun l => forallb not_nl l = true) ls ->
  split_on Ch.nl (unlines l0 ls) = l0 :: ls.
Proof.
  revert l0. induction ls as [|l ls IH]; intros l0 Hl0 Hls.
  - unfold unlines. cbn [map concat]. rewrite app_nil_r. by apply split_on_one_line.
  - apply Forall_cons in Hls as [Hl Hls].
    rewrite unlines_cons, split_on_app_nl by done. by rewrite IH.
Qed.

Lemma Forall_filter_lines (P : list Z -> Prop) (q : list Z -> bool) ls :
  Forall P ls -> Forall P (List.filter q ls).
Proof.
  induction 1 as [|l ls Hl Hls IH]; [done|]. cbn [List.filter].
  destruct (q l); [by apply Forall_cons|done].
Qed.

Lemma filter_filter_lines (q1 q2 : list Z -> bool) ls :
  List.filter q2 (List.filter q1 ls) = List.filter (fun l => q1 l && q2 l) ls.
Proof.
  induction ls as [|l ls IH]; [done|]. cbn [List.filter].
  destruct (q1 l); cbn [List.filter andb]; [|done]. destruct (q2 l); by rewrite IH.
Qed.

(** The pass deletes, after the first line, the lines that consist of a
    marker and at least one more character, and keeps every other line. *)
Lemma strip_attached_lines content :
  strip_attached content = join [Ch.nl] (keep_lines attached (split_on Ch.nl content)).
Proof.
  destruct (split_on_lines content) as (l0 & ls & Hsplit & -> & Hl0 & Hls).
  unfold strip_attached. rewrite Hsplit. cbn [keep_lines]. rewrite join_unlines.
  rewrite (sub_attached_unlines Txt.mondaibun marker_one_line_mondaibun) by done.
  rewrite (sub_attached_unlines Txt.sentakushi marker_one_line_sentakushi);
    [|done|by apply Forall_filter_lines].
  f_equal. rewrite filter_filter_lines. apply List.filter_ext.
  intros l. unfold attached. by rewrite negb_orb.
Qed.

(** C10, amended: the pass deletes every line, other than the first line of
    the document, that consists of "- **問題文** " or "- **選択肢** " and at
    least one more character, whether an earlier run wrote it or not; the
    first line and all other lines are kept as they are. *)
Theorem attached_lines_deleted content :
  strip_attached content = join [Ch.nl] (keep_lines attached (split_on Ch.nl content)).
Proof. apply strip_attached_lines. Qed.

(** C10, as stated, fails for the first line of the document: the pattern
    asks for a line break before the marker. *)
Lemma first_line_not_deleted :
  attached (marker Txt.mondaibun ++ asc "written by hand") = true
  /\ head (split_on Ch.nl (main [Sample.twin_file] first_line_document))
     = Some (marker Txt.mondaibun ++ asc "written by hand").
Proof. vm_compute. split; reflexivity. Qed.

(** A line of the same shape further down is deleted, hand-written or not. *)
Example later_line_deleted :
  strip_attached (asc "# T" ++ [Ch.nl] ++ marker Txt.sentakushi ++ asc "mine" ++ [Ch.nl]
                  ++ asc "text")
  = asc "# T" ++ [Ch.nl] ++ asc "text".
Proof. vm_compute. reflexivity. Qed.

(** ** The rewrite of the frequency document *)

Lemma accept_some adv st0 st res : accept adv st0 st = Some res -> res = st.
Proof. unfold accept. destruct (_ && _); [done|]. by intros [= <-]. Qed.

(** What the search returns: the match it reports is one that [matches]
    allows, at the place that its offsets give. *)
Lemma scan_sound r s : forall adv lft m st1,
  scan r adv lft s = Some (m, st1) ->
  exists pre w,
    s = pre ++ w ++ rest st1
    /\ matches r (rev pre ++ lft) w (rest st1)
    /\ m = MatchObj (length lft + length pre) (length lft + length pre + length w)
                    w (caps st1)
    /\ behind st1 = rev w ++ rev pre ++ lft.
Proof.
  assert (Hhere : forall adv lft s st1,
    rmatch r (accept adv (MState lft s [])) (MState lft s []) = Some st1 ->
    exists w,
      s = w ++ rest st1 /\ matches r lft w (rest st1)
      /\ mk_match (MState lft s []) st1
         = MatchObj (length lft + 0) (length lft + 0 + length w) w (caps st1)
      /\ behind st1 = rev w ++ lft).
  { intros adv lft s0 st1 (w & t & cs & Hrest & Hm & Hk)%rmatch_sound.
    apply accept_some in Hk as ->. cbn [rest behind caps] in *. subst s0.
    exists w. split; [done|]. split; [done|]. split; [|done].
    unfold mk_match. cbn [rest behind caps]. f_equal.
    - lia.
    - rewrite length_app, length_rev. lia.
    - rewrite length_app. replace (length w + length t - length t)%nat
        with (length w) by lia. by rewrite take_app_length. }
  induction s as [|c s IH]; intros adv lft m st1; cbn [scan].
  - destruct (rmatch _ _ _) as [st|] eqn:Hr; [|done]. intros [= <- <-].
    apply Hhere in Hr as (w & ? & ? & ? & ?). exists [], w. by cbn [rev app length].
  - destruct (rmatch _ _ _) as [st|] eqn:Hr.
    + intros [= <- <-].
      apply Hhere in Hr as (w & ? & ? & ? & ?). exists [], w. by cbn [rev app length].
    + intros (pre & w & -> & Hm & -> & Hb)%IH. exists (c :: pre), w.
      cbn [rev length app]. rewrite <- !app_assoc. cbn [app].
      split; [done|]. split; [done|]. split; [|done]. f_equal; lia.
Qed.

Lemma inserted_refl s : inserted s s.
Proof. induction s; by constructor. Qed.

Lemma inserted_copy w y z : inserted y z -> inserted (w ++ y) (w ++ z).
Proof. intros H. induction w; [done|]. cbn [app]. by constructor. Qed.

Lemma inserted_extra e y z :
  extra_lines e -> inserted y z -> at_eol true (MState [] y []) = true ->
  inserted y (e ++ z).
Proof.
  intros He Hyz Hy. induction He as [|b e Hb Hatt He IH]; [done|].
  cbn [app]. rewrite <- app_assoc. by constructor.
Qed.

Section Substitution.
(** A substitution that keeps each match and adds lines after it, for a
    pattern whose matches end at the end of a line. *)
Variable r : regex.
Variable repl : match_obj -> list Z.
Hypothesis repl_adds : forall m, exists e, repl m = m_text m ++ e /\ extra_lines e.
Hypothesis ends_line :
  forall lft w t, matches r lft w t -> at_eol true (MState [] t []) = true.

Lemma sub_loop_inserted fuel : forall adv lft s,
  inserted s (sub_loop fuel r repl adv lft s).
Proof.
  induction fuel as [|fuel IH]; intros adv lft s; cbn [sub_loop].
  - apply inserted_refl.
  - destruct (scan r adv lft s) as [[m st1]|] eqn:Hscan; [|apply inserted_refl].
    apply scan_sound in Hscan as (pre & w & -> & Hm & -> & Hb).
    cbn [m_start m_end].
    replace (length lft + length pre - length lft)%nat with (length pre) by lia.
    rewrite take_app_length.
    destruct (repl_adds (MatchObj (length lft + length pre)
                (length lft + length pre + length w) w (caps st1)))
      as (e & -> & He).
    cbn [m_text]. rewrite <- app_assoc.
    apply inserted_copy, inserted_copy, inserted_extra; [done|apply IH|].
    by apply (ends_line _ _ _ Hm).
Qed.

Lemma re_sub_inserted s : inserted s (re_sub r repl s).
Proof. apply sub_loop_inserted. Qed.
End Substitution.

(** A row ends where its line ends. *)
Lemma re_row_ends_line lft w t :
  matches re_row lft w t -> at_eol true (MState [] t []) = true.
Proof.
  unfold re_row. intros (w1 & w2 & -> & _ & Heol)%matches_cat_inv.
  by apply matches_eol_inv in Heol as [_ Heol].
Qed.

(** The lines that [format_problem_block] makes. *)
Lemma forallb_marker_line title body :
  forallb not_nl (marker title) = true -> forallb not_nl body = true ->
  forallb not_nl (marker title ++ body) = true.
Proof. intros Hm Hb. by rewrite forallb_app, Hm, Hb. Qed.

Lemma attached_mondaibun body :
  body <> [] -> attached (marker Txt.mondaibun ++ body) = true.
Proof.
  intros Hb. unfold attached. apply orb_true_iff. left.
  apply attached_line_split. by exists body.
Qed.

Lemma attached_sentakushi body :
  body <> [] -> attached (marker Txt.sentakushi ++ body) = true.
Proof.
  intros Hb. unfold attached. apply orb_true_iff. right.
  apply attached_line_split. by exists body.
Qed.

Lemma format_problem_block_cases p c :
  format_problem_block p c
  = match p, c with
    | [], [] => []
    | [], _ :: _ => marker Txt.sentakushi ++ c
    | _ :: _, [] => marker Txt.mondaibun ++ p
    | _ :: _, _ :: _ =>
        (marker Txt.mondaibun ++ p) ++ Ch.nl :: (marker Txt.sentakushi ++ c)
    end.
Proof. destruct p, c; reflexivity. Qed.

Lemma nonempty_marker title body : nonempty (marker title ++ body) = true.
Proof. reflexivity. Qed.

Lemma format_problem_block_extra p c :
  forallb not_nl p = true -> forallb not_nl c = true ->
  let block := format_problem_block p c in
  extra_lines (if nonempty block then [Ch.nl] ++ block else []).
Proof.
  intros Hp Hc. cbv zeta. rewrite format_problem_block_cases.
  destruct p as [|x p], c as [|y c].
  - constructor.
  - rewrite nonempty_marker. change ([Ch.nl] ++ ?t) with (Ch.nl :: t).
    rewrite <- (app_nil_r (marker Txt.sentakushi ++ y :: c)).
    apply extra_line; [by apply forallb_marker_line|by apply attached_sentakushi|constructor].
  - rewrite nonempty_marker. change ([Ch.nl] ++ ?t) with (Ch.nl :: t).
    rewrite <- (app_nil_r (marker Txt.mondaibun ++ x :: p)).
    apply extra_line; [by apply forallb_marker_line|by apply attached_mondaibun|constructor].
  - replace (nonempty ((marker Txt.mondaibun ++ x :: p)
                       ++ Ch.nl :: (marker Txt.sentakushi ++ y :: c)))
      with true by reflexivity.
    change ([Ch.nl] ++ ?t) with (Ch.nl :: t).
    apply extra_line; [by apply forallb_marker_line|by apply attached_mondaibun|].
    rewrite <- (app_nil_r (marker Txt.sentakushi ++ y :: c)).
    apply extra_line; [by apply forallb_marker_line|by apply attached_sentakushi|constructor].
Qed.

(** What [resolve] returns comes from the index, or is empty. *)
Lemma first_match_elem row_ans candidates p c :
  first_match row_ans candidates = Some (p, c) -> exists a, (p, c, a) ∈ candidates.
Proof.
  intros (before & a & after & -> & _)%first_match_some. exists a.
  apply elem_of_app. right. apply elem_of_cons. by left.
Qed.

Lemma resolve_eq lk exam q_num row_ans :
  resolve lk exam q_num row_ans
  = let found :=
      default ([], []) (first_match row_ans (default [] (by_qnum lk !! (exam, q_num)))) in
    match by_exam lk !! exam with
    | Some entries =>
        if negb (nonempty found.1)
        then default found (first_match row_ans (map drop_qn entries))
        else found
    | None => found
    end.
Proof.
  unfold resolve. cbv zeta.
  destruct (default ([], []) (first_match row_ans _)) as [p c]. cbn [fst].
  destruct (by_exam lk !! exam); [|done]. by destruct (negb (nonempty p)).
Qed.

Lemma resolve_one_line lk exam q_num row_ans :
  lookup_one_line lk ->
  forallb not_nl (resolve lk exam q_num row_ans).1 = true
  /\ forallb not_nl (resolve lk exam q_num row_ans).2 = true.
Proof.
  intros [Hq He]. rewrite resolve_eq. cbv zeta.
  set (cands := default [] (by_qnum lk !! (exam, q_num))).
  assert (Hfound : let found := default ([], []) (first_match row_ans cands) in
            forallb not_nl found.1 = true /\ forallb not_nl found.2 = true).
  { destruct (first_match row_ans cands) as [[p c]|] eqn:H1; cbn [default]; [|done].
    apply first_match_elem in H1 as [a Hin]. exact (Hq (exam, q_num) (p, c, a) Hin). }
  cbv zeta in Hfound.
  destruct (by_exam lk !! exam) as [entries|] eqn:Hex; [|done].
  destruct (negb (nonempty _)); [|done].
  destruct (first_match row_ans (map drop_qn entries)) as [[p' c']|] eqn:H2;
    cbn [default]; [|done].
  apply first_match_elem in H2 as [a Hin].
  apply list_elem_of_fmap in Hin as (x & Hx & Hin).
  specialize (He exam x). rewrite Hex in He. cbn [default] in He.
  specialize (He Hin). rewrite <- Hx in He. done.
Qed.

Lemma replace_row_adds lk m :
  lookup_one_line lk ->
  exists e, replace_row lk m = m_text m ++ e /\ extra_lines e.
Proof.
  intros Hlk. unfold replace_row.
  destruct (re_search re_qnum (strip (group m 2))) as [qm|].
  2:{ exists []. split; [by rewrite app_nil_r|constructor]. }
  pose proof (resolve_one_line lk (strip (group m 1)) (int_of_digits (group qm 1))
                (strip (group m 3)) Hlk) as [Hp Hc].
  destruct (resolve _ _ _ _) as [p c]. cbn [fst snd] in Hp, Hc.
  pose proof (format_problem_block_extra p c Hp Hc) as Hx. cbv zeta in Hx.
  destruct (nonempty (format_problem_block p c)).
  - by eexists.
  - exists []. split; [by rewrite app_nil_r|constructor].
Qed.

(** The lines of a text with inserted lines. *)
Lemma split_on_app_line b z :
  forallb not_nl b = true ->
  split_on Ch.nl (b ++ z)
  = match split_on Ch.nl z with
    | first :: more => (b ++ first) :: more
    | [] => [b]
    end.
Proof.
  intros Hb. destruct (split_on_lines z) as (l0 & ls & Hsplit & -> & Hl0 & Hls).
  rewrite Hsplit. unfold unlines. rewrite app_assoc.
  apply (split_on_unlines (b ++ l0) ls); [|done]. by rewrite forallb_app, Hb, Hl0.
Qed.

Lemma at_eol_line_start y : at_eol true (MState [] y []) = true -> line_start y.
Proof.
  unfold at_eol. cbn [rest]. destruct y as [|c t]; [by left|].
  intros [Hc _]%andb_true_iff. apply Z.eqb_eq in Hc as ->. right. by eexists.
Qed.

Lemma inserted_lines y z :
  inserted y z ->
  exists l0 ls ls',
    split_on Ch.nl y = l0 :: ls /\ split_on Ch.nl z = l0 :: ls' /\ lines_inserted ls ls'.
Proof.
  induction 1 as [|c y z _ (l0 & ls & ls' & Hy & Hz & Hls)
                  |b y z _ (l0 & ls & ls' & Hy & Hz & Hls) Heol Hb Hatt].
  - exists [], [], []. repeat split. constructor.
  - cbn [split_on]. rewrite Hy, Hz. destruct (c =? Ch.nl).
    + exists [], (l0 :: ls), (l0 :: ls'). repeat split. by constructor.
    + exists (c :: l0), ls, ls'. by repeat split.
  - assert (l0 = []) as ->.
    { apply at_eol_line_start in Heol as [->|[y' ->]].
      - by injection Hy as <- _.
      - cbn [split_on] in Hy. replace (Ch.nl =? Ch.nl) with true in Hy by reflexivity.
        by injection Hy as <- _. }
    exists [], ls, (b :: ls'). split; [done|]. split; [|by constructor].
    cbn [split_on]. replace (Ch.nl =? Ch.nl) with true by reflexivity.
    rewrite (split_on_app_line b z Hb), Hz. by rewrite app_nil_r.
Qed.

Lemma lines_inserted_filter ls ls' :
  lines_inserted ls ls' ->
  List.filter (fun l => negb (attached l)) ls'
  = List.filter (fun l => negb (attached l)) ls.
Proof.
  induction 1 as [|l ls ls' _ IH|b ls ls' _ IH Hatt]; [done| |].
  - cbn [List.filter]. by rewrite IH.
  - cbn [List.filter]. by rewrite Hatt.
Qed.

(** The pass over the attached lines undoes the insertions. *)
Lemma strip_attached_inserted y z :
  inserted y z -> strip_attached z = strip_attached y.
Proof.
  intros (l0 & ls & ls' & Hy & Hz & Hls)%inserted_lines.
  rewrite !strip_attached_lines, Hy, Hz. cbn [keep_lines].
  by rewrite (lines_inserted_filter _ _ Hls).
Qed.

Lemma strip_attached_idempotent x :
  strip_attached (strip_attached x) = strip_attached x.
Proof.
  rewrite (strip_attached_lines x).
  destruct (split_on_lines x) as (l0 & ls & Hsplit & _ & Hl0 & Hls).
  rewrite Hsplit. cbn [keep_lines]. rewrite join_unlines, strip_attached_lines.
  rewrite split_on_unlines; [|done|by apply Forall_filter_lines].
  cbn [keep_lines]. rewrite join_unlines, filter_filter_lines. f_equal.
  apply List.filter_ext. intros l. by destruct (negb (attached l)).
Qed.

(** With an index whose texts hold no line break, a second rewrite changes
    nothing. *)
Lemma rewrite_idempotent lk x :
  lookup_one_line lk -> rewrite lk (rewrite lk x) = rewrite lk x.
Proof.
  intros Hlk. unfold rewrite.
  rewrite (strip_attached_inserted (strip_attached x)).
  - by rewrite strip_attached_idempotent.
  - apply re_sub_inserted.
    + intros m. by apply replace_row_adds.
    + apply re_row_ends_line.
Qed.

(** The texts that the extractor produces hold no line break. *)
Lemma replace_go_nl s : forall skip,
  forallb not_nl (replace_go [Ch.nl] [Ch.space] skip s) = true.
Proof.
  induction s as [|c s IH]; intros skip; cbn [replace_go]; [done|].
  destruct skip; [|apply IH]. cbn [startswith].
  destruct (Ch.nl =? c) eqn:Hc; cbn [andb app forallb].
  - rewrite IH. reflexivity.
  - rewrite IH, andb_true_r. unfold not_nl, not_cls, is_nl.
    by rewrite Z.eqb_sym, Hc.
Qed.

Lemma first_problem_one_line patterns block :
  forallb not_nl (first_problem patterns block) = true.
Proof.
  induction patterns as [|pat more IH]; cbn [first_problem]; [done|].
  destruct (re_search pat block); [apply replace_go_nl|done].
Qed.

Lemma forallb_drop_while (q p : Z -> bool) s :
  forallb q s = true -> forallb q (drop_while p s) = true.
Proof.
  induction s as [|c s IH]; cbn [drop_while]; [done|].
  destruct (p c); [|done]. cbn [forallb]. intros [_ ?]%andb_true_iff. auto.
Qed.

Lemma forallb_strip (q : Z -> bool) s : forallb q s = true -> forallb q (strip s) = true.
Proof.
  intros H. unfold strip, rstrip, lstrip. rewrite forallb_rev.
  apply forallb_drop_while. rewrite forallb_rev. by apply forallb_drop_while.
Qed.

Lemma forallb_skipn (q : Z -> bool) n s :
  forallb q s = true -> forallb q (skipn n s) = true.
Proof.
  revert s. induction n as [|n IH]; intros [|c s]; cbn [skipn]; try done.
  cbn [forallb]. intros [_ ?]%andb_true_iff. by apply IH.
Qed.

Lemma choice_items_one_line lines :
  Forall (fun l => forallb not_nl l = true) lines ->
  Forall (fun l => forallb not_nl l = true) (choice_items lines).
Proof.
  induction 1 as [|l ls Hl Hls IH]; cbn [choice_items]; [done|].
  destruct (startswith Txt.item (strip l)); [|done].
  apply Forall_cons. split; [|done]. by apply forallb_strip, forallb_skipn, forallb_strip.
Qed.

Lemma join_one_line sep parts :
  forallb not_nl sep = true -> Forall (fun l => forallb not_nl l = true) parts ->
  forallb not_nl (join sep parts) = true.
Proof.
  intros Hsep. induction 1 as [|l ls Hl Hls IH]; [done|].
  destruct ls as [|l' ls]; [done|].
  change (join sep (l :: l' :: ls)) with (l ++ sep ++ join sep (l' :: ls)).
  by rewrite !forallb_app, Hl, Hsep, IH.
Qed.

Lemma extract_choices_lines_one_line block :
  Forall (fun l => forallb not_nl l = true) (extract_choices_lines block).
Proof.
  unfold extract_choices_lines. destruct (re_search re_choices block) as [m|]; [|done].
  apply choice_items_one_line.
  destruct (split_on_lines (strip (group m 1))) as (l0 & ls & -> & _ & Hl0 & Hls).
  by apply Forall_cons.
Qed.

Lemma extracted_one_line text a b :
  one_line (extract_problem_choices_answer text a b).
Proof.
  unfold extract_problem_choices_answer, one_line. cbv zeta. cbn [fst snd]. split.
  - apply first_problem_one_line.
  - pose proof (extract_choices_lines_one_line (slice text a b)) as H.
    destruct (extract_choices_lines (slice text a b)) as [|l ls] eqn:E; [done|].
    by apply join_one_line.
Qed.

Lemma index_qnum_one_line exam_id e lk qn :
  one_line e -> lookup_one_line lk -> lookup_one_line (index_qnum exam_id e lk qn).
Proof.
  intros He [Hq Hx]. destruct e as [[p c] a]. unfold index_qnum.
  destruct (nonempty p || nonempty c); [|done]. split; cbn [by_qnum by_exam].
  - intros key e'. rewrite dd_append_lookup.
    destruct (decide ((exam_id, qn) = key)); [|by apply Hq].
    rewrite elem_of_app, list_elem_of_singleton. intros [Hin| ->]; [by eapply Hq|done].
  - intros exam x. rewrite dd_append_lookup.
    destruct (decide (exam_id = exam)); [|by apply Hx].
    rewrite elem_of_app, list_elem_of_singleton. intros [Hin| ->]; [by eapply Hx|done].
Qed.

Lemma build_lookup_one_line files : lookup_one_line (build_lookup files).
Proof.
  apply (build_lookup_preserves lookup_one_line one_line).
  - apply extracted_one_line.
  - intros. by apply index_qnum_one_line.
  - split; intros *; cbn [by_qnum by_exam]; rewrite lookup_empty; cbn [default];
      by intros ?%elem_of_nil.
Qed.

(** C5: a second run over the output of the first, with the same corpus,
    writes the same document: [main files (main files x) = main files x]
    for every text [x] of the frequency document. *)
Theorem main_idempotent files x : main files (main files x) = main files x.
Proof. unfold main. apply rewrite_idempotent, build_lookup_one_line. Qed.

(** The end-to-end case of the specification: the row
    (2022本試, 問1, "④（radius）") is linked to the record with answer
    "a. radius", and a second run changes nothing. *)
Example main_twice :
  let row := asc "| " ++ Sample.exam ++ asc " | " ++ Sample.q "1" ++ asc " | "
             ++ [0x2463; Ch.fw_lparen] ++ asc "radius" ++ [Ch.fw_rparen] ++ asc " |" in
  let out := main [Sample.twin_file] row in
  out = row ++ [Ch.nl] ++ marker Txt.mondaibun ++ asc "Which bone?"
        ++ [Ch.nl] ++ marker Txt.sentakushi ++ asc "**a.** x"
  /\ main [Sample.twin_file] out = out.
Proof. vm_compute. split; reflexivity. Qed.

(** ** The choices of a block *)

Lemma caps_moved w st cs : caps (moved w st cs) = cs.
Proof. reflexivity. Qed.

Lemma advance_moved st c t : rest st = c :: t -> advance st = moved [c] st (caps st).
Proof. intros H. unfold advance, moved. rewrite H. reflexivity. Qed.

(** One step of a pattern on a text that it fits, with the continuation
    taken at the position after it. *)
Lemma step_cls p k st c t :
  rest st = c :: t -> p c = true ->
  rmatch (Cls p) k st = k (moved [c] st (caps st)).
Proof.
  intros Hrest Hp. rewrite (rmatch_cls_cons _ _ _ _ _ Hrest), Hp.
  by rewrite (advance_moved _ _ _ Hrest).
Qed.

Lemma step_lit l k st t :
  rest st = l ++ t -> rmatch (Lit l) k st = k (moved l st (caps st)).
Proof.
  intros Hrest. rewrite rmatch_lit.
  replace (startswith l (rest st)) with true; [done|].
  symmetry. apply startswith_app. by exists t.
Qed.

(** A greedy loop over a class takes the whole run when the continuation
    accepts the position after it. *)
Lemma step_rep_cls p lo hi k st w t res :
  rest st = w ++ t -> forallb p w = true -> run_ends p hi w t ->
  within hi (length w) -> (lo <= length w)%nat ->
  k (moved w st (caps st)) = Some res ->
  rmatch (Rep lo hi true (Cls p)) k st = Some res.
Proof.
  intros Hrest Hall Hend Hin Hlo Hk. rewrite rmatch_rep.
  rewrite (rep_cls_give_back p k w st t); [|done..|].
  - by apply (give_back_all _ _ _ t).
  - rewrite Hrest, length_app. lia.
Qed.

(** The loop fails where the run is too short. *)
Lemma step_rep_cls_short p lo hi k st w t :
  rest st = w ++ t -> forallb p w = true -> run_ends p hi w t ->
  within hi (length w) -> (length w < lo)%nat ->
  rmatch (Rep lo hi true (Cls p)) k st = None.
Proof.
  intros Hrest Hall Hend Hin Hlo. rewrite rmatch_rep.
  rewrite (rep_cls_give_back p k w st t); [|done..|].
  - clear Hrest Hend Hin. revert st lo Hlo.
    induction w as [|c w IH]; intros st lo Hlo; cbn [give_back].
    + destruct lo; [simpl in Hlo; lia|done].
    + cbn [forallb] in Hall. apply andb_true_iff in Hall as [_ Hall].
      destruct lo as [|lo]; [simpl in Hlo; lia|]. apply IH; [done|simpl in Hlo; lia].
  - rewrite Hrest, length_app. lia.
Qed.

(** The same steps, with the position after the step given by [after]. *)

Lemma after_moved w t st : rest st = w ++ t -> after w t st (moved w st (caps st)).
Proof. intros H. split; [by apply moved_rest|done]. Qed.

Lemma stage_cls p k st c t res :
  rest st = c :: t -> p c = true ->
  (forall st', after [c] t st st' -> k st' = Some res) ->
  rmatch (Cls p) k st = Some res.
Proof.
  intros Hrest Hp Hk. rewrite (step_cls _ _ _ _ _ Hrest Hp).
  by apply Hk, after_moved.
Qed.

Lemma stage_lit l k st t res :
  rest st = l ++ t ->
  (forall st', after l t st st' -> k st' = Some res) ->
  rmatch (Lit l) k st = Some res.
Proof.
  intros Hrest Hk. rewrite (step_lit _ _ _ _ Hrest). by apply Hk, after_moved.
Qed.

Lemma stage_rep p lo hi k st w t res :
  rest st = w ++ t -> forallb p w = true -> run_ends p hi w t ->
  within hi (length w) -> (lo <= length w)%nat ->
  (forall st', after w t st st' -> k st' = Some res) ->
  rmatch (Rep lo hi true (Cls p)) k st = Some res.
Proof.
  intros Hrest Hall Hend Hin Hlo Hk.
  apply (step_rep_cls _ _ _ _ _ w t); [done..|]. by apply Hk, after_moved.
Qed.

Lemma after_trans w1 w2 t1 t2 st st1 st2 :
  after w1 t1 st st1 -> after w2 t2 st1 st2 -> after (w1 ++ w2) t2 st st2.
Proof.
  intros (_ & Hc1 & Hb1) (Hr2 & Hc2 & Hb2). split; [done|]. split; [congruence|].
  by rewrite Hb2, Hb1, rev_app_distr, <- app_assoc.
Qed.

Lemma after_unique w t st st' :
  rest st = w ++ t -> after w t st st' -> st' = moved w st (caps st).
Proof.
  intros Hrest (Hr & Hc & Hb). destruct st' as [b r c]. cbn [rest caps behind] in *.
  subst. unfold moved. by rewrite Hrest, drop_app_length.
Qed.

Lemma run_ends_other p hi w c t : p c = false -> run_ends p hi w (c :: t).
Proof. intros H. right; left. by exists c, t. Qed.

Lemma run_ends_bound p n w t : length w = n -> run_ends p (Some n) w t.
Proof. intros <-. by right; right. Qed.

(** Both sides of an equation between concatenations, in right-nested form. *)
Ltac list_norm :=
  unfold Txt.item, Txt.bold, choices_heading; cbn [asc map String.list_ascii_of_string];
  repeat (progress (cbn [app]) || rewrite <- app_assoc).

Lemma after_here t st : rest st = t -> after [] t st st.
Proof. intros H. by split. Qed.

Lemma mstate_eq (a b : mstate) :
  behind a = behind b -> rest a = rest b -> caps a = caps b -> a = b.
Proof. destruct a, b. cbn. by intros -> -> ->. Qed.

(** [rstrip] and [strip] on texts that begin with a character that is not
    white space. *)
Lemma drop_while_app_last p x c :
  p c = false -> drop_while p (x ++ [c]) = drop_while p x ++ [c].
Proof.
  intros Hc. induction x as [|y x IH]; cbn [app drop_while]; [by rewrite Hc|].
  by destruct (p y).
Qed.

Lemma rstrip_cons c s : is_space c = false -> rstrip (c :: s) = c :: rstrip s.
Proof.
  intros Hc. unfold rstrip. cbn [rev]. rewrite drop_while_app_last by done.
  by rewrite rev_app_distr.
Qed.

Lemma drop_while_app_keep p x y :
  drop_while p x <> [] -> drop_while p (x ++ y) = drop_while p x ++ y.
Proof.
  induction x as [|c x IH]; cbn [app drop_while]; [done|].
  destruct (p c); [apply IH|done].
Qed.

Lemma rstrip_app a b : rstrip b <> [] -> rstrip (a ++ b) = a ++ rstrip b.
Proof.
  intros Hb. unfold rstrip in *. rewrite rev_app_distr.
  rewrite drop_while_app_keep.
  - by rewrite rev_app_distr, rev_involutive.
  - intros E. by rewrite E in Hb.
Qed.

Lemma rstrip_space_last s c : is_space c = true -> rstrip (s ++ [c]) = rstrip s.
Proof.
  intros Hc. unfold rstrip. rewrite rev_app_distr. cbn [rev app drop_while].
  by rewrite Hc.
Qed.

Lemma drop_while_idem p s : drop_while p (drop_while p s) = drop_while p s.
Proof.
  induction s as [|c s IH]; cbn [drop_while]; [done|].
  destruct (p c) eqn:Hc; [done|]. cbn [drop_while]. by rewrite Hc.
Qed.

Lemma rstrip_idem s : rstrip (rstrip s) = rstrip s.
Proof. unfold rstrip. by rewrite rev_involutive, drop_while_idem. Qed.

Lemma strip_cons c s : is_space c = false -> strip (c :: s) = c :: rstrip s.
Proof.
  intros Hc. unfold strip, lstrip. cbn [drop_while]. rewrite Hc.
  by apply rstrip_cons.
Qed.

Lemma is_label_not_nl c : is_label c = true -> not_nl c = true.
Proof.
  unfold is_label, in_range, not_nl, not_cls, is_nl, Ch.circled1, Ch.circled10, Ch.nl.
  intros H. apply negb_true_iff, Z.eqb_neq. lia.
Qed.

Lemma is_label_sep_not_nl c : is_label_sep c = true -> not_nl c = true.
Proof.
  unfold is_label_sep, not_nl, not_cls, is_nl, Ch.dot, Ch.fw_dot, Ch.ideo_comma,
    Ch.colon, Ch.fw_colon, Ch.nl.
  intros H. apply negb_true_iff, Z.eqb_neq. lia.
Qed.

Lemma rstrip_one_line s : forallb not_nl s = true -> forallb not_nl (rstrip s) = true.
Proof.
  intros H. unfold rstrip. rewrite forallb_rev. apply forallb_drop_while.
  by rewrite forallb_rev.
Qed.

Lemma matches_lit_inv l lft w s : matches (Lit l) lft w s -> w = l.
Proof.
  revert lft w. induction l as [|c l IH]; intros lft w; cbn [Lit].
  - by inversion 1.
  - intros (w1 & w2 & -> & H1 & H2)%matches_cat_inv.
    apply matches_cls_inv in H1 as (x & -> & Hx). apply Z.eqb_eq in Hx as <-.
    apply IH in H2 as ->. done.
Qed.

Lemma contains_suffix p a b : contains p (a ++ b) = false -> contains p b = false.
Proof.
  intros H. destruct (contains p b) eqn:E; [|done].
  apply contains_app in E as (u & t & ->).
  assert (contains p (a ++ u ++ p ++ t) = true); [|congruence].
  apply contains_app. exists (a ++ u), t. by rewrite <- app_assoc.
Qed.

(** A run of hashes and then white space holds no line break right before
    a hash. *)
Lemma hashes_spaces_no_nl_hash h s a b :
  forallb (Z.eqb Ch.hash) h = true -> forallb is_space s = true ->
  h ++ s <> a ++ Ch.nl :: Ch.hash :: b.
Proof.
  intros Hh Hs E. apply app_eq_app in E as [l [[-> E]|[-> E]]].
  - (* the line break is in the hashes or opens the white space *)
    destruct l as [|x l]; cbn [app] in E.
    + subst s. cbn [forallb] in Hs. done.
    + injection E as <- E. rewrite forallb_app in Hh. cbn [forallb] in Hh.
      apply andb_true_iff in Hh as [_ Hh]. done.
  - (* the hash is in the white space *)
    subst s. rewrite forallb_app in Hs. cbn [forallb] in Hs.
    apply andb_true_iff in Hs as [_ Hs]. done.
Qed.

(** The search passes over a text in which no match can start. *)
Lemma scan_skip r pre : forall adv lft s,
  (forall pre1 c pre2 w t,
      pre = pre1 ++ c :: pre2 -> (c :: pre2) ++ s = w ++ t ->
      ~ matches r (rev pre1 ++ lft) w t) ->
  scan r adv lft (pre ++ s)
  = scan r (match pre with [] => adv | _ => false end) (rev pre ++ lft) s.
Proof.
  induction pre as [|c pre IH]; intros adv lft s Hno; [done|].
  cbn [app]. rewrite scan_next.
  - rewrite IH.
    + cbn [rev]. rewrite <- app_assoc. by destruct pre.
    + intros pre1 c' pre2 w t -> E. specialize (Hno (c :: pre1) c' pre2 w t eq_refl E).
      cbn [rev] in Hno. by rewrite <- app_assoc in Hno.
  - destruct (rmatch _ _ _) as [res|] eqn:Hr; [|done].
    apply rmatch_sound in Hr as (w & t & cs & Hrest & Hm & _). cbn [rest behind] in *.
    destruct (Hno [] c pre w t eq_refl Hrest Hm).
Qed.

Lemma slice_whole (s : list Z) : slice s 0 (length s) = s.
Proof. unfold slice. cbn [skipn]. rewrite Nat.sub_0_r. apply firstn_all. Qed.


Lemma space_not_hash c : is_space c = true -> (Ch.hash =? c) = false.
Proof.
  intros H. destruct (Z.eqb_spec Ch.hash c) as [<-|]; [|done]. vm_compute in H. done.
Qed.

(** ** The choices pattern on a choices section *)

(** One list line, when the continuation accepts the position after it. *)
Lemma choice_line_at it k st t res :
  choice_ok it -> (c_end it = [Ch.nl] \/ (c_end it = [] /\ t = [])) ->
  rest st = choice_line it ++ t ->
  (forall st', after (choice_line it) t st st' -> k st' = Some res) ->
  rmatch re_choice_line k st = Some res.
Proof.
  destruct it as [gap lab sep txt e]. intros (Hgap & Hlab & Hsep & Htxt) Hend Hrest Hk.
  unfold choice_line, choice_body in *. cbn [c_gap c_label c_sep c_text c_end] in *.
  assert (Hrest' : rest st = Ch.hyphen :: gap ++ [Ch.star; Ch.star] ++ [lab] ++ sep
                              ++ [Ch.star; Ch.star] ++ txt ++ e ++ t).
  { rewrite Hrest. by list_norm. }
  unfold re_choice_line. rewrite !rmatch_cat.
  unfold Chr at 1. eapply stage_cls; [exact Hrest'|done|]. intros st1 H1.
  unfold spaces0, Star. eapply (stage_rep _ _ _ _ _ gap);
    [apply H1|done|by apply run_ends_other|done|lia|]. intros st2 H2.
  eapply (stage_lit Txt.bold); [apply H2|]. intros st3 H3.
  eapply stage_cls; [apply H3|done|]. intros st4 H4.
  unfold Opt. eapply (stage_rep _ _ _ _ _ sep); [apply H4|..].
  { destruct Hsep as [->|(s & -> & Hs)]; [done|]. cbn [forallb]. by rewrite Hs. }
  { destruct Hsep as [->|(s & -> & Hs)]; [by apply run_ends_other|by apply run_ends_bound]. }
  { destruct Hsep as [->|(s & -> & Hs)]; simpl; lia. }
  { lia. }
  intros st5 H5.
  eapply (stage_lit Txt.bold); [apply H5|]. intros st6 H6.
  eapply (stage_rep _ _ _ _ _ txt); [apply H6|done| |done|lia|].
  { destruct Hend as [->|[-> ->]]; [by apply run_ends_other|by left]. }
  intros st7 H7.
  unfold Chr. eapply (stage_rep _ _ _ _ _ e); [apply H7|..].
  { by destruct Hend as [->|[-> _]]. }
  { destruct Hend as [->|[-> ->]]; [by apply run_ends_bound|by left]. }
  { destruct Hend as [->|[-> _]]; simpl; lia. }
  { lia. }
  intros st8 H8.
  apply Hk.
  pose proof (after_trans _ _ _ _ _ _ _ H1 H2) as A.
  pose proof (after_trans _ _ _ _ _ _ _ A H3) as A3.
  pose proof (after_trans _ _ _ _ _ _ _ A3 H4) as A4.
  pose proof (after_trans _ _ _ _ _ _ _ A4 H5) as A5.
  pose proof (after_trans _ _ _ _ _ _ _ A5 H6) as A6.
  pose proof (after_trans _ _ _ _ _ _ _ A6 H7) as A7.
  pose proof (after_trans _ _ _ _ _ _ _ A7 H8) as A8.
  replace ([Ch.hyphen] ++ gap ++ (Txt.bold ++ [lab] ++ sep ++ Txt.bold ++ txt) ++ e)
    with (((((((([Ch.hyphen] ++ gap) ++ Txt.bold) ++ [lab]) ++ sep) ++ Txt.bold)
             ++ txt) ++ e)); [done|]. by list_norm.
Qed.

Lemma choice_line_fails k st :
  no_item_next (rest st) -> rmatch re_choice_line k st = None.
Proof.
  intros Hn. destruct (rmatch re_choice_line k st) as [res|] eqn:E; [|done].
  apply rmatch_sound in E as (w & s & cs & Hrest & Hm & _).
  destruct (Hn _ _ _ Hrest Hm).
Qed.

Lemma choice_line_nonempty it : choice_line it <> [].
Proof. by destruct it. Qed.

(** The loop over the list lines takes them all. *)
Lemma choice_lines_loop items : forall k st t fuel lo res,
  lines_ok items t ->
  rest st = concat (map choice_line items) ++ t -> no_item_next t ->
  (lo <= length items)%nat -> (length items <= fuel)%nat ->
  (forall st', after (concat (map choice_line items)) t st st' -> k st' = Some res) ->
  rep_loop (rmatch re_choice_line) true fuel lo None k st = Some res.
Proof.
  induction items as [|it items IH]; intros k st t fuel lo res Hok Hrest Hnext Hlo Hfuel Hk.
  - cbn [map concat app] in *. assert (lo = 0%nat) as -> by (simpl in Hlo; lia).
    destruct fuel as [|fuel]; cbn [rep_loop]; [by apply Hk, after_here|].
    cbn [hi_open]. rewrite choice_line_fails by (by rewrite Hrest).
    by apply Hk, after_here.
  - destruct Hok as (Hit & Hend & Hok). cbn [map concat] in *.
    destruct fuel as [|fuel]; [simpl in Hfuel; lia|]. cbn [rep_loop hi_open].
    rewrite <- app_assoc in Hrest.
    assert (Hagain : rmatch re_choice_line
              (fun st' => if (0 <? lo)%nat || progress st st'
                          then rep_loop (rmatch re_choice_line) true fuel (pred lo)
                                 (option_map pred None) k st'
                          else None) st = Some res).
    { apply (choice_line_at it _ st (concat (map choice_line items) ++ t)); [done| |done|].
      { destruct Hend as [?|(? & -> & ->)]; [by left|by right]. }
      intros st1 H1.
      assert (Hprog : progress st st1 = true).
      { unfold progress. destruct H1 as (-> & _). rewrite Hrest.
        apply Nat.ltb_lt. rewrite (length_app (choice_line it)).
        pose proof (choice_line_nonempty it). destruct (choice_line it); [done|simpl; lia]. }
      rewrite Hprog, orb_true_r. cbn [option_map].
      apply (IH k st1 t); [done|apply H1|done|simpl in Hlo; lia|simpl in Hfuel; lia|].
      intros st2 H2. apply Hk. apply (after_trans _ _ _ _ _ _ _ H1 H2). }
    rewrite Hagain. by destruct lo.
Qed.

Lemma lines_length items : (length items <= length (concat (map choice_line items)))%nat.
Proof.
  induction items as [|it items IH]; [done|]. cbn [map concat length].
  rewrite length_app. pose proof (choice_line_nonempty it).
  destruct (choice_line it); [done|]. simpl. lia.
Qed.

Lemma first_line_hyphen it items t :
  exists s', concat (map choice_line (it :: items)) ++ t = Ch.hyphen :: s'.
Proof. destruct it. by eexists. Qed.

(** A greedy loop over a class whose continuation refuses the whole run
    and accepts the run without its last character gives that character
    back. *)
Lemma give_back_last k w c : forall st t res,
  rest st = (w ++ [c]) ++ t ->
  k (moved (w ++ [c]) st (caps st)) = None ->
  k (moved w st (caps st)) = Some res ->
  give_back k st (w ++ [c]) 0 = Some res.
Proof.
  induction w as [|x w IH]; intros st t res Hrest Hnone Hsome; cbn [app give_back].
  - cbn [app] in *. rewrite <- (advance_moved st c t) in Hnone by done.
    rewrite Hnone. cbn [or_else]. by rewrite moved_nil in Hsome.
  - cbn [app] in Hrest, Hnone, Hsome.
    rewrite (moved_cons _ _ _ ((w ++ [c]) ++ t)) in Hnone by done.
    rewrite (moved_cons _ _ _ ((w ++ [c]) ++ t)) in Hsome by done.
    rewrite <- advance_caps in Hnone, Hsome.
    rewrite (IH (advance st) t res); [done| |done|done].
    by apply (advance_rest _ x).
Qed.

(** The whole pattern on a choices section: the match covers the section
    and its group holds the list lines. *)
Lemma choices_section_at n ws1 ws2 items k st t res :
  (3 <= n <= 4)%nat -> forallb is_space ws1 = true -> forallb is_space ws2 = true ->
  items <> [] -> lines_ok items t ->
  rest st = choices_section n ws1 ws2 items ++ t -> no_item_next t ->
  k (MState (rev (choices_section n ws1 ws2 items) ++ behind st) t
            ((1%nat, concat (map choice_line items)) :: caps st)) = Some res ->
  rmatch re_choices k st = Some res.
Proof.
  intros Hn Hws1 Hws2 Hne Hok Hrest Hnext Hk. unfold choices_section in *.
  set (lines := concat (map choice_line items)) in *.
  assert (Hrest' : rest st = repeat Ch.hash n ++ ws1 ++ Txt.sentakushi
                              ++ (ws2 ++ [Ch.nl]) ++ lines ++ t).
  { rewrite Hrest. unfold choices_heading. by rewrite <- !app_assoc. }
  assert (Hlines : exists s', lines ++ t = Ch.hyphen :: s').
  { subst lines. destruct items as [|it items]; [done|]. apply first_line_hyphen. }
  destruct Hlines as [s' Hlines].
  unfold re_choices. rewrite !rmatch_cat.
  unfold hashes, Chr at 1.
  eapply (stage_rep _ _ _ _ _ (repeat Ch.hash n)); [exact Hrest'| | | | |].
  { assert (n = 3 \/ n = 4)%nat as [-> | ->] by lia; reflexivity. }
  { assert (n = 3 \/ n = 4)%nat as [-> | ->] by lia; [|by apply run_ends_bound].
    destruct ws1 as [|c ws1]; [by apply run_ends_other|].
    cbn [forallb] in Hws1. apply andb_true_iff in Hws1 as [Hc _].
    apply run_ends_other. by apply space_not_hash. }
  { cbn [within]. rewrite repeat_length. lia. }
  { rewrite repeat_length. lia. }
  intros st1 H1.
  unfold spaces0 at 1, Star.
  eapply (stage_rep _ _ _ _ _ ws1);
    [apply H1|done|by apply run_ends_other|done|lia|]. intros st2 H2.
  eapply (stage_lit Txt.sentakushi); [apply H2|]. intros st3 H3.
  (* "\s*" takes the white space with its last line break and gives that
     one back to "\n+" *)
  assert (Hst3 : rest st3 = (ws2 ++ [Ch.nl]) ++ lines ++ t) by apply H3.
  unfold spaces0, Star. rewrite rmatch_rep.
  rewrite (rep_cls_give_back is_space _ (ws2 ++ [Ch.nl]) st3 (lines ++ t));
    [|done|by rewrite forallb_app, Hws2
     |rewrite Hlines; by apply run_ends_other|done
     |rewrite Hst3, !length_app; lia].
  apply (give_back_last _ _ _ _ (lines ++ t)); [done| |].
  { unfold Plus, Chr.
    apply (step_rep_cls_short _ _ _ _ _ [] (lines ++ t));
      [by apply (moved_rest _ (lines ++ t))|done
      |rewrite Hlines; by apply run_ends_other|done|simpl; lia]. }
  assert (A3' : after ws2 ([Ch.nl] ++ lines ++ t) st3 (moved ws2 st3 (caps st3))).
  { apply after_moved. by rewrite Hst3, <- app_assoc. }
  set (st3' := moved ws2 st3 (caps st3)) in *.
  unfold Plus at 1, Chr.
  eapply (stage_rep _ _ _ _ _ [Ch.nl]);
    [apply A3'|done|rewrite Hlines; by apply run_ends_other|done|simpl; lia|].
  intros st4 H4.
  rewrite rmatch_grp. unfold Plus. rewrite rmatch_rep.
  assert (Hst4 : rest st4 = lines ++ t) by apply H4.
  apply (choice_lines_loop items _ st4 t); [done|done|done| | |].
  - destruct items; [done|simpl; lia].
  - rewrite Hst4, length_app. pose proof (lines_length items). fold lines in H. lia.
  - intros st5 H5.
    replace (set_cap 1 _ st5) with
      (MState (rev (choices_heading n ws1 ws2 ++ lines) ++ behind st) t
              ((1%nat, lines) :: caps st)); [done|].
    pose proof (after_trans _ _ _ _ _ _ _ H1 H2) as A2.
    pose proof (after_trans _ _ _ _ _ _ _ A2 H3) as A3.
    pose proof (after_trans _ _ _ _ _ _ _ A3 A3') as A3''.
    pose proof (after_trans _ _ _ _ _ _ _ A3'' H4) as A4.
    pose proof (after_trans _ _ _ _ _ _ _ A4 H5) as (A5r & A5c & A5b).
    apply mstate_eq; cbn [behind rest caps set_cap].
    + rewrite A5b. f_equal. f_equal. unfold choices_heading. by rewrite <- !app_assoc.
    + done.
    + rewrite A5c, Hst4, A5r, length_app.
      replace (length lines + length t - length t)%nat with (length lines) by lia.
      by rewrite take_app_length.
Qed.

Lemma re_search_choices pre n ws1 ws2 items t :
  first_fit re_choices pre (choices_section n ws1 ws2 items ++ t) ->
  (3 <= n <= 4)%nat -> forallb is_space ws1 = true -> forallb is_space ws2 = true ->
  items <> [] -> lines_ok items t -> no_item_next t ->
  exists m,
    re_search re_choices (pre ++ choices_section n ws1 ws2 items ++ t) = Some m
    /\ group m 1 = concat (map choice_line items).
Proof.
  intros Hfirst Hn Hws1 Hws2 Hne Hok Hnext. unfold re_search.
  rewrite scan_skip.
  - set (st1 := MState (rev (choices_section n ws1 ws2 items) ++ rev pre ++ [])
                  t [(1%nat, concat (map choice_line items))]).
    rewrite (scan_here _ _ _ _ st1).
    + eexists. split; reflexivity.
    + apply (choices_section_at n ws1 ws2 items _ _ t); [done..|]. by destruct pre.
  - intros pre1 c pre2 w t' -> E. rewrite app_nil_r.
    by apply (Hfirst pre1 c pre2 w t').
Qed.

(** ** The loop of the extractor over the lines of the match *)

Lemma split_on_cons sep s : exists l ls, split_on sep s = l :: ls.
Proof.
  destruct s as [|c s]; cbn [split_on]; [by eexists _, _|].
  destruct (c =? sep); [by eexists _, _|]. destruct (split_on sep s); by eexists _, _.
Qed.

Lemma split_on_app sep a b :
  split_on sep (a ++ sep :: b) = split_on sep a ++ split_on sep b.
Proof.
  induction a as [|c a IH]; cbn [app split_on].
  - by rewrite Z.eqb_refl.
  - destruct (c =? sep); [by rewrite IH|]. rewrite IH.
    by destruct (split_on_cons sep a) as (l & ls & ->).
Qed.

Lemma choice_items_app l1 l2 :
  choice_items (l1 ++ l2) = choice_items l1 ++ choice_items l2.
Proof.
  induction l1 as [|l l1 IH]; cbn [app choice_items]; [done|].
  destruct (startswith Txt.item (strip l)); by rewrite IH.
Qed.

Lemma lstrip_spaces g x :
  forallb is_space g = true -> lstrip (g ++ x) = lstrip x.
Proof.
  unfold lstrip. induction g as [|c g IH]; cbn [forallb app drop_while]; [done|].
  intros [Hc Hg]%andb_true_iff. rewrite Hc. by apply IH.
Qed.

Lemma strip_spaces g x : forallb is_space g = true -> strip (g ++ x) = strip x.
Proof. intros Hg. unfold strip. by rewrite lstrip_spaces. Qed.

Lemma rstrip_spaces g : forallb is_space g = true -> rstrip g = [].
Proof.
  intros Hg. unfold rstrip. rewrite <- forallb_rev in Hg.
  induction (rev g) as [|c r IH]; [done|]. cbn [forallb drop_while] in *.
  apply andb_true_iff in Hg as [Hc Hr]. rewrite Hc. by apply IH.
Qed.

(** A line that begins with white space is read as the line without it. *)
Lemma choice_items_space c l ls :
  is_space c = true -> choice_items ((c :: l) :: ls) = choice_items (l :: ls).
Proof.
  intros Hc. cbn [choice_items].
  change (c :: l) with ([c] ++ l). rewrite strip_spaces; [done|].
  cbn [forallb]. by rewrite Hc.
Qed.

(** White space before a text that begins with a star, over any number of
    lines: none of the lines is a list line. *)
Lemma choice_items_blank g b s0 :
  forallb is_space g = true -> forallb not_nl b = true -> b = Ch.star :: s0 ->
  choice_items (split_on Ch.nl (g ++ b)) = [].
Proof.
  intros Hg Hb ->. induction g as [|c g IH]; cbn [app].
  - rewrite split_on_one_line by done. cbn [choice_items].
    by rewrite strip_cons.
  - cbn [forallb] in Hg. apply andb_true_iff in Hg as [Hc Hg]. specialize (IH Hg).
    cbn [split_on]. destruct (c =? Ch.nl).
    + cbn [choice_items]. exact IH.
    + destruct (split_on_cons Ch.nl (g ++ Ch.star :: s0)) as (l & ls & E).
      rewrite E in IH |- *. by rewrite choice_items_space.
Qed.

Lemma first_nl g :
  forallb not_nl g = false ->
  exists g1 g2, g = g1 ++ Ch.nl :: g2 /\ forallb not_nl g1 = true.
Proof.
  induction g as [|c g IH]; cbn [forallb]; [done|].
  destruct (not_nl c) eqn:Hc; cbn [andb].
  - intros (g1 & g2 & -> & H1)%IH. exists (c :: g1), g2. split; [done|].
    cbn [forallb]. by rewrite Hc.
  - intros _. exists [], g. split; [|done]. cbn [app].
    unfold not_nl, not_cls, is_nl in Hc. apply negb_false_iff, Z.eqb_eq in Hc.
    by rewrite Hc.
Qed.

(** What the loop makes of one list line: the line is kept when a space
    follows its hyphen and the label is on the same line. *)
Lemma choice_items_line gap b s0 :
  forallb is_space gap = true -> forallb not_nl b = true -> b = Ch.star :: s0 ->
  choice_items (split_on Ch.nl (Ch.hyphen :: gap ++ b))
  = if match gap with
       | c :: g => (c =? Ch.space) && forallb not_nl g
       | [] => false
       end
    then [strip b] else [].
Proof.
  intros Hgap Hb Eb.
  assert (Hrb : rstrip b = Ch.star :: rstrip s0) by (rewrite Eb; by apply rstrip_cons).
  assert (Hsb : strip b = rstrip b) by (rewrite Eb; rewrite strip_cons by done; by rewrite rstrip_cons).
  destruct (forallb not_nl gap) eqn:Hnl.
  - (* the label is on the line of the hyphen *)
    rewrite split_on_one_line.
    2:{ cbn [forallb]. by rewrite forallb_app, Hnl, Hb. }
    cbn [choice_items]. rewrite strip_cons by done.
    rewrite rstrip_app by (by rewrite Hrb).
    destruct gap as [|c g]; cbn [app].
    + rewrite Hrb. reflexivity.
    + cbn [forallb] in Hnl, Hgap. apply andb_true_iff in Hnl as [_ Hnl].
      apply andb_true_iff in Hgap as [_ Hg]. rewrite Hnl, andb_true_r.
      destruct (Z.eqb_spec c Ch.space) as [->|Hc].
      * replace (startswith Txt.item (Ch.hyphen :: Ch.space :: g ++ rstrip b))
          with true by reflexivity.
        change (skipn 2 (Ch.hyphen :: Ch.space :: ?x)) with x.
        rewrite strip_spaces by done.
        rewrite Hrb, strip_cons by done. by rewrite rstrip_idem, Hsb, Hrb.
      * replace (startswith Txt.item (Ch.hyphen :: c :: g ++ rstrip b)) with false; [done|].
        symmetry. cbn [startswith Txt.item]. rewrite Z.eqb_refl. cbn [andb].
        apply andb_false_iff. left. apply Z.eqb_neq. congruence.
  - (* a line break between the hyphen and the label *)
    assert (Hkept : match gap with
                    | c :: g => (c =? Ch.space) && forallb not_nl g
                    | [] => false
                    end = false).
    { destruct gap as [|c g]; [done|]. cbn [forallb] in Hnl.
      destruct (Z.eqb_spec c Ch.space) as [->|]; [|done].
      by replace (not_nl Ch.space) with true in Hnl by reflexivity. }
    rewrite Hkept.
    destruct (first_nl gap Hnl) as (g1 & g2 & -> & Hg1).
    rewrite forallb_app in Hgap. apply andb_true_iff in Hgap as [Hs1 Hs2].
    cbn [forallb] in Hs2. apply andb_true_iff in Hs2 as [_ Hs2].
    replace (Ch.hyphen :: (g1 ++ Ch.nl :: g2) ++ b)
      with ((Ch.hyphen :: g1) ++ Ch.nl :: (g2 ++ b)) by (by rewrite <- app_assoc).
    rewrite split_on_app_nl by (cbn [forallb]; by rewrite Hg1).
    cbn [choice_items]. rewrite strip_cons by done. rewrite rstrip_spaces by done.
    replace (startswith Txt.item [Ch.hyphen]) with false by reflexivity.
    by apply (choice_items_blank g2 b s0).
Qed.

Lemma choice_body_star it : exists s, choice_body it = Ch.star :: s.
Proof. destruct it. by eexists. Qed.

Lemma choice_body_one_line it : choice_ok it -> forallb not_nl (choice_body it) = true.
Proof.
  destruct it as [gap lab sep txt e]. intros (_ & Hlab & Hsep & Htxt).
  unfold choice_body. cbn [c_label c_sep c_text] in *.
  rewrite !forallb_app, Htxt. cbn [forallb]. rewrite (is_label_not_nl _ Hlab).
  destruct Hsep as [->|(s & -> & Hs)]; [done|]. cbn [forallb].
  by rewrite (is_label_sep_not_nl _ Hs).
Qed.

(** A list line without its line break. *)
Lemma choice_line_eq it :
  choice_line it = (Ch.hyphen :: c_gap it ++ choice_body it) ++ c_end it.
Proof. unfold choice_line. cbn [app]. by rewrite <- app_assoc. Qed.

Lemma rstrip_line_head it :
  rstrip (Ch.hyphen :: c_gap it ++ choice_body it)
  = Ch.hyphen :: c_gap it ++ rstrip (choice_body it).
Proof.
  rewrite rstrip_cons by done. f_equal. apply rstrip_app.
  destruct (choice_body_star it) as [s ->]. by rewrite rstrip_cons.
Qed.

Lemma rstrip_lines_nonempty it items :
  rstrip (concat (map choice_line (it :: items))) <> [].
Proof.
  cbn [map concat]. destruct it as [gap lab sep txt e].
  unfold choice_line. cbn [app]. by rewrite rstrip_cons.
Qed.

(** The loop over the lines of the matched text gives the bodies of the
    lines that are kept. *)
Lemma choice_items_lines items t :
  items <> [] -> lines_ok items t ->
  choice_items (split_on Ch.nl (rstrip (concat (map choice_line items))))
  = map (fun it => strip (choice_body it)) (List.filter kept items).
Proof.
  induction items as [|it items IH]; [done|]. intros _ (Hit & Hend & Hok).
  pose proof Hit as (Hgap & _).
  pose proof (choice_body_one_line it Hit) as Hone.
  destruct (choice_body_star it) as [s0 Hstar].
  cbn [map concat List.filter]. rewrite choice_line_eq.
  destruct items as [|it' items].
  - (* the last line *)
    cbn [map concat]. rewrite app_nil_r.
    assert (Hr : rstrip ((Ch.hyphen :: c_gap it ++ choice_body it) ++ c_end it)
                 = Ch.hyphen :: c_gap it ++ rstrip (choice_body it)).
    { destruct Hend as [->|(-> & _)].
      - rewrite rstrip_space_last by done. apply rstrip_line_head.
      - rewrite app_nil_r. apply rstrip_line_head. }
    rewrite Hr.
    rewrite (choice_items_line (c_gap it) (rstrip (choice_body it)) (rstrip s0));
      [|done|by apply rstrip_one_line|rewrite Hstar; by apply rstrip_cons].
    assert (Hs : strip (rstrip (choice_body it)) = strip (choice_body it)).
    { rewrite Hstar. rewrite rstrip_cons by done. rewrite !strip_cons by done.
      by rewrite rstrip_idem. }
    rewrite Hs. unfold kept. by destruct (match c_gap it with [] => _ | _ => _ end).
  - (* a line with lines after it *)
    destruct Hend as [Hend|(_ & ? & _)]; [|done]. rewrite Hend.
    rewrite rstrip_app by apply rstrip_lines_nonempty.
    rewrite <- app_assoc. change ([Ch.nl] ++ ?x) with (Ch.nl :: x).
    rewrite split_on_app, choice_items_app.
    rewrite (choice_items_line (c_gap it) (choice_body it) s0) by done.
    rewrite IH by done. unfold kept at 2.
    by destruct (match c_gap it with [] => _ | _ => _ end).
Qed.

(** ** Where the heading is the first fit, and where the lines end *)

(** The line pattern begins with a hyphen. *)
Lemma choice_line_hyphen lft w t :
  matches re_choice_line lft w t -> exists s, w = Ch.hyphen :: s.
Proof.
  unfold re_choice_line. intros Hm.
  apply matches_cat_inv in Hm as (w7 & x7 & -> & Hm & _).
  apply matches_cat_inv in Hm as (w6 & x6 & -> & Hm & _).
  apply matches_cat_inv in Hm as (w5 & x5 & -> & Hm & _).
  apply matches_cat_inv in Hm as (w4 & x4 & -> & Hm & _).
  apply matches_cat_inv in Hm as (w3 & x3 & -> & Hm & _).
  apply matches_cat_inv in Hm as (w2 & x2 & -> & Hm & _).
  apply matches_cat_inv in Hm as (w1 & x1 & -> & Hm & _).
  apply matches_cls_inv in Hm as (c & -> & Hc). apply Z.eqb_eq in Hc as <-.
  by eexists.
Qed.

Lemma no_item_next_nil : no_item_next [].
Proof.
  intros lft w t E Hm. apply choice_line_hyphen in Hm as [s ->]. done.
Qed.

Lemma no_item_next_other c s : c <> Ch.hyphen -> no_item_next (c :: s).
Proof.
  intros Hc lft w t E Hm. apply choice_line_hyphen in Hm as [s' ->].
  cbn [app] in E. congruence.
Qed.

(** The choices pattern cannot start inside a text [pre] that does not hold
    the word 選択肢 and ends a line, whatever sub-heading follows. *)
Lemma first_fit_after_line pre hd :
  contains Txt.sentakushi pre = false ->
  (pre = [] \/ exists p, pre = p ++ [Ch.nl]) ->
  first_fit re_choices pre (Ch.hash :: hd).
Proof.
  intros Hno Hend pre1 c pre2 w t Hpre E Hm.
  destruct Hend as [->|[p Hp]]; [by destruct pre1|].
  rewrite Hpre in Hno, Hp.
  assert (HP : exists p', c :: pre2 = p' ++ [Ch.nl]).
  { destruct (exists_last (l := c :: pre2)) as (p' & z & Hz); [done|].
    exists p'. rewrite Hz in Hp. rewrite app_assoc in Hp.
    apply app_inj_tail in Hp as [_ ->]. done. }
  destruct HP as [p' HP].
  apply contains_suffix in Hno.
  unfold re_choices in Hm.
  apply matches_cat_inv in Hm as (w5 & g & -> & Hm & _).
  apply matches_cat_inv in Hm as (w4 & n & -> & Hm & _).
  apply matches_cat_inv in Hm as (w3 & s2 & -> & Hm & _).
  apply matches_cat_inv in Hm as (w2 & l & -> & Hm & Hl).
  apply matches_cat_inv in Hm as (h & s & -> & Hh & Hs).
  apply matches_lit_inv in Hl as ->.
  apply matches_rep_cls in Hh. apply matches_rep_cls in Hs.
  assert (E' : (p' ++ [Ch.nl]) ++ Ch.hash :: hd
               = (h ++ s) ++ Txt.sentakushi ++ (s2 ++ n ++ g ++ t)).
  { rewrite <- HP, E. by rewrite <- !app_assoc. }
  clear E. rewrite HP in Hno.
  apply app_eq_app in E' as [m [[E1 E2]|[E1 E2]]].
  - (* the hashes and spaces end inside [pre] *)
    destruct m as [|y m]; [done|].
    apply app_eq_app in E2 as [m' [[E3 E4]|[E3 E4]]].
    + (* the word begins in [pre] and ends at its end or after it *)
      destruct m' as [|y' m'].
      * rewrite app_nil_r in E3.
        assert (contains Txt.sentakushi (p' ++ [Ch.nl]) = true); [|congruence].
        rewrite E1, <- E3. apply contains_app. exists (h ++ s), [].
        by rewrite app_nil_r.
      * cbn [app] in E4. injection E4 as <- E4.
        destruct m as [|y2 m]; cbn [app] in E3; [done|].
        destruct m as [|y3 m]; cbn [app] in E3; [done|].
        destruct m as [|y4 m]; cbn [app] in E3; done.
    + (* the word lies in [pre] *)
      assert (contains Txt.sentakushi (p' ++ [Ch.nl]) = true); [|congruence].
      rewrite E1, E3. apply contains_app. by exists (h ++ s), m'.
  - (* the hashes and spaces go on after [pre] *)
    destruct m as [|y m]; [done|].
    cbn [app] in E2. injection E2 as <- E2.
    apply (hashes_spaces_no_nl_hash h s p' m Hh Hs).
    rewrite E1. by rewrite <- app_assoc.
Qed.

Lemma matches_rep_max p g lo h lft w s :
  matches (Rep lo (Some h) g (Cls p)) lft w s -> (length w <= h)%nat.
Proof.
  intros H. remember (Rep lo (Some h) g (Cls p)) as r eqn:Er.
  revert lo h Er. induction H; intros lo' h' Er; try discriminate.
  - simpl. lia.
  - injection Er as -> -> -> ->. specialize (IHmatches2 _ _ eq_refl).
    apply matches_cls_inv in H1 as (c & -> & Hc). rewrite length_app.
    destruct h' as [|h']; [done|]. simpl in *. lia.
Qed.

Lemma drop_while_run p h x :
  forallb p h = true -> drop_while p (h ++ x) = drop_while p x.
Proof.
  induction h as [|c h IH]; cbn [forallb app drop_while]; [done|].
  intros [Hc Hh]%andb_true_iff. rewrite Hc. by apply IH.
Qed.

(** A text at which the choices pattern fits begins as [heads_choices]
    says. *)
Lemma choices_head lft w t :
  matches re_choices lft w t -> heads_choices (w ++ t) = true.
Proof.
  unfold re_choices. intros Hm.
  apply matches_cat_inv in Hm as (w5 & g & -> & Hm & _).
  apply matches_cat_inv in Hm as (w4 & n & -> & Hm & _).
  apply matches_cat_inv in Hm as (w3 & s2 & -> & Hm & _).
  apply matches_cat_inv in Hm as (w2 & l & -> & Hm & Hl).
  apply matches_cat_inv in Hm as (h & s & -> & Hh & Hs).
  apply matches_lit_inv in Hl as ->.
  pose proof (matches_rep_min _ _ _ _ _ _ _ Hh) as Hmin.
  pose proof (matches_rep_max _ _ _ _ _ _ _ Hh) as Hmax.
  apply matches_rep_cls in Hh. apply matches_rep_cls in Hs.
  set (y := s2 ++ n ++ g ++ t).
  replace ((((((h ++ s) ++ Txt.sentakushi) ++ s2) ++ n) ++ g) ++ t)
    with (h ++ s ++ Txt.sentakushi ++ y) by (subst y; by rewrite <- !app_assoc).
  unfold heads_choices. cbv zeta. rewrite drop_while_run by done.
  assert (Hx1 : drop_while (Z.eqb Ch.hash) (s ++ Txt.sentakushi ++ y)
                = s ++ Txt.sentakushi ++ y).
  { destruct s as [|c s]; [reflexivity|]. cbn [forallb] in Hs.
    apply andb_true_iff in Hs as [Hc _]. cbn [app drop_while].
    by rewrite (space_not_hash c Hc). }
  rewrite Hx1, (drop_while_run is_space s) by done.
  replace (drop_while is_space (Txt.sentakushi ++ y)) with (Txt.sentakushi ++ y)
    by reflexivity.
  replace (startswith Txt.sentakushi (Txt.sentakushi ++ y)) with true.
  2:{ symmetry. apply startswith_app. by exists y. }
  rewrite andb_true_r, (length_app h).
  replace (length h + length (s ++ Txt.sentakushi ++ y)
           - length (s ++ Txt.sentakushi ++ y))%nat with (length h) by lia.
  apply andb_true_iff. split; [apply Nat.leb_le|apply Nat.leb_le]; lia.
Qed.

(** The heading is the first fit when no place before it begins as the
    pattern does. *)
Lemma first_fit_no_heading pre s :
  no_heading_in pre s = true -> first_fit re_choices pre s.
Proof.
  intros H pre1 c pre2 w t Hpre E Hm. apply choices_head in Hm. rewrite <- E in Hm.
  unfold no_heading_in in H. rewrite forallb_forall in H.
  specialize (H (length pre1)).
  rewrite Hpre, <- app_assoc, drop_app_length in H. rewrite Hm in H.
  assert (Hin : In (length pre1) (seq 0 (length (pre1 ++ c :: pre2)))).
  { apply in_seq. rewrite length_app. simpl. lia. }
  specialize (H Hin). done.
Qed.

(** C3, amended: let the first place of a block where the choices pattern
    fits be a choices sub-heading (three or four hashes, white space if
    any, 選択肢, white space that ends with a line break) with one or more
    label-prefixed list lines after it (a hyphen, white space if any, the
    label glyph and its separator, if any, between bold marks, the rest of
    the line, and a line break, which only a last line at the very end of
    the block may lack), and no further such line after them.  Of these
    lines the extractor keeps those in which one space (U+0020) follows
    the hyphen and no line break stands between the hyphen and the label,
    and it drops the others, "-**a.** x" for one.  From a line that it
    keeps it strips the list marker "- " and the white space around the
    rest; it keeps the label prefix with its bold marks and separator,
    "**a.**" for one; and it joins the results, in their order, with
    " / ". *)
Theorem choices_keep_labels pre n ws1 ws2 items t :
  first_fit re_choices pre (choices_section n ws1 ws2 items ++ t) ->
  (3 <= n <= 4)%nat -> forallb is_space ws1 = true -> forallb is_space ws2 = true ->
  items <> [] -> lines_ok items t -> no_item_next t ->
  let block := pre ++ choices_section n ws1 ws2 items ++ t in
  (extract_problem_choices_answer block 0 (length block)).1.2
  = join Txt.choice_sep (map (fun it => strip (choice_body it)) (List.filter kept items)).
Proof.
  intros Hfirst Hn Hws1 Hws2 Hne Hok Hnext block. subst block.
  unfold extract_problem_choices_answer. cbv zeta.
  cbn [fst snd]. rewrite slice_whole. unfold extract_choices_lines.
  destruct (re_search_choices pre n ws1 ws2 items t Hfirst Hn Hws1 Hws2 Hne Hok Hnext)
    as (m & -> & ->).
  assert (Hstrip : strip (concat (map choice_line items))
                   = rstrip (concat (map choice_line items))).
  { destruct items as [|it items]; [done|]. cbn [map concat].
    destruct it as [gap lab sep txt e]. unfold choice_line. cbn [app].
    by rewrite strip_cons, <- rstrip_cons. }
  rewrite Hstrip, (choice_items_lines items t) by done.
  by destruct (map _ (List.filter kept items)).
Qed.

(** C3, as stated, fails: the labels stay in the choices string. *)
Lemma choices_labels_not_stripped :
  (extract_problem_choices_answer Sample.whole_block 0 (length Sample.whole_block)).1.2
  = asc "**a.** radius / **b.** ulna"
  /\ (extract_problem_choices_answer Sample.whole_block 0
        (length Sample.whole_block)).1.2
     <> asc "radius / ulna".
Proof. vm_compute. split; [reflexivity|discriminate]. Qed.


(** Of the three list lines of [loose_block] the second has no space after
    its hyphen and is dropped. *)
Lemma choices_keep_labels_witness :
  (extract_problem_choices_answer Sample.loose_block 0 (length Sample.loose_block)).1.2
  = join Txt.choice_sep
      (map (fun it => strip (choice_body it))
         (List.filter kept
            [Choice [Ch.space] 0x61 [Ch.dot] (asc " radius") [Ch.nl];
             Choice [] 0x62 [Ch.dot] (asc " ulna") [Ch.nl];
             Choice [Ch.space] 0x63 [] (asc " carpal  ") []])).
Proof.
  apply (choices_keep_labels Sample.loose_before 4 [] [Ch.nl]
           [Choice [Ch.space] 0x61 [Ch.dot] (asc " radius") [Ch.nl];
            Choice [] 0x62 [Ch.dot] (asc " ulna") [Ch.nl];
            Choice [Ch.space] 0x63 [] (asc " carpal  ") []]
           []).
  - apply first_fit_no_heading. vm_compute. reflexivity.
  - lia.
  - reflexivity.
  - reflexivity.
  - discriminate.
  - assert (Hsep : forall s : list Z, s = [] \/ s = [Ch.dot] ->
                     s = [] \/ exists c, s = [c] /\ is_label_sep c = true).
    { intros s [->| ->]; [by left|right]. by exists Ch.dot. }
    cbn [lines_ok]. unfold choice_ok. cbn [c_gap c_label c_sep c_text c_end].
    repeat split; try reflexivity; try (apply Hsep; auto); auto.
  - apply no_item_next_nil.
Defined.

(** The choices of [loose_block], spelled out. *)
Example loose_block_choices :
  (extract_problem_choices_answer Sample.loose_block 0 (length Sample.loose_block)).1.2
  = asc "**a.** radius / **c** carpal".
Proof. vm_compute. reflexivity. Qed.

(** * Further properties of the script *)

(** ** The fuzzy matcher *)

(** X1: two answers whose normalizations are equal and not empty match. *)
Theorem equal_normalizations_match a b :
  normalize_answer_for_match a = normalize_answer_for_match b ->
  normalize_answer_for_match a <> [] ->
  answers_match a b = true.
Proof.
  intros E Ha. unfold answers_match. rewrite <- E.
  destruct (normalize_answer_for_match a) as [|x r]; [done|]. cbn [nonempty negb orb].
  replace (str_eqb (x :: r) (x :: r)) with true; [done|].
  symmetry. by apply str_eqb_eq.
Qed.

(** "④（radius）" and "a. radius" *)
Lemma equal_normalizations_match_witness :
  answers_match ([0x2463; Ch.fw_lparen] ++ asc "radius" ++ [Ch.fw_rparen]) (asc "a. radius")
  = true.
Proof.
  apply equal_normalizations_match.
  - vm_compute. reflexivity.
  - vm_compute. discriminate.
Defined.

(** X2: an answer whose normalization is empty matches nothing, on either
    side. *)
Theorem empty_normalization_never_matches a b :
  normalize_answer_for_match a = [] \/ normalize_answer_for_match b = [] ->
  answers_match a b = false.
Proof.
  intros H. unfold answers_match.
  destruct H as [-> | ->]; cbn [nonempty negb orb]; [done|]. by rewrite orb_true_r.
Qed.

(** The row answer "a." is a label and nothing else. *)
Lemma empty_normalization_never_matches_witness :
  answers_match (asc "a.") (asc "a. radius") = false.
Proof.
  apply empty_normalization_never_matches. left. vm_compute. reflexivity.
Defined.

(** ** The answer normalizer *)

(** X3: the normalization of an answer holds no white space. *)
Theorem normalized_has_no_space x :
  forallb not_space (normalize_answer_for_match x) = true.
Proof. apply normalize_no_space. Qed.

(** ** The corpus indexer *)

Lemma index_qnum_exam_in_exact exam_id e lk qn :
  exam_in_exact lk -> exam_in_exact (index_qnum exam_id e lk qn).
Proof.
  intros Hinv. destruct e as [[p c] a]. unfold index_qnum.
  destruct (nonempty p || nonempty c); [|done].
  intros exam qn' p' c' a'. cbn [by_qnum by_exam]. rewrite !dd_append_lookup.
  destruct (decide (exam_id = exam)) as [->|Hne].
  - rewrite elem_of_app, list_elem_of_singleton.
    intros [Hin | [= -> -> -> ->]].
    + apply Hinv in Hin. destruct (decide ((exam, qn) = (exam, qn'))) as [[= ->]|]; [|done].
      apply elem_of_app. by left.
    + rewrite decide_True by done. apply elem_of_app. right.
      by apply list_elem_of_singleton.
  - intros Hin%Hinv. destruct (decide ((exam_id, qn) = (exam, qn'))) as [[= -> ->]|]; done.
Qed.

(** X4: the converse of the invariant of the index: every record of
    [by_exam[exam]] is in [by_qnum[(exam, qn)]] for the question number [qn]
    it carries; the two lookups hold the same records. *)
Theorem exam_records_in_exact_key files exam qn p c a :
  (qn, p, c, a) ∈ default [] (by_exam (build_lookup files) !! exam) ->
  (p, c, a) ∈ default [] (by_qnum (build_lookup files) !! (exam, qn)).
Proof.
  revert exam qn p c a. change (exam_in_exact (build_lookup files)).
  apply (build_lookup_preserves exam_in_exact (fun _ => True)); [done| |].
  - intros. by apply index_qnum_exam_in_exact.
  - intros exam qn p c a. cbn [by_exam]. rewrite lookup_empty. by intros ?%elem_of_nil.
Qed.

Lemma exam_records_in_exact_key_witness :
  ([], asc "**a.** y", asc "a. radius")
  ∈ default [] (by_qnum (build_lookup [Sample.twin_file]) !! (Sample.exam, 2)).
Proof.
  apply (exam_records_in_exact_key [Sample.twin_file] Sample.exam 2
           [] (asc "**a.** y") (asc "a. radius")).
  vm_compute. apply list_elem_of_further, list_elem_of_here.
Defined.

(** X5: the problem text and the choices that the extractor returns hold no
    line break, whatever the block. *)
Theorem extracted_texts_one_line text start end_ :
  let '(problem, choices, _) := extract_problem_choices_answer text start end_ in
  forallb not_nl problem = true /\ forallb not_nl choices = true.
Proof.
  pose proof (extracted_one_line text start end_) as H.
  destruct (extract_problem_choices_answer text start end_) as [[p c] a]. exact H.
Qed.

(** ** The rewrite of the frequency document *)

(** X6: [format_problem_block] is empty exactly when the problem text and
    the choices are both empty. *)
Theorem format_problem_block_empty p c :
  format_problem_block p c = [] <-> p = [] /\ c = [].
Proof.
  rewrite format_problem_block_cases.
  destruct p as [|x p], c as [|y c]; split; try done; try (by intros [? ?]);
    intros H; apply (f_equal nonempty) in H; rewrite <- ?app_assoc in H; discriminate H.
Qed.

(** X7: the pass over the attached lines is idempotent. *)
Theorem strip_attached_twice x : strip_attached (strip_attached x) = strip_attached x.
Proof. apply strip_attached_idempotent. Qed.

(** X8: the pass over the attached lines undoes what a run attaches: the
    output of [main], stripped, is the input, stripped. *)
Theorem strip_attached_main files x :
  strip_attached (main files x) = strip_attached x.
Proof.
  unfold main, rewrite.
  rewrite (strip_attached_inserted (strip_attached x)).
  - apply strip_attached_idempotent.
  - apply re_sub_inserted.
    + intros m. apply replace_row_adds, build_lookup_one_line.
    + apply re_row_ends_line.
Qed.

(** ** The row resolver *)

(** X9: when the first exact-key candidate whose answer matches has a
    problem text, [resolve] returns its problem text and choices. *)
Theorem resolve_first_exact_match lk exam q_num row_ans p c :
  first_match row_ans (default [] (by_qnum lk !! (exam, q_num))) = Some (p, c) ->
  p <> [] ->
  resolve lk exam q_num row_ans = (p, c).
Proof. apply resolve_exact. Qed.

Lemma resolve_first_exact_match_witness :
  resolve (build_lookup [Sample.twin_file]) Sample.exam 1 (asc "radius")
  = (asc "Which bone?", asc "**a.** x").
Proof.
  apply resolve_first_exact_match.
  - vm_compute. reflexivity.
  - discriminate.
Defined.

(** X10: when no exact-key candidate matches (or there is none), [resolve]
    returns the first entry of the exam whose answer matches, whatever its
    question number, and the empty pair when there is none. *)
Theorem resolve_falls_back lk exam q_num row_ans :
  first_match row_ans (default [] (by_qnum lk !! (exam, q_num))) = None ->
  resolve lk exam q_num row_ans
  = default ([], []) (first_match row_ans (map drop_qn (default [] (by_exam lk !! exam)))).
Proof. apply resolve_fallback. Qed.

(** The row says 問9, the corpus has the question as 問1. *)
Lemma resolve_falls_back_witness :
  resolve (build_lookup [Sample.twin_file]) Sample.exam 9 (asc "radius")
  = default ([], [])
      (first_match (asc "radius")
         (map drop_qn
            (default [] (by_exam (build_lookup [Sample.twin_file]) !! Sample.exam)))).
Proof.
  apply resolve_falls_back. vm_compute. reflexivity.
Defined.

(** ** A corpus without the exam of a row *)

Lemma index_qnum_other exam_id e lk qn exam :
  exam_id <> exam ->
  by_exam (index_qnum exam_id e lk qn) !! exam = by_exam lk !! exam
  /\ forall q, by_qnum (index_qnum exam_id e lk qn) !! (exam, q) = by_qnum lk !! (exam, q).
Proof.
  intros Hne. destruct e as [[p c] a]. unfold index_qnum.
  destruct (nonempty p || nonempty c); [|done]. cbn [by_exam by_qnum]. unfold dd_append.
  split; [by rewrite lookup_insert_ne|].
  intros q. rewrite lookup_insert_ne; [done|]. congruence.
Qed.

Lemma fold_left_other {B} (f : lookup -> B -> lookup) (exam : list Z) l :
  (forall lk x, x ∈ l ->
      by_exam (f lk x) !! exam = by_exam lk !! exam
      /\ forall q, by_qnum (f lk x) !! (exam, q) = by_qnum lk !! (exam, q)) ->
  forall lk,
    by_exam (fold_left f l lk) !! exam = by_exam lk !! exam
    /\ forall q, by_qnum (fold_left f l lk) !! (exam, q) = by_qnum lk !! (exam, q).
Proof.
  induction l as [|x l IH]; intros Hf lk; [done|]. cbn [fold_left].
  destruct (IH (fun lk y Hy => Hf lk y (list_elem_of_further _ _ _ Hy)) (f lk x)) as [H1 H2].
  destruct (Hf lk x (list_elem_of_here _ _)) as [H3 H4].
  split; [congruence|]. intros q. by rewrite H2, H4.
Qed.

Lemma index_file_other lk f exam :
  exam_id_from_filename (md_stem f) <> exam ->
  by_exam (index_file lk f) !! exam = by_exam lk !! exam
  /\ forall q, by_qnum (index_file lk f) !! (exam, q) = by_qnum lk !! (exam, q).
Proof.
  intros Hne. unfold index_file.
  destruct (excluded _); [done|]. destruct (negb (contains _ _)); [done|].
  destruct (negb (nonempty _)); [done|].
  apply fold_left_other. intros lk' m _. unfold index_heading.
  destruct (parse_question_numbers (group m 1)); [done|].
  unfold index_block. apply fold_left_other. intros lk'' qn _.
  by apply index_qnum_other.
Qed.

Lemma build_lookup_other files exam :
  (forall f, f ∈ files -> exam_id_from_filename (md_stem f) <> exam) ->
  by_exam (build_lookup files) !! exam = None
  /\ forall q, by_qnum (build_lookup files) !! (exam, q) = None.
Proof.
  intros Hf. unfold build_lookup.
  destruct (fold_left_other index_file exam files) with (lk := Lookup ∅ ∅) as [H1 H2].
  - intros lk f Hin. by apply index_file_other, Hf.
  - split; [by rewrite H1|]. intros q. by rewrite H2.
Qed.

Lemma resolve_missing_exam files exam q_num row_ans :
  (forall f, f ∈ files -> exam_id_from_filename (md_stem f) <> exam) ->
  resolve (build_lookup files) exam q_num row_ans = ([], []).
Proof.
  intros Hf. destruct (build_lookup_other files exam Hf) as [H1 H2].
  rewrite resolve_eq, H1, H2. reflexivity.
Qed.

Lemma replace_row_missing_exam files m :
  (forall f, f ∈ files -> exam_id_from_filename (md_stem f) <> strip (group m 1)) ->
  replace_row (build_lookup files) m = m_text m.
Proof.
  intros Hf. unfold replace_row.
  destruct (re_search re_qnum _); [|done]. by rewrite resolve_missing_exam.
Qed.

(** X11: a row whose exam key belongs to no file of the corpus resolves to
    the empty pair, and [replace_row] returns its line as it is. *)
Theorem missing_exam_leaves_row files exam :
  (forall f, f ∈ files -> exam_id_from_filename (md_stem f) <> exam) ->
  (forall q_num row_ans, resolve (build_lookup files) exam q_num row_ans = ([], []))
  /\ (forall m, strip (group m 1) = exam -> replace_row (build_lookup files) m = m_text m).
Proof.
  intros Hf. split.
  - intros q_num row_ans. by apply resolve_missing_exam.
  - intros m Hm. apply replace_row_missing_exam. by rewrite Hm.
Qed.

(** The corpus has 2022本試 only; the row is of 2023再試. *)
Lemma missing_exam_leaves_row_witness :
  (forall q_num row_ans,
      resolve (build_lookup [Sample.twin_file]) (asc "2023" ++ [Ch.sai; Ch.tamesu])
        q_num row_ans = ([], []))
  /\ (forall m, strip (group m 1) = asc "2023" ++ [Ch.sai; Ch.tamesu] ->
                replace_row (build_lookup [Sample.twin_file]) m = m_text m).
Proof.
  apply (missing_exam_leaves_row [Sample.twin_file] (asc "2023" ++ [Ch.sai; Ch.tamesu])).
  intros f Hf. apply list_elem_of_singleton in Hf as ->. vm_compute. discriminate.
Defined.

(** Replacing every match by itself changes nothing. *)
Lemma sub_loop_self r fuel : forall adv lft s,
  sub_loop fuel r (fun m => m_text m) adv lft s = s.
Proof.
  induction fuel as [|fuel IH]; intros adv lft s; cbn [sub_loop]; [done|].
  destruct (scan r adv lft s) as [[m st1]|] eqn:Hscan; [|done].
  apply scan_sound in Hscan as (pre & w & -> & _ & -> & _). cbn [m_start m_text].
  replace (length lft + length pre - length lft)%nat with (length pre) by lia.
  by rewrite take_app_length, IH.
Qed.

Lemma sub_loop_ext r f g fuel :
  (forall m, f m = g m) ->
  forall adv lft s, sub_loop fuel r f adv lft s = sub_loop fuel r g adv lft s.
Proof.
  intros Hfg. induction fuel as [|fuel IH]; intros adv lft s; cbn [sub_loop]; [done|].
  destruct (scan r adv lft s) as [[m st1]|]; [|done]. by rewrite IH, Hfg.
Qed.

(** X12: with an empty corpus, [main] is the pass over the attached lines
    and nothing more. *)
Theorem main_empty_corpus x : main [] x = strip_attached x.
Proof.
  unfold main, rewrite, re_sub.
  rewrite (sub_loop_ext re_row _ (fun m => m_text m)).
  - apply sub_loop_self.
  - intros m. apply replace_row_missing_exam. intros f Hf. by apply elem_of_nil in Hf.
Qed.

(** ** The block of a heading *)

Lemma finditer_loop_bounds r fuel : forall adv lft s m,
  m ∈ finditer_loop fuel r adv lft s ->
  (length lft <= m_start m <= m_end m)%nat /\ (m_end m <= length lft + length s)%nat.
Proof.
  induction fuel as [|fuel IH]; intros adv lft s m; cbn [finditer_loop].
  { intros H. by apply elem_of_nil in H. }
  destruct (scan r adv lft s) as [[m0 st1]|] eqn:Hscan.
  2: { intros H. by apply elem_of_nil in H. }
  apply scan_sound in Hscan as (pre & w & Hs & _ & Hm0 & Hb).
  intros [->|Hin]%elem_of_cons.
  - subst m0. cbn [m_start m_end]. rewrite Hs, !length_app. lia.
  - apply IH in Hin. rewrite Hb in Hin. rewrite !length_app, !length_rev in Hin.
    rewrite Hs, !length_app. lia.
Qed.

Lemma re_search_bounds r s n :
  re_search r s = Some n -> (m_start n <= length s)%nat.
Proof.
  unfold re_search. destruct (scan r false [] s) as [[m st1]|] eqn:Hscan; [|done].
  intros [= <-]. apply scan_sound in Hscan as (pre & w & Hs & _ & -> & _).
  cbn [m_start length]. rewrite Hs, !length_app. lia.
Qed.

(** X13: the block of a heading that [finditer] found starts at the end of
    the heading and ends inside the text, at or after its start. *)
Theorem block_within_text text m :
  m ∈ finditer re_heading text ->
  (m_end m <= block_end text m <= length text)%nat.
Proof.
  intros Hin. apply finditer_loop_bounds in Hin as [_ Hend]. cbn [length] in Hend.
  unfold block_end.
  assert (Hn : forall r n, re_search r (skipn (m_end m) text) = Some n ->
                 (m_end m <= m_end m + m_start n <= length text)%nat).
  { intros r n Hn%re_search_bounds. rewrite length_skipn in Hn. lia. }
  destruct (re_search re_next_question _) as [n|] eqn:E1; [by apply (Hn _ _ E1)|].
  destruct (re_search re_next_heading _) as [n|] eqn:E2; [by apply (Hn _ _ E2)|].
  lia.
Qed.

Lemma block_within_text_witness :
  SampleMatch.answer_only_heading ∈ finditer re_heading Sample.answer_only_text
  /\ (m_end SampleMatch.answer_only_heading
      <= block_end Sample.answer_only_text SampleMatch.answer_only_heading
      <= length Sample.answer_only_text)%nat.
Proof.
  assert (H : SampleMatch.answer_only_heading
              ∈ finditer re_heading Sample.answer_only_text).
  { vm_compute. apply list_elem_of_here. }
  split; [exact H|]. exact (block_within_text _ _ H).
Defined.

(** The pattern for the next heading of any kind fits at a line break that
    a sub-heading of two or three hashes follows. *)
Lemma next_heading_here n c t :
  (2 <= n <= 3)%nat -> is_space c = true ->
  exists st1,
    rmatch re_next_heading
      (accept false (MState [] (Ch.nl :: repeat Ch.hash n ++ c :: t) []))
      (MState [] (Ch.nl :: repeat Ch.hash n ++ c :: t) []) = Some st1.
Proof.
  intros Hn Hc. pose proof (space_not_hash c Hc) as Hh.
  set (st0 := MState [] (Ch.nl :: repeat Ch.hash n ++ c :: t) []).
  set (k := accept false st0).
  assert (Hlast : forall st, rest st = c :: t ->
            exists st1, rmatch (Plus (Cls is_space)) k st = Some st1).
  { intros st Hst. eexists.
    apply (step_rep_cls _ _ _ _ _ (c :: take_while is_space t) (drop_while is_space t)).
    - by rewrite Hst, <- app_comm_cons, take_drop_while.
    - cbn [forallb]. by rewrite Hc, take_while_all.
    - pose proof (drop_while_ends is_space None (c :: t)) as H.
      cbn [take_while drop_while] in H. by rewrite Hc in H.
    - done.
    - cbn [length]. lia.
    - apply accept_false. }
  assert (Hhash : forall st, rest st = repeat Ch.hash n ++ c :: t ->
            exists st1, rmatch (hashes 2 3 · Plus (Cls is_space))%re k st = Some st1).
  { intros st Hst.
    destruct (Hlast (moved (repeat Ch.hash n) st (caps st))) as [st1 H1].
    { by apply (moved_rest _ (c :: t)). }
    exists st1. rewrite rmatch_cat. unfold hashes.
    apply (step_rep_cls _ _ _ _ _ (repeat Ch.hash n) (c :: t)); [done| | | | |done].
    - assert (n = 2 \/ n = 3)%nat as [->| ->] by lia; reflexivity.
    - by apply run_ends_other.
    - cbn [within]. rewrite repeat_length. lia.
    - rewrite repeat_length. lia. }
  destruct (Hhash (MState [Ch.nl] (repeat Ch.hash n ++ c :: t) [])) as [st1 H1]; [done|].
  exists st1. unfold re_next_heading, Chr at 1. rewrite !rmatch_cat.
  rewrite (step_cls _ _ _ Ch.nl (repeat Ch.hash n ++ c :: t)); [|done|reflexivity].
  rewrite rmatch_cat in H1. exact H1.
Qed.

(** X14: where the text after a heading has no later question heading and
    goes on with a sub-heading of two or three hashes, the second pattern
    for the end of the block fits at once: the block is empty, and the
    heading leaves the index as it was. *)
Theorem sub_heading_ends_last_block exam_id text lk m n c t :
  skipn (m_end m) text = Ch.nl :: repeat Ch.hash n ++ c :: t ->
  (2 <= n <= 3)%nat -> is_space c = true ->
  re_search re_next_question (skipn (m_end m) text) = None ->
  block_end text m = m_end m
  /\ slice text (m_end m) (block_end text m) = []
  /\ index_heading exam_id text lk m = lk.
Proof.
  intros Htail Hn Hc Hnone.
  assert (Hend : block_end text m = m_end m).
  { unfold block_end. rewrite Hnone, Htail.
    destruct (next_heading_here n c t Hn Hc) as [st1 H1].
    unfold re_search. rewrite (scan_here _ _ _ _ _ H1). cbn. lia. }
  split; [done|]. rewrite Hend. unfold slice. rewrite Nat.sub_diag. split; [done|].
  unfold index_heading. destruct (parse_question_numbers _); [done|].
  rewrite Hend. unfold extract_problem_choices_answer, slice. rewrite Nat.sub_diag.
  cbn [firstn]. apply index_block_bare.
Qed.

Lemma sub_heading_ends_last_block_witness :
  block_end SampleMatch.last_question_text SampleMatch.last_question_heading = 5%nat
  /\ slice SampleMatch.last_question_text 5
       (block_end SampleMatch.last_question_text SampleMatch.last_question_heading) = []
  /\ index_heading Sample.exam SampleMatch.last_question_text (Lookup ∅ ∅)
       SampleMatch.last_question_heading = Lookup ∅ ∅.
Proof.
  apply (sub_heading_ends_last_block Sample.exam SampleMatch.last_question_text
           (Lookup ∅ ∅) SampleMatch.last_question_heading 3 Ch.space
           (Txt.mondaibun ++ Ch.nl :: Sample.line "Which nerve?")).
  - reflexivity.
  - lia.
  - reflexivity.
  - vm_compute. reflexivity.
Defined.

(** ** The exam key of a file name *)

Lemma matches_alt_inv r1 r2 lft w s :
  matches (Alt r1 r2) lft w s -> matches r1 lft w s \/ matches r2 lft w s.
Proof. inversion 1; subst; auto. Qed.

Lemma grp_cap w t st cs :
  rest st = w ++ t ->
  firstn (length (rest st) - length (rest (moved w st cs))) (rest st) = w.
Proof.
  intros Hrest. rewrite (moved_rest w t) by done. rewrite Hrest, length_app.
  replace (length w + length t - length t)%nat with (length w) by lia.
  apply take_app_length.
Qed.

(** The key of a name that starts with four digits, 本 or 再, and 試験. *)
Lemma exam_id_value y k tl :
  length y = 4%nat -> forallb is_digit y = true -> k = Ch.hon \/ k = Ch.sai ->
  exam_id_from_filename (y ++ k :: Txt.shiken ++ tl) = y ++ [k; Ch.tamesu].
Proof.
  intros Hlen Hdig Hk. unfold exam_id_from_filename, re_match, match_at.
  set (st0 := MState [] (y ++ k :: Txt.shiken ++ tl) []).
  set (st1 := MState (rev y) (k :: Txt.shiken ++ tl) [(1%nat, y)]).
  set (st2 := MState (k :: rev y) (Txt.shiken ++ tl) [(2%nat, [k]); (1%nat, y)]).
  assert (H3 : rmatch (Lit Txt.shiken) (accept false st0) st2
               = Some (moved Txt.shiken st2 (caps st2))).
  { by rewrite (step_lit _ _ _ tl). }
  assert (Hone : rmatch (Grp 2 (Cls (Z.eqb k)))
                   (rmatch (Lit Txt.shiken) (accept false st0)) st1
                 = Some (moved Txt.shiken st2 (caps st2))).
  { rewrite rmatch_grp.
    rewrite (step_cls _ _ st1 k (Txt.shiken ++ tl)); [|done|apply Z.eqb_refl].
    rewrite (grp_cap [k] (Txt.shiken ++ tl)); [|done]. exact H3. }
  assert (H2 : rmatch (Grp 2 (Chr Ch.hon ||| Chr Ch.sai) · Lit Txt.shiken)%re
                 (accept false st0) st1 = Some (moved Txt.shiken st2 (caps st2))).
  { rewrite rmatch_cat. rewrite rmatch_grp in Hone |- *.
    change (rmatch (Chr Ch.hon ||| Chr Ch.sai) ?K st1)
      with (or_else (rmatch (Cls (Z.eqb Ch.hon)) K st1) (rmatch (Cls (Z.eqb Ch.sai)) K st1)).
    destruct Hk as [Hk|Hk]; rewrite Hk in Hone.
    - by rewrite Hone.
    - rewrite (rmatch_cls_cons (Z.eqb Ch.hon) _ st1 k (Txt.shiken ++ tl)); [|done].
      rewrite Hk. change (Ch.hon =? Ch.sai) with false. cbn [or_else]. exact Hone. }
  assert (H1 : rmatch re_exam_name (accept false st0) st0
               = Some (moved Txt.shiken st2 (caps st2))).
  { unfold re_exam_name. rewrite !rmatch_cat, rmatch_grp.
    apply (step_rep_cls _ _ _ _ _ y (k :: Txt.shiken ++ tl)); [done|done| | | |].
    - by apply run_ends_bound.
    - cbn [within]. lia.
    - lia.
    - rewrite (grp_cap y (k :: Txt.shiken ++ tl)); [|done].
      rewrite <- rmatch_cat.
      replace (set_cap 1 y (moved y st0 (caps st0))) with st1; [exact H2|].
      unfold set_cap, moved, st1. cbn [behind rest caps st0].
      by rewrite drop_app_length, app_nil_r. }
  rewrite H1. reflexivity.
Qed.

(** X15: a name that starts with four decimal digits, 本 or 再, and 試験
    has these digits, that character and 試 as its key, whatever follows. *)
Theorem exam_id_of_exam_name y k tl :
  length y = 4%nat -> forallb is_digit y = true -> k = Ch.hon \/ k = Ch.sai ->
  exam_id_from_filename (y ++ k :: Txt.shiken ++ tl) = y ++ [k; Ch.tamesu].
Proof. apply exam_id_value. Qed.

Lemma exam_id_of_exam_name_witness :
  exam_id_from_filename (asc "2022" ++ Ch.sai :: Txt.shiken ++ Txt.mondaikaisetsu)
  = asc "2022" ++ [Ch.sai; Ch.tamesu].
Proof.
  apply (exam_id_of_exam_name (asc "2022") Ch.sai Txt.mondaikaisetsu).
  - reflexivity.
  - reflexivity.
  - by right.
Defined.

(** X16: a name has a key only if it starts with four decimal digits, 本 or
    再, and 試験; every other name gives the empty key, which [build_lookup]
    skips. *)
Theorem exam_id_only_of_exam_name name :
  exam_id_from_filename name <> [] ->
  exists y k tl,
    name = y ++ k :: Txt.shiken ++ tl
    /\ length y = 4%nat /\ forallb is_digit y = true /\ (k = Ch.hon \/ k = Ch.sai)
    /\ exam_id_from_filename name = y ++ [k; Ch.tamesu].
Proof.
  intros Hne.
  assert (Hm : exists st1,
             rmatch re_exam_name (accept false (MState [] name [])) (MState [] name [])
             = Some st1).
  { unfold exam_id_from_filename, re_match, match_at in Hne.
    destruct (rmatch _ _ _) as [st1|]; [by exists st1|done]. }
  destruct Hm as [st1 Hm].
  apply rmatch_sound in Hm as (w & s & cs & Hrest & Hm & _). cbn [rest behind] in *.
  unfold re_exam_name in Hm.
  apply matches_cat_inv in Hm as (w12 & w3 & -> & H12 & H3).
  apply matches_cat_inv in H12 as (w1 & w2 & -> & H1 & H2).
  apply matches_lit_inv in H3 as ->.
  apply matches_grp_inv in H1, H2.
  pose proof (matches_rep_cls _ _ _ _ _ _ _ H1) as Hdig.
  pose proof (matches_rep_min _ _ _ _ _ _ _ H1) as Hmin.
  pose proof (matches_rep_max _ _ _ _ _ _ _ H1) as Hmax.
  assert (Hk : exists k, w2 = [k] /\ (k = Ch.hon \/ k = Ch.sai)).
  { apply matches_alt_inv in H2 as [H2|H2];
      apply matches_cls_inv in H2 as (k & -> & Hk); apply Z.eqb_eq in Hk as <-;
      eexists; eauto. }
  destruct Hk as (k & -> & Hk).
  assert (Hname : name = w1 ++ k :: Txt.shiken ++ s).
  { rewrite Hrest. by rewrite <- !app_assoc. }
  exists w1, k, s. split; [done|]. split; [lia|]. split; [done|]. split; [done|].
  rewrite Hname. apply exam_id_value; [lia|done|done].
Qed.

Lemma exam_id_only_of_exam_name_witness :
  exists y k tl,
    Sample.file_name = y ++ k :: Txt.shiken ++ tl
    /\ length y = 4%nat /\ forallb is_digit y = true /\ (k = Ch.hon \/ k = Ch.sai)
    /\ exam_id_from_filename Sample.file_name = y ++ [k; Ch.tamesu].
Proof.
  apply (exam_id_only_of_exam_name Sample.file_name). vm_compute. discriminate.
Defined.

(** ** The numbers of a heading *)

Lemma split_where_cons p s : exists l ls, split_where p s = l :: ls.
Proof.
  destruct s as [|c s]; cbn [split_where]; [by eexists _, _|].
  destruct (p c); [by eexists _, _|]. destruct (split_where p s); by eexists _, _.
Qed.

Lemma glue_nil parts : parts <> [] -> glue [] parts = parts.
Proof. by destruct parts. Qed.

Lemma cls_here p adv lft c s :
  p c = true ->
  scan (Cls p) adv lft (c :: s)
  = Some (MatchObj (length lft) (S (length lft)) [c] [], MState (c :: lft) s []).
Proof.
  intros Hc. rewrite (scan_here _ _ _ _ (MState (c :: lft) s [])).
  - unfold mk_match. cbn [behind rest caps length].
    replace (S (length s) - length s)%nat with 1%nat by lia. reflexivity.
  - rewrite (rmatch_cls_cons _ _ _ c s); [|done]. rewrite Hc. unfold advance, accept.
    cbn [rest behind caps length].
    replace (length s =? S (length s))%nat with false; [by rewrite andb_false_r|].
    symmetry. apply Nat.eqb_neq. lia.
Qed.

Lemma cls_not_here p adv lft c s :
  p c = false -> scan (Cls p) adv lft (c :: s) = scan (Cls p) false (c :: lft) s.
Proof.
  intros Hc. apply scan_next. rewrite (rmatch_cls_cons _ _ _ c s); [|done]. by rewrite Hc.
Qed.

Lemma skipn_app_le {A} (n : nat) (a b : list A) :
  (n <= length a)%nat -> skipn n (a ++ b) = skipn n a ++ b.
Proof.
  intros H. rewrite skipn_app. replace (n - length a)%nat with 0%nat by lia. done.
Qed.

(** The text between the matches of a class, from [pos] on. *)
Lemma split_at_cls p : forall s fuel adv lft pos whole,
  (length s < fuel)%nat -> whole = rev lft ++ s -> (pos <= length lft)%nat ->
  split_at whole pos (finditer_loop fuel (Cls p) adv lft s)
  = glue (skipn pos (rev lft)) (split_where p s).
Proof.
  induction s as [|c s IH]; intros fuel adv lft pos whole Hfuel -> Hpos.
  - destruct fuel as [|fuel]; [simpl in Hfuel; lia|]. cbn [finditer_loop].
    rewrite scan_end by (by apply rmatch_cls_nil).
    cbn [split_at split_where glue]. by rewrite !app_nil_r.
  - destruct fuel as [|fuel]; [simpl in Hfuel; lia|]. cbn [length] in Hfuel.
    cbn [split_where]. destruct (p c) eqn:Hc.
    + cbn [finditer_loop]. rewrite (cls_here _ _ _ _ _ Hc). cbn [m_start m_end behind rest].
      cbn [split_at m_start m_end glue].
      rewrite (IH fuel _ (c :: lft) (S (length lft)) (rev lft ++ c :: s));
        [|lia|cbn [rev]; by rewrite <- app_assoc|cbn [length]; lia].
      rewrite skipn_all2 by (rewrite length_rev; cbn [length]; lia).
      destruct (split_where_cons p s) as (l & ls & E). rewrite E, glue_nil by done.
      f_equal. unfold slice. rewrite skipn_app_le by (rewrite length_rev; lia).
      rewrite app_nil_r, take_app_length'; [done|].
      rewrite length_skipn, length_rev. lia.
    + assert (Hsame : finditer_loop (S fuel) (Cls p) adv lft (c :: s)
                      = finditer_loop (S fuel) (Cls p) false (c :: lft) s).
      { cbn [finditer_loop]. by rewrite (cls_not_here _ _ _ _ _ Hc). }
      rewrite Hsame.
      rewrite (IH (S fuel) false (c :: lft) pos (rev lft ++ c :: s));
        [|lia|cbn [rev]; by rewrite <- app_assoc|cbn [length]; lia].
      cbn [rev]. rewrite skipn_app_le by (rewrite length_rev; lia).
      destruct (split_where_cons p s) as (l & ls & E). rewrite E. cbn [glue].
      by rewrite <- app_assoc.
Qed.

Lemma re_split_cls p s : re_split (Cls p) s = split_where p s.
Proof.
  unfold re_split, finditer.
  rewrite (split_at_cls p s _ false [] 0 s); [|lia|done|simpl; lia].
  cbn [rev skipn]. destruct (split_where_cons p s) as (l & ls & ->). done.
Qed.

Lemma split_where_app p a d b :
  p d = true -> split_where p (a ++ d :: b) = split_where p a ++ split_where p b.
Proof.
  intros Hd. induction a as [|c a IH]; cbn [app split_where].
  - by rewrite Hd.
  - destruct (p c); [by rewrite IH|]. rewrite IH.
    by destruct (split_where_cons p a) as (l & ls & ->).
Qed.

Lemma split_where_none p s :
  forallb (not_cls p) s = true -> split_where p s = [s].
Proof.
  induction s as [|c s IH]; cbn [forallb split_where]; [done|].
  unfold not_cls at 1. intros [Hc Hs]%andb_true_iff. apply negb_true_iff in Hc.
  by rewrite Hc, IH.
Qed.

Lemma split_where_parts p s part :
  part ∈ split_where p s -> forall c, c ∈ part -> c ∈ s.
Proof.
  revert part. induction s as [|c s IH]; intros part; cbn [split_where].
  - intros ->%list_elem_of_singleton x Hx. by apply elem_of_nil in Hx.
  - destruct (p c).
    + intros [->|Hin]%elem_of_cons x Hx; [by apply elem_of_nil in Hx|].
      right. by apply (IH part).
    + destruct (split_where_cons p s) as (l & ls & E). rewrite E in IH |- *.
      intros [->|Hin]%elem_of_cons x Hx.
      * apply elem_of_cons in Hx as [->|Hx]; [left|right].
        apply (IH l); [left|done].
      * right. apply (IH part); [by right|done].
Qed.

Lemma qnums_of_parts_app l1 l2 :
  qnums_of_parts (l1 ++ l2) = qnums_of_parts l1 ++ qnums_of_parts l2.
Proof.
  induction l1 as [|part l1 IH]; cbn [app qnums_of_parts]; [done|].
  destruct (re_search re_qnum part); by rewrite IH.
Qed.

(** A part without 問 gives no number. *)
Lemma re_qnum_needs_mon part : Ch.mon ∉ part -> re_search re_qnum part = None.
Proof.
  intros Hno. unfold re_search. rewrite scan_no_match; [done|].
  intros pre w t -> Hm. unfold re_qnum in Hm.
  apply matches_cat_inv in Hm as (w1 & w2 & -> & H1 & _).
  apply matches_cls_inv in H1 as (c & -> & Hc). apply Z.eqb_eq in Hc as <-.
  apply Hno. rewrite !elem_of_app. right; left; left. left.
Qed.

(** A part that is 問 and a run of digits gives the number of the run. *)
Lemma re_qnum_number ds :
  ds <> [] -> forallb is_digit ds = true ->
  option_map (fun m => group m 1) (re_search re_qnum (Ch.mon :: ds)) = Some ds.
Proof.
  intros Hne Hdig. unfold re_search.
  set (st0 := MState [] (Ch.mon :: ds) []).
  set (st1 := MState [Ch.mon] ds []).
  set (st2 := MState (rev ds ++ [Ch.mon]) [] [(1%nat, ds)]).
  assert (H : rmatch re_qnum (accept false st0) st0 = Some st2).
  { unfold re_qnum, Chr. rewrite rmatch_cat.
    rewrite (step_cls _ _ st0 Ch.mon ds); [|done|apply Z.eqb_refl].
    change (moved [Ch.mon] st0 (caps st0)) with st1. rewrite rmatch_grp.
    apply (step_rep_cls _ _ _ _ _ ds []); [by rewrite app_nil_r|done|by left|done| |].
    - destruct ds; [done|simpl; lia].
    - rewrite (grp_cap ds []); [|by rewrite app_nil_r].
      unfold set_cap, moved, st2. cbn [behind rest caps st1].
      by rewrite skipn_all. }
  rewrite (scan_here _ _ _ _ _ H). reflexivity.
Qed.

Lemma digit_not_delim c : is_digit c = true -> not_cls is_delim c = true.
Proof.
  intros H. unfold not_cls, is_delim. apply negb_true_iff, orb_false_iff.
  split; apply Z.eqb_neq; intros ->; vm_compute in H; discriminate.
Qed.

Lemma mon_not_delim : not_cls is_delim Ch.mon = true.
Proof. reflexivity. Qed.

(** X17: the numbers of a heading are those of its parts: a delimiter (・
    or 、) cuts the heading in two, and the two halves are read on their
    own. *)
Theorem parse_question_numbers_app a d b :
  is_delim d = true ->
  parse_question_numbers (a ++ d :: b)
  = parse_question_numbers a ++ parse_question_numbers b.
Proof.
  intros Hd. unfold parse_question_numbers.
  by rewrite !re_split_cls, split_where_app, qnums_of_parts_app.
Qed.

Lemma parse_question_numbers_app_witness :
  parse_question_numbers (Sample.q "36" ++ Ch.ideo_comma :: Sample.q "38")
  = parse_question_numbers (Sample.q "36") ++ parse_question_numbers (Sample.q "38").
Proof. apply (parse_question_numbers_app (Sample.q "36") Ch.ideo_comma). reflexivity. Defined.

(** X18: a heading without 問 gives no number, so that the part "36" of
    "問35・36" is dropped. *)
Theorem parse_question_numbers_needs_mon heading :
  Ch.mon ∉ heading -> parse_question_numbers heading = [].
Proof.
  intros Hno. unfold parse_question_numbers. rewrite re_split_cls.
  pose proof (split_where_parts is_delim heading) as Hparts.
  induction (split_where is_delim heading) as [|part parts IH]; [done|].
  cbn [qnums_of_parts]. rewrite re_qnum_needs_mon.
  - apply IH. intros p Hp. apply Hparts. by right.
  - intros Hin. apply Hno. apply (Hparts part); [left|done].
Qed.

Lemma parse_question_numbers_needs_mon_witness :
  (Ch.mon ∉ asc "36") /\ parse_question_numbers (asc "36") = [].
Proof.
  assert (H : Ch.mon ∉ asc "36").
  { intros H. vm_compute in H. repeat (apply elem_of_cons in H as [H|H]; [discriminate H|]).
    by apply elem_of_nil in H. }
  split; [exact H|]. exact (parse_question_numbers_needs_mon (asc "36") H).
Defined.

(** X19: a heading that is 問 and a run of decimal digits gives the number
    that the run spells. *)
Theorem parse_question_numbers_single ds :
  ds <> [] -> forallb is_digit ds = true ->
  parse_question_numbers (Ch.mon :: ds) = [int_of_digits ds].
Proof.
  intros Hne Hdig. unfold parse_question_numbers.
  rewrite re_split_cls, split_where_none.
  - cbn [qnums_of_parts]. pose proof (re_qnum_number ds Hne Hdig) as H.
    destruct (re_search re_qnum (Ch.mon :: ds)) as [m|]; [|done].
    cbn [option_map] in H. by injection H as ->.
  - cbn [forallb]. rewrite mon_not_delim. cbn [andb].
    clear Hne. induction ds as [|c ds IH]; [done|]. cbn [forallb] in *.
    apply andb_true_iff in Hdig as [Hc Hds]. by rewrite digit_not_delim, IH.
Qed.

Lemma parse_question_numbers_single_witness :
  parse_question_numbers (Ch.mon :: asc "38") = [int_of_digits (asc "38")].
Proof. apply (parse_question_numbers_single (asc "38")); [discriminate|reflexivity]. Defined.

(** ** The order of the corpus *)

Lemma dd_append_prefix `{Countable K} {V} (k k' : K) (x : V) (d : gmap K (list V)) l :
  l `prefix_of` default [] (d !! k') ->
  l `prefix_of` default [] (dd_append k x d !! k').
Proof.
  intros Hl. rewrite dd_append_lookup. destruct (decide (k = k')) as [->|]; [|done].
  by apply prefix_app_r.
Qed.

Lemma index_qnum_extends lk0 exam_id e lk qn :
  extends lk0 lk -> extends lk0 (index_qnum exam_id e lk qn).
Proof.
  intros [Hq He]. destruct e as [[p c] a]. unfold index_qnum.
  destruct (nonempty p || nonempty c); [|done].
  split; cbn [by_qnum by_exam]; intros k; by apply dd_append_prefix.
Qed.

Lemma extends_refl lk : extends lk lk.
Proof. by split. Qed.

Lemma build_lookup_app files more :
  build_lookup (files ++ more) = fold_left index_file more (build_lookup files).
Proof. unfold build_lookup. apply fold_left_app. Qed.

Lemma build_lookup_grows files more :
  extends (build_lookup files) (build_lookup (files ++ more)).
Proof.
  rewrite build_lookup_app. apply fold_left_invariant; [apply extends_refl|].
  intros lk f Hlk.
  apply (index_file_preserves (extends (build_lookup files)) (fun _ => True)); [done| |done].
  intros. by apply index_qnum_extends.
Qed.

Lemma first_match_prefix row_ans l l' p c :
  l `prefix_of` l' -> first_match row_ans l = Some (p, c) ->
  first_match row_ans l' = Some (p, c).
Proof.
  intros [k ->]. induction l as [|[[p' c'] a'] l IH]; cbn [first_match app]; [done|].
  by destruct (answers_match row_ans a').
Qed.

(** X20: the index only grows at the end of its lists: with further files
    after it, a corpus gives lists that start with the lists of the corpus
    itself, under the exact keys and under the exam keys. *)
Theorem later_files_append files more :
  extends (build_lookup files) (build_lookup (files ++ more)).
Proof. apply build_lookup_grows. Qed.

(** X21: the order of the files decides: a row that a corpus resolves by
    an exact-key candidate with a problem text resolves to the same pair
    whatever files come after. *)
Theorem earlier_files_win files more exam q_num row_ans p c :
  first_match row_ans (default [] (by_qnum (build_lookup files) !! (exam, q_num)))
  = Some (p, c) ->
  p <> [] ->
  resolve (build_lookup (files ++ more)) exam q_num row_ans = (p, c)
  /\ resolve (build_lookup files) exam q_num row_ans = (p, c).
Proof.
  intros Hfm Hp. split; [|by apply resolve_exact].
  apply resolve_exact; [|done].
  destruct (build_lookup_grows files more) as [Hq _].
  by apply (first_match_prefix _ _ _ _ _ (Hq (exam, q_num))).
Qed.

Lemma earlier_files_win_witness :
  resolve (build_lookup ([Sample.twin_file] ++ [Sample.shared_file])) Sample.exam 1
    (asc "radius") = (asc "Which bone?", asc "**a.** x")
  /\ resolve (build_lookup [Sample.twin_file]) Sample.exam 1 (asc "radius")
     = (asc "Which bone?", asc "**a.** x").
Proof.
  apply (earlier_files_win [Sample.twin_file] [Sample.shared_file]).
  - vm_compute. reflexivity.
  - discriminate.
Defined.

(** ** What the normalizer keeps and what it takes away *)

Ltac class_facts H :=
  unfold is_space, is_label, is_label_sep, is_sep_or_space, is_open, is_close, in_range,
    Ch.circled1, Ch.circled10, Ch.fw_lparen, Ch.lparen, Ch.fw_rparen, Ch.rparen,
    Ch.dot, Ch.fw_dot, Ch.ideo_comma, Ch.colon, Ch.fw_colon in *;
  rewrite ?orb_true_iff, ?andb_true_iff, ?Z.leb_le, ?Z.eqb_eq in H.

Lemma label_not_space c : is_label c = true -> is_space c = false.
Proof.
  intros H. apply not_true_is_false. intros H2. class_facts H. class_facts H2. lia.
Qed.

Lemma open_not_sep_or_space c : is_open c = true -> is_sep_or_space c = false.
Proof.
  intros H. apply not_true_is_false. intros H2. class_facts H. class_facts H2. lia.
Qed.

Lemma open_not_space c : is_open c = true -> is_space c = false.
Proof.
  intros H%open_not_sep_or_space. unfold is_sep_or_space in H.
  by apply orb_false_iff in H as [_ H].
Qed.

Lemma close_not_space c : is_close c = true -> is_space c = false.
Proof.
  intros H. apply not_true_is_false. intros H2. class_facts H. class_facts H2. lia.
Qed.

(** The label pattern is anchored: it fits at the start of the text only. *)
Lemma label_prefix_at_start adv lft s :
  lft <> [] -> scan re_label_prefix adv lft s = None.
Proof.
  intros Hne. apply scan_no_match. intros pre w t _ Hm. unfold re_label_prefix in Hm.
  apply matches_cat_inv in Hm as (w1234 & w5 & -> & Hm & _).
  apply matches_cat_inv in Hm as (w123 & w4 & -> & Hm & _).
  apply matches_cat_inv in Hm as (w12 & w3 & -> & Hm & _).
  apply matches_cat_inv in Hm as (w1 & w2 & -> & Hbol & _).
  apply matches_bol_inv in Hbol as [_ Hbol].
  unfold at_bol in Hbol. cbn [behind] in Hbol.
  destruct (rev pre ++ lft) eqn:E; [|done].
  apply app_eq_nil in E as [_ ->]. done.
Qed.

Lemma re_sub_fuel r repl s :
  re_sub r repl s = sub_loop (S (S (2 * length s))) r repl false [] s.
Proof. unfold re_sub. f_equal. lia. Qed.

(** A label right before a character that is neither white space nor a
    separator is all that the label pattern takes. *)
Lemma sub_label_prefix l c t :
  is_label l = true -> is_sep_or_space c = false ->
  re_sub re_label_prefix (fun _ => []) (l :: c :: t) = c :: t.
Proof.
  intros Hl Hc. pose proof (label_not_space l Hl) as Hls.
  assert (Hcs : is_space c = false).
  { unfold is_sep_or_space in Hc. by apply orb_false_iff in Hc as [_ Hc]. }
  rewrite re_sub_fuel.
  set (st0 := MState [] (l :: c :: t) []). set (st1 := MState [l] (c :: t) []).
  assert (H : rmatch re_label_prefix (accept false st0) st0 = Some st1).
  { unfold re_label_prefix. rewrite !rmatch_cat.
    change (rmatch (Bol false) ?k st0) with (k st0). unfold Star.
    apply (step_rep_cls _ _ _ _ _ [] (l :: c :: t));
      [done|done|by apply run_ends_other|done|simpl; lia|].
    rewrite moved_nil.
    rewrite (step_cls _ _ st0 l (c :: t)); [|done|done].
    change (moved [l] st0 (caps st0)) with st1.
    apply (step_rep_cls _ _ _ _ _ [] (c :: t));
      [done|done|by apply run_ends_other|done|simpl; lia|].
    rewrite moved_nil.
    apply (step_rep_cls _ _ _ _ _ [] (c :: t));
      [done|done|by apply run_ends_other|done|simpl; lia|].
    rewrite moved_nil. apply accept_false. }
  rewrite (sub_loop_hit _ _ _ _ _ _ _ H). cbn [app behind rest st1].
  apply sub_loop_no_match, label_prefix_at_start. done.
Qed.

(** One bracketed span is replaced by what it holds. *)
Lemma sub_parenthetical o inner cl :
  is_open o = true -> is_close cl = true -> forallb (not_cls is_close) inner = true ->
  re_sub re_parenthetical (fun m => group m 1) (o :: inner ++ [cl]) = inner.
Proof.
  intros Ho Hcl Hin. rewrite re_sub_fuel.
  set (st0 := MState [] (o :: inner ++ [cl]) []).
  set (st1 := MState [o] (inner ++ [cl]) []).
  set (st2 := MState (rev inner ++ [o]) [cl] [(1%nat, inner)]).
  set (st3 := MState (cl :: rev inner ++ [o]) [] [(1%nat, inner)]).
  assert (H : rmatch re_parenthetical (accept false st0) st0 = Some st3).
  { unfold re_parenthetical. rewrite !rmatch_cat.
    rewrite (step_cls _ _ st0 o (inner ++ [cl])); [|done|done].
    change (moved [o] st0 (caps st0)) with st1. rewrite rmatch_grp. unfold Star.
    apply (step_rep_cls _ _ _ _ _ inner [cl]); [done|done| |done|lia|].
    { apply run_ends_other. unfold not_cls. by rewrite Hcl. }
    rewrite (grp_cap inner [cl]); [|done].
    replace (set_cap 1 inner (moved inner st1 (caps st1))) with st2.
    2:{ unfold set_cap, moved, st2. cbn [behind rest caps st1].
        by rewrite drop_app_length. }
    rewrite (step_cls _ _ st2 cl []); [|done|done].
    change (moved [cl] st2 (caps st2)) with st3. apply accept_false. }
  rewrite (sub_loop_hit _ _ _ _ _ _ _ H).
  replace (group (mk_match st0 st3) 1) with inner by reflexivity.
  cbn [rest st3]. rewrite sub_loop_no_match; [by rewrite app_nil_r|].
  apply scan_end. unfold re_parenthetical. rewrite !rmatch_cat.
  by apply rmatch_cls_nil.
Qed.

(** X22: a text without white space that does not begin with a label
    glyph and holds no opening bracket with a closing bracket after it is
    its own normalization. *)
Theorem normalize_keeps_plain_text y :
  forallb not_space y = true -> starts_with_label y = false -> has_span y = false ->
  normalize_answer_for_match y = y.
Proof.
  intros Hns Hlab Hspan. unfold normalize_answer_for_match.
  rewrite (re_sub_no_match re_label_prefix).
  2:{ intros pre w t E. by apply (label_prefix_no_match y). }
  rewrite (strip_no_space y Hns).
  rewrite (re_sub_no_match re_parenthetical).
  2:{ intros pre w t E. by apply (parenthetical_no_match y). }
  rewrite sub_spaces_filter. by apply filter_all_in.
Qed.

Lemma normalize_keeps_plain_text_witness :
  normalize_answer_for_match (asc "ulna") = asc "ulna".
Proof. apply (normalize_keeps_plain_text (asc "ulna")); reflexivity. Defined.

(** X23: a label glyph before one bracketed span is dropped with the
    brackets: of "④（左大脳半球の下前頭回）" the text between the brackets is
    left, when it holds no white space and no closing bracket. *)
Theorem normalize_unwraps_labelled_span l o inner cl :
  is_label l = true -> is_open o = true -> is_close cl = true ->
  forallb not_space inner = true -> forallb (not_cls is_close) inner = true ->
  normalize_answer_for_match (l :: o :: inner ++ [cl]) = inner.
Proof.
  intros Hl Ho Hcl Hns Hin. unfold normalize_answer_for_match.
  rewrite (sub_label_prefix l o (inner ++ [cl]) Hl (open_not_sep_or_space o Ho)).
  rewrite strip_no_space.
  - rewrite sub_parenthetical by done. rewrite sub_spaces_filter. by apply filter_all_in.
  - cbn [forallb]. rewrite forallb_app. cbn [forallb]. unfold not_space at 1 3.
    by rewrite (open_not_space o Ho), (close_not_space cl Hcl), Hns.
Qed.

Lemma normalize_unwraps_labelled_span_witness :
  normalize_answer_for_match (Ch.circled1 :: Ch.fw_lparen :: asc "gyrus" ++ [Ch.fw_rparen])
  = asc "gyrus".
Proof.
  apply (normalize_unwraps_labelled_span Ch.circled1 Ch.fw_lparen (asc "gyrus")
           Ch.fw_rparen); reflexivity.
Defined.

(** ** Fields and their sub-headings *)

(** A pattern whose matches all hold the word [tag] finds nothing in a text
    without it. *)
Lemma no_word_no_match r tag block :
  (forall lft w t, matches r lft w t -> exists u v, w = u ++ tag ++ v) ->
  contains tag block = false -> re_search r block = None.
Proof.
  intros Hr Hno. unfold re_search. rewrite scan_no_match; [done|].
  intros pre w t -> Hm. apply Hr in Hm as (u & v & ->).
  assert (contains tag (pre ++ (u ++ tag ++ v) ++ t) = true); [|congruence].
  apply contains_app. exists (pre ++ u), (v ++ t). by rewrite <- !app_assoc.
Qed.

Lemma problem_tagged_word tag lft w t :
  matches (re_problem_tagged tag) lft w t -> exists u v, w = u ++ Txt.mondaibun ++ v.
Proof.
  unfold re_problem_tagged. intros Hm.
  apply matches_cat_inv in Hm as (w9 & x9 & -> & Hm & _).
  apply matches_cat_inv in Hm as (w8 & x8 & -> & Hm & _).
  apply matches_cat_inv in Hm as (w7 & x7 & -> & Hm & _).
  apply matches_cat_inv in Hm as (w6 & x6 & -> & Hm & _).
  apply matches_cat_inv in Hm as (w5 & x5 & -> & Hm & _).
  apply matches_cat_inv in Hm as (w4 & x4 & -> & Hm & _).
  apply matches_cat_inv in Hm as (w3 & x3 & -> & Hm & _).
  apply matches_cat_inv in Hm as (w2 & l & -> & _ & Hl).
  apply matches_lit_inv in Hl as ->.
  exists w2, (x3 ++ x4 ++ x5 ++ x6 ++ x7 ++ x8 ++ x9). by rewrite <- !app_assoc.
Qed.

Lemma section_word tag lft w t :
  matches (hashes 3 4 · spaces0 · Lit tag
           · spaces0 · Plus (Chr Ch.nl) · Grp 1 (PlusLazy (Cls any_char))
           · re_section_end)%re lft w t ->
  exists u v, w = u ++ tag ++ v.
Proof.
  intros Hm.
  apply matches_cat_inv in Hm as (w6 & x6 & -> & Hm & _).
  apply matches_cat_inv in Hm as (w5 & x5 & -> & Hm & _).
  apply matches_cat_inv in Hm as (w4 & x4 & -> & Hm & _).
  apply matches_cat_inv in Hm as (w3 & x3 & -> & Hm & _).
  apply matches_cat_inv in Hm as (w2 & l & -> & _ & Hl).
  apply matches_lit_inv in Hl as ->.
  exists w2, (x3 ++ x4 ++ x5 ++ x6). by rewrite <- !app_assoc.
Qed.

Lemma choices_word lft w t :
  matches re_choices lft w t -> exists u v, w = u ++ Txt.sentakushi ++ v.
Proof.
  unfold re_choices. intros Hm.
  apply matches_cat_inv in Hm as (w5 & x5 & -> & Hm & _).
  apply matches_cat_inv in Hm as (w4 & x4 & -> & Hm & _).
  apply matches_cat_inv in Hm as (w3 & x3 & -> & Hm & _).
  apply matches_cat_inv in Hm as (w2 & l & -> & _ & Hl).
  apply matches_lit_inv in Hl as ->.
  exists w2, (x3 ++ x4 ++ x5). by rewrite <- !app_assoc.
Qed.

(** X24: each field comes from its own sub-heading: a block without the
    word 問題文 gives no problem text, one without 選択肢 no choices, one
    without 正解 no answer. *)
Theorem field_needs_its_word text a b :
  let block := slice text a b in
  let e := extract_problem_choices_answer text a b in
  (contains Txt.mondaibun block = false -> e.1.1 = [])
  /\ (contains Txt.sentakushi block = false -> e.1.2 = [])
  /\ (contains Txt.seikai block = false -> e.2 = []).
Proof.
  intros block e. subst e. unfold extract_problem_choices_answer. fold block.
  cbn [fst snd]. clearbody block. split; [|split]; intros Hno.
  - cbn [first_problem].
    rewrite !(no_word_no_match _ Txt.mondaibun block); [done| |done| |done| |done].
    + apply section_word.
    + apply problem_tagged_word.
    + apply problem_tagged_word.
  - unfold extract_choices_lines.
    by rewrite (no_word_no_match _ Txt.sentakushi block choices_word Hno).
  - unfold extract_answer.
    rewrite (no_word_no_match _ Txt.seikai block); [done| |done]. apply section_word.
Qed.

(** The block of 問7 in [answer_only_text] has an answer and neither of the
    other two words. *)
Lemma field_needs_its_word_witness :
  (extract_problem_choices_answer Sample.answer_only_text 5 25).1.1 = []
  /\ (extract_problem_choices_answer Sample.answer_only_text 5 25).1.2 = [].
Proof.
  destruct (field_needs_its_word Sample.answer_only_text 5 25) as (H1 & H2 & _).
  split; [apply H1|apply H2]; vm_compute; reflexivity.
Defined.

(** ** The files that are read *)

(** X25: the three names that [build_lookup] skips by name do not hold the
    word 問題解説, so that the second test alone skips them as well. *)
Theorem excluded_names_lack_keyword name :
  excluded name = true -> contains Txt.mondaikaisetsu name = false.
Proof.
  unfold excluded. intros H.
  apply orb_true_iff in H as [H|H]; [apply orb_true_iff in H as [H|H]|];
    apply str_eqb_eq in H as ->; vm_compute; reflexivity.
Qed.

Lemma excluded_names_lack_keyword_witness :
  contains Txt.mondaikaisetsu Txt.readme_md = false.
Proof. apply (excluded_names_lack_keyword Txt.readme_md). vm_compute. reflexivity. Defined.
